(** * ClientGame: client-side synchronisation core

    A shallow embedding of [src/client/game/ClientGame.js]: input
    sequencing ([updateInput]), server reconciliation ([clientPrediction]),
    the snapshot buffer ([onServerUpdate]) and the interpolation pass
    ([processNetworkUpdates]).

    Numbers.  Times and coordinates are JavaScript Numbers, that is IEEE 754
    binary64 values; they are modelled by Rocq's primitive floats, whose
    operations are the same binary64 operations (round to nearest even,
    NaN, signed zeros and infinities included).  Sequence numbers and list
    indices are integral counters far below 2^53, where binary64 arithmetic
    on integers is exact; they are modelled by [Z]. *)

From Stdlib Require Import ZArith Lia Bool List Ascii String.
From Stdlib Require Import Floats.
From stdpp Require Import base option list strings gmap pretty.

Local Open Scope Z_scope.

(** ** JavaScript number primitives *)

(** [Math.min(a, b)]: NaN if either argument is NaN, and -0 below +0. *)
Definition Math_min (a b : float) : float :=
  if (PrimFloat.is_nan a || PrimFloat.is_nan b)%bool then PrimFloat.nan
  else if (a <? b)%float then a
  else if (b <? a)%float then b
  else if PrimFloat.get_sign a then a else b.

(** [Math.max(a, b)]: NaN if either argument is NaN, and +0 above -0. *)
Definition Math_max (a b : float) : float :=
  if (PrimFloat.is_nan a || PrimFloat.is_nan b)%bool then PrimFloat.nan
  else if (a <? b)%float then b
  else if (b <? a)%float then a
  else if PrimFloat.get_sign a then b else a.

(** [Number.isNaN(t) || Math.abs(t) === Number.POSITIVE_INFINITY] *)
Definition nan_or_infinite (t : float) : bool :=
  (PrimFloat.is_nan t || (PrimFloat.abs t =? PrimFloat.infinity)%float)%bool.

(** An array length as a Number. *)
Definition Number_of_nat (n : nat) : float :=
  PrimFloat.of_uint63 (Uint63.of_Z (Z.of_nat n)).

(** ** Data *)

Record Position := mkPosition { pos_x : float; pos_y : float }.

(** [function interpolate (p, n, interpolation)] *)
Definition interpolate (p n interpolation : float) : float :=
  let interpolation := Math_max 0 (Math_min 1 interpolation) in
  (p + interpolation * (n - p))%float.

(** [function lerp (a, b, interpolation)] *)
Definition lerp (a b : Position) (interpolation : float) : Position :=
  {| pos_x := interpolate (pos_x a) (pos_x b) interpolation;
     pos_y := interpolate (pos_y a) (pos_y b) interpolation |}.

(** The frame pushed by [updateInput]: [{ inputs, time, seq }]. *)
Record InputFrame := mkInputFrame {
  frame_inputs : list string;
  frame_time : float;
  frame_seq : Z
}.

(** Inbound snapshot: [ownPlayer], one entry of [players], one bullet, one
    event.  [own_lastInputSeq] is [None] when the field is absent. *)
Record OwnPlayer := mkOwnPlayer {
  own_position : Position;
  own_lastInputSeq : option Z
}.

Record PlayerData := mkPlayerData {
  pd_id : string;
  pd_position : Position
}.

(** A bullet carries [firedBy], the coordinates that [Object.assign]
    overrides on replay, and whatever else the server attached. *)
Record Bullet := mkBullet {
  bullet_firedBy : string;
  bullet_x : float;
  bullet_y : float;
  bullet_rest : string
}.

Record EventData := mkEventData {
  event_id : string;
  event_name : string;
  event_firedBy : string
}.

Record Snapshot := mkSnapshot {
  snap_serverTime : float;
  snap_ownPlayer : OwnPlayer;
  snap_players : list PlayerData;
  snap_bullets : list Bullet;
  snap_events : list EventData
}.

Record Options := mkOptions {
  networkOffset : float;
  networkBufferSize : float;
  simulationTimestep : float;
  naiveApproach : bool;
  opt_clientPrediction : bool;
  clientSmoothing : bool
}.

(** ** Collaborators

    The player entity, the ghosts, the game ([AbstractGame]), its bullet
    system and the network sender live outside [ClientGame.js]; the
    client only calls their methods. *)

(** Modelled from the spec: the player entity ([lib], not under src/),
    which "exposes position, ... its pending-input list, and its
    last-acknowledged input sequence number".  [getId], [getPosition],
    [getInputs], [getWidth] and [getHeight] read the fields; the setters
    are below. *)
Record Player := mkPlayer {
  player_id : string;
  player_position : Position;
  player_inputs : list InputFrame;
  player_lastInputSeq : Z;
  player_width : float;
  player_height : float
}.

(** Modelled from the spec: [player.setPosition(x, y)]. *)
Definition Player_setPosition (p : Position) (pl : Player) : Player :=
  {| player_id := player_id pl; player_position := p;
     player_inputs := player_inputs pl;
     player_lastInputSeq := player_lastInputSeq pl;
     player_width := player_width pl; player_height := player_height pl |}.

(** Modelled from the spec: [player.pushInput(frame)], "appended to an
    ordered, per-player pending inputs list". *)
Definition Player_pushInput (f : InputFrame) (pl : Player) : Player :=
  {| player_id := player_id pl; player_position := player_position pl;
     player_inputs := player_inputs pl ++ [f];
     player_lastInputSeq := player_lastInputSeq pl;
     player_width := player_width pl; player_height := player_height pl |}.

(** Modelled from the spec: [player.clearInputs(n)], which discards [n]
    entries "from the start" of the pending list (oldest first). *)
Definition Player_clearInputs (n : nat) (pl : Player) : Player :=
  {| player_id := player_id pl; player_position := player_position pl;
     player_inputs := drop n (player_inputs pl);
     player_lastInputSeq := player_lastInputSeq pl;
     player_width := player_width pl; player_height := player_height pl |}.

(** Modelled from the spec: [player.setLastInputSeq(v)]. *)
Definition Player_setLastInputSeq (v : Z) (pl : Player) : Player :=
  {| player_id := player_id pl; player_position := player_position pl;
     player_inputs := player_inputs pl;
     player_lastInputSeq := v;
     player_width := player_width pl; player_height := player_height pl |}.

(** Modelled from the spec: a ghost, "a lightweight position-only entity",
    built by [Ghost.create({ x, y, width, height })]. *)
Record Ghost := mkGhost {
  ghost_position : Position;
  ghost_width : float;
  ghost_height : float
}.

Definition Ghost_setPosition (p : Position) (g : Ghost) : Ghost :=
  {| ghost_position := p; ghost_width := ghost_width g;
     ghost_height := ghost_height g |}.

(** ** The state of one client

    Player objects are shared: the local player is usually also registered
    with the game under its id, so players live in a store indexed by
    reference and both [localPlayer] and the game's id table hold
    references into it.

    - [heap]: the player objects, by reference;
    - [game_players], [game_bullets], [game_events], [game_time]: the state
      of [game] that the client reaches through [getPlayerById],
      [getBulletSystem().addBullet], [onEvent] and [getTime];
    - the remaining fields are the closure variables of [ClientGame];
      [network] holds the strings handed to [network.send], oldest first. *)
Record ClientGame := mkClientGame {
  heap : gmap nat Player;
  game_players : gmap string nat;
  game_bullets : list (nat * Bullet);
  game_events : list (string * string * option nat);
  game_time : float;
  serverGhosts : gmap string Ghost;
  localGhosts : gmap string Ghost;
  network : option (list string);
  localPlayer : option nat;
  inputSeq : Z;
  clientTime : float;
  serverTime : float;
  serverUpdates : list Snapshot
}.

Definition set_heap (f : gmap nat Player -> gmap nat Player) (s : ClientGame) :=
  mkClientGame (f (heap s)) (game_players s) (game_bullets s) (game_events s)
    (game_time s) (serverGhosts s) (localGhosts s) (network s) (localPlayer s)
    (inputSeq s) (clientTime s) (serverTime s) (serverUpdates s).

Definition set_game_players (f : gmap string nat -> gmap string nat) (s : ClientGame) :=
  mkClientGame (heap s) (f (game_players s)) (game_bullets s) (game_events s)
    (game_time s) (serverGhosts s) (localGhosts s) (network s) (localPlayer s)
    (inputSeq s) (clientTime s) (serverTime s) (serverUpdates s).

Definition set_game_bullets (f : list (nat * Bullet) -> list (nat * Bullet))
    (s : ClientGame) :=
  mkClientGame (heap s) (game_players s) (f (game_bullets s)) (game_events s)
    (game_time s) (serverGhosts s) (localGhosts s) (network s) (localPlayer s)
    (inputSeq s) (clientTime s) (serverTime s) (serverUpdates s).

Definition set_game_events
    (f : list (string * string * option nat) -> list (string * string * option nat))
    (s : ClientGame) :=
  mkClientGame (heap s) (game_players s) (game_bullets s) (f (game_events s))
    (game_time s) (serverGhosts s) (localGhosts s) (network s) (localPlayer s)
    (inputSeq s) (clientTime s) (serverTime s) (serverUpdates s).

Definition set_serverGhosts (f : gmap string Ghost -> gmap string Ghost)
    (s : ClientGame) :=
  mkClientGame (heap s) (game_players s) (game_bullets s) (game_events s)
    (game_time s) (f (serverGhosts s)) (localGhosts s) (network s) (localPlayer s)
    (inputSeq s) (clientTime s) (serverTime s) (serverUpdates s).

Definition set_localGhosts (f : gmap string Ghost -> gmap string Ghost)
    (s : ClientGame) :=
  mkClientGame (heap s) (game_players s) (game_bullets s) (game_events s)
    (game_time s) (serverGhosts s) (f (localGhosts s)) (network s) (localPlayer s)
    (inputSeq s) (clientTime s) (serverTime s) (serverUpdates s).

Definition set_network (v : option (list string)) (s : ClientGame) :=
  mkClientGame (heap s) (game_players s) (game_bullets s) (game_events s)
    (game_time s) (serverGhosts s) (localGhosts s) v (localPlayer s)
    (inputSeq s) (clientTime s) (serverTime s) (serverUpdates s).

Definition set_localPlayer (v : option nat) (s : ClientGame) :=
  mkClientGame (heap s) (game_players s) (game_bullets s) (game_events s)
    (game_time s) (serverGhosts s) (localGhosts s) (network s) v
    (inputSeq s) (clientTime s) (serverTime s) (serverUpdates s).

Definition set_inputSeq (v : Z) (s : ClientGame) :=
  mkClientGame (heap s) (game_players s) (game_bullets s) (game_events s)
    (game_time s) (serverGhosts s) (localGhosts s) (network s) (localPlayer s)
    v (clientTime s) (serverTime s) (serverUpdates s).

Definition set_times (server client : float) (s : ClientGame) :=
  mkClientGame (heap s) (game_players s) (game_bullets s) (game_events s)
    (game_time s) (serverGhosts s) (localGhosts s) (network s) (localPlayer s)
    (inputSeq s) client server (serverUpdates s).

Definition set_serverUpdates (f : list Snapshot -> list Snapshot) (s : ClientGame) :=
  mkClientGame (heap s) (game_players s) (game_bullets s) (game_events s)
    (game_time s) (serverGhosts s) (localGhosts s) (network s) (localPlayer s)
    (inputSeq s) (clientTime s) (serverTime s) (f (serverUpdates s)).

(** ** Effects

    A method of the client either returns, or a property access on
    [undefined] / [null] raises a [TypeError]; the mutations made before
    the exception stay. *)
Inductive Outcome (A : Type) : Type :=
  | Returned (a : A) (s : ClientGame)
  | TypeError (s : ClientGame).
Arguments Returned {A} a s.
Arguments TypeError {A} s.

Definition M (A : Type) : Type := ClientGame -> Outcome A.

Definition ret {A} (a : A) : M A := fun s => Returned a s.

Definition bind {A B} (m : M A) (k : A -> M B) : M B :=
  fun s => match m s with
           | Returned a s' => k a s'
           | TypeError s' => TypeError s'
           end.

Definition throw {A} : M A := fun s => TypeError s.
Definition gets {A} (f : ClientGame -> A) : M A := fun s => Returned (f s) s.
Definition modify (f : ClientGame -> ClientGame) : M unit :=
  fun s => Returned tt (f s).

Declare Scope js_scope.
Delimit Scope js_scope with js.
Notation "x <- m ;; k" := (bind m (fun x => k))
  (at level 100, m at next level, right associativity) : js_scope.
Notation "m ;; k" := (bind m (fun _ => k))
  (at level 100, right associativity) : js_scope.

(** [for (const a of l) { body }] *)
Fixpoint for_of {A} (l : list A) (body : A -> M unit) : M unit :=
  match l with
  | [] => ret tt
  | a :: l' => bind (body a) (fun _ => for_of l' body)
  end.

(** The state in which a call ends, returned or thrown. *)
Definition final {A} (o : Outcome A) : ClientGame :=
  match o with Returned _ s => s | TypeError s => s end.

Definition returned {A} (o : Outcome A) : bool :=
  match o with Returned _ _ => true | TypeError _ => false end.

Local Open Scope js_scope.

(** A method call on the player object behind reference [r].  Every
    reference the program holds denotes an object of the store; a reference
    outside the store is treated like [null]. *)
Definition deref (r : nat) : M Player :=
  fun s => match heap s !! r with
           | Some pl => Returned pl s
           | None => TypeError s
           end.

Definition update (r : nat) (method : Player -> Player) : M unit :=
  pl <- deref r ;;
  modify (set_heap (fun h => <[r := method pl]> h)).

(** Modelled from the spec: [game.getPlayerById(id)], the lookup in the
    game's player bookkeeping; [undefined] for an unknown id. *)
Definition getPlayerById (id : string) : M (option nat) :=
  gets (fun s => game_players s !! id).

(** Modelled from the spec: [game.getBulletSystem().addBullet(player, b)]
    spawns one bullet; the spawns are recorded in call order. *)
Definition addBullet (player : nat) (b : Bullet) : M unit :=
  modify (set_game_bullets (fun l => l ++ [(player, b)])).

(** Modelled from the spec: [game.onEvent({ id, name }, player)] replays
    one event; the replays are recorded in call order. *)
Definition onEvent (id name : string) (player : option nat) : M unit :=
  modify (set_game_events (fun l => l ++ [(id, name, player)])).

(** [ghosts.server.setPosition(x, y)] where [ghosts.server] is
    [serverGhosts.get(id)]. *)
Definition serverGhost_setPosition (id : string) (p : Position) : M unit :=
  fun s => match serverGhosts s !! id with
           | Some g =>
               Returned tt
                 (set_serverGhosts (fun m => <[id := Ghost_setPosition p g]> m) s)
           | None => TypeError s
           end.

Definition localGhost_setPosition (id : string) (p : Position) : M unit :=
  fun s => match localGhosts s !! id with
           | Some g =>
               Returned tt
                 (set_localGhosts (fun m => <[id := Ghost_setPosition p g]> m) s)
           | None => TypeError s
           end.

Definition localGhost_getPosition (id : string) : M Position :=
  fun s => match localGhosts s !! id with
           | Some g => Returned (ghost_position g) s
           | None => TypeError s
           end.

(** [function addPlayer (player)], for the player object behind [r]. *)
Definition addPlayer (r : nat) : M unit :=
  player <- deref r ;;
  modify (set_game_players (fun m => <[player_id player := r]> m)) ;;
  let serverGhost :=
    mkGhost (player_position player) (player_width player) (player_height player) in
  let localGhost :=
    mkGhost (player_position player) (player_width player) (player_height player) in
  modify (set_serverGhosts (fun m => <[player_id player := serverGhost]> m)) ;;
  modify (set_localGhosts (fun m => <[player_id player := localGhost]> m)).

(** [function setLocalPlayer (player)] *)
Definition setLocalPlayer (player : option nat) : M unit :=
  modify (set_localPlayer player).

(** [function setNetwork (value)]; a fresh sender has sent nothing. *)
Definition setNetwork (value : option (list string)) : M unit :=
  modify (set_network value).

(** [Array.prototype.join] on an array of strings. *)
Fixpoint Array_join (sep : string) (l : list string) : string :=
  match l with
  | [] => ""
  | [a] => a
  | a :: l' => a +:+ sep +:+ Array_join sep l'
  end.

(** [String.prototype.replace('.', '-')]: a string pattern replaces its
    first occurrence only. *)
Fixpoint replace_dot (s : string) : string :=
  match s with
  | EmptyString => EmptyString
  | String c s' =>
      if Ascii.eqb c "."%char then String "-"%char s'
      else String c (replace_dot s')
  end.

(** [if (serverInputSeq)]: [undefined] and [0] are falsy. *)
Definition truthy (v : option Z) : bool :=
  match v with
  | None => false
  | Some n => negb (n =? 0)
  end.

(** The scan of [clientPrediction]:
    [for (let i = 0; i < localInputs.length; ++i)] with its [break];
    [-1] when no entry matches. *)
Fixpoint scan_inputs (localInputs : list InputFrame) (serverInputSeq : Z) (i : Z) : Z :=
  match localInputs with
  | [] => -1
  | f :: rest =>
      if frame_seq f =? serverInputSeq then i
      else scan_inputs rest serverInputSeq (i + 1)
  end.

(** The timeline search of [processNetworkUpdates]:
    [for (let i = 0; i < serverUpdates.length - 1; ++i)] with its [break];
    the result is [(target, previous)]. *)
Fixpoint timeline_search (clientTime : float) (updates : list Snapshot)
    : option (Snapshot * Snapshot) :=
  match updates with
  | point :: rest =>
      match rest with
      | nextPoint :: _ =>
          if ((snap_serverTime point <? clientTime)%float
              && (clientTime <? snap_serverTime nextPoint)%float)%bool
          then Some (nextPoint, point)
          else timeline_search clientTime rest
      | [] => None
      end
  | [] => None
  end.

(** [target] and [previous] as [processNetworkUpdates] settles them,
    fallback included; [None] only for an empty buffer. *)
Definition bracket (clientTime : float) (updates : list Snapshot)
    : option (Snapshot * Snapshot) :=
  match timeline_search clientTime updates with
  | Some tp => Some tp
  | None =>
      match updates with
      | first :: _ => Some (first, first)
      | [] => None
      end
  end.

(** [timePoint] of [processNetworkUpdates]. *)
Definition timePoint (clientTime : float) (target previous : Snapshot) : float :=
  let difference := (snap_serverTime target - clientTime)%float in
  let max_difference := (snap_serverTime target - snap_serverTime previous)%float in
  let timePoint := (difference / max_difference)%float in
  if nan_or_infinite timePoint then 0%float else timePoint.

(** The replay loops shared by [onServerUpdate] and
    [processNetworkUpdates]:
    [Object.assign({}, bullet, { x, y })] keeps the other fields, and
    reading the position of an unknown firing player throws. *)
Definition replay_bullets (bullets : list Bullet) : M unit :=
  for_of bullets (fun bullet =>
    player <- getPlayerById (bullet_firedBy bullet) ;;
    match player with
    | None => throw
    | Some r =>
        pl <- deref r ;;
        let position := player_position pl in
        addBullet r (mkBullet (bullet_firedBy bullet) (pos_x position)
                       (pos_y position) (bullet_rest bullet))
    end).

Definition replay_events (events : list EventData) : M unit :=
  for_of events (fun eventData =>
    player <- getPlayerById (event_firedBy eventData) ;;
    onEvent (event_id eventData) (event_name eventData) player).

(** ** The methods of [ClientGame] *)

Section ClientGame.

(** [options] is fixed when the client is created.  [Number_toString] is
    the runtime's [Number.prototype.toString].  [game_update] is
    [game.update(delta)], the simulation step of [AbstractGame]. *)
Variable options : Options.
Variable Number_toString : float -> string.
Variable game_update : float -> M unit.

(** [function updateInput ()]; [input] is what [inputHandler.getInput()]
    returned. *)
Definition updateInput (input : list string) : M unit :=
  lp <- gets localPlayer ;;
  match input, lp with
  | _ :: _, Some r =>
      modify (fun s => set_inputSeq (inputSeq s + 1) s) ;;
      seq <- gets inputSeq ;;
      time <- gets game_time ;;
      update r (Player_pushInput (mkInputFrame input time seq)) ;;
      net <- gets network ;;
      match net with
      | Some sent =>
          let data := "i." in
          let data := data +:+ (Array_join "-" input +:+ ".") in
          let data := data +:+ (replace_dot (Number_toString time) +:+ ".") in
          let data := data +:+ pretty seq in
          modify (set_network (Some (sent ++ [data])))
      | None => ret tt
      end
  | _, _ => ret tt
  end.

(** [function clientPrediction ()] *)
Definition clientPrediction : M unit :=
  updates <- gets serverUpdates ;;
  match last updates with
  | None => throw
  | Some latestServerUpdate =>
      let serverInputSeq := own_lastInputSeq (snap_ownPlayer latestServerUpdate) in
      match serverInputSeq with
      | Some seq =>
          if truthy serverInputSeq then
            lp <- gets localPlayer ;;
            match lp with
            | None => throw
            | Some r =>
                pl <- deref r ;;
                let localInputs := player_inputs pl in
                let lastInputSeqIndex := scan_inputs localInputs seq 0 in
                (if negb (lastInputSeqIndex =? -1) then
                   let numberToClear := Z.abs (lastInputSeqIndex - (-1)) in
                   update r (Player_clearInputs (Z.to_nat numberToClear)) ;;
                   update r (Player_setPosition
                               (own_position (snap_ownPlayer latestServerUpdate))) ;;
                   update r (Player_setLastInputSeq lastInputSeqIndex)
                 else ret tt) ;;
                pl <- deref r ;;
                serverGhost_setPosition (player_id pl)
                  (own_position (snap_ownPlayer latestServerUpdate))
            end
          else ret tt
      | None => ret tt
      end
  end.

(** The naive branch of [onServerUpdate]. *)
Definition naive_update (data : Snapshot) : M unit :=
  lp <- gets localPlayer ;;
  match lp with
  | None => throw
  | Some r =>
      update r (Player_setPosition (own_position (snap_ownPlayer data))) ;;
      for_of (snap_players data) (fun playerData =>
        player <- getPlayerById (pd_id playerData) ;;
        match player with
        | None => throw
        | Some p => update p (Player_setPosition (pd_position playerData))
        end) ;;
      replay_bullets (snap_bullets data) ;;
      replay_events (snap_events data)
  end.

(** [serverUpdates.length >= (60 * options.networkBufferSize)] *)
Definition buffer_full (length : nat) : bool :=
  (60 * networkBufferSize options <=? Number_of_nat length)%float.

(** [function onServerUpdate (data)] *)
Definition onServerUpdate (data : Snapshot) : M unit :=
  modify (set_times (snap_serverTime data)
            (snap_serverTime data - networkOffset options / 1000)%float) ;;
  if naiveApproach options then naive_update data
  else
    modify (set_serverUpdates (fun l => l ++ [data])) ;;
    updates <- gets serverUpdates ;;
    (if buffer_full (length updates)
     then modify (set_serverUpdates (drop 1))
     else ret tt) ;;
    updates <- gets serverUpdates ;;
    lp <- gets localPlayer ;;
    match updates, lp with
    | _ :: _, Some _ =>
        clientPrediction ;;
        let delta := simulationTimestep options in
        game_update delta
    | _, _ => ret tt
    end.

(** The body of the loop over [latestServerUpdate.players] in
    [processNetworkUpdates], at index [i]. *)
Definition interpolate_player (target previous : Snapshot)
    (timePoint interpolation : float) (i : nat) (playerData : PlayerData) : M unit :=
  let serverPosition := pd_position playerData in
  match snap_players target !! i, snap_players previous !! i with
  | Some targetPlayer, Some previousPlayer =>
      let targetPosition := pd_position targetPlayer in
      let previousPosition := pd_position previousPlayer in
      player <- getPlayerById (pd_id playerData) ;;
      match player with
      | Some r =>
          serverGhost_setPosition (pd_id playerData) serverPosition ;;
          let localGhostPosition := lerp previousPosition targetPosition timePoint in
          localGhost_setPosition (pd_id playerData) localGhostPosition ;;
          (if clientSmoothing options then
             pl <- deref r ;;
             ghost <- localGhost_getPosition (pd_id playerData) ;;
             update r (Player_setPosition
                         (lerp (player_position pl) ghost interpolation))
           else
             ghost <- localGhost_getPosition (pd_id playerData) ;;
             update r (Player_setPosition ghost)) ;;
          replay_bullets (snap_bullets target) ;;
          replay_events (snap_events target)
      | None => ret tt
      end
  | _, _ => ret tt
  end.

(** [for (let i = 0; i < latestServerUpdate.players.length; i++)] *)
Fixpoint interpolate_players (target previous : Snapshot)
    (timePoint interpolation : float) (i : nat) (players : list PlayerData) : M unit :=
  match players with
  | [] => ret tt
  | playerData :: rest =>
      interpolate_player target previous timePoint interpolation i playerData ;;
      interpolate_players target previous timePoint interpolation (S i) rest
  end.

(** The last block of [processNetworkUpdates]: without prediction the
    local player follows the timeline too. *)
Definition interpolate_local (target previous latestServerUpdate : Snapshot)
    (timePoint interpolation : float) : M unit :=
  let my_target_pos := own_position (snap_ownPlayer target) in
  let my_past_pos := own_position (snap_ownPlayer previous) in
  lp <- gets localPlayer ;;
  match lp with
  | None => throw
  | Some r =>
      pl <- deref r ;;
      serverGhost_setPosition (player_id pl)
        (own_position (snap_ownPlayer latestServerUpdate)) ;;
      let local_target := lerp my_past_pos my_target_pos timePoint in
      (if clientSmoothing options then
         pl <- deref r ;;
         update r (Player_setPosition
                     (lerp (player_position pl) local_target interpolation))
       else update r (Player_setPosition local_target)) ;;
      replay_bullets (snap_bullets latestServerUpdate) ;;
      replay_events (snap_events latestServerUpdate)
  end.

(** What [processNetworkUpdates] does once [target], [previous] and
    [timePoint] are settled: the loop over the remote players, then the
    local player's block. *)
Definition render_pass (target previous latestServerUpdate : Snapshot)
    (timePoint interpolation : float) : M unit :=
  interpolate_players target previous timePoint interpolation 0
    (snap_players latestServerUpdate) ;;
  if (negb (opt_clientPrediction options) && negb (naiveApproach options))%bool
  then interpolate_local target previous latestServerUpdate timePoint interpolation
  else ret tt.

(** [function processNetworkUpdates (interpolation)] *)
Definition processNetworkUpdates (interpolation : float) : M unit :=
  updates <- gets serverUpdates ;;
  clientTime <- gets clientTime ;;
  match bracket clientTime updates, last updates with
  | Some (target, previous), Some latestServerUpdate =>
      let timePoint := timePoint clientTime target previous in
      render_pass target previous latestServerUpdate timePoint interpolation
  | _, _ => ret tt
  end.

End ClientGame.

(** [ClientGame ({ options })]: the closure variables as initialised.  The
    player objects already built ([store]) and the game's clock are the
    caller's. *)
Definition create (store : gmap nat Player) (time : float) : ClientGame :=
  mkClientGame store ∅ [] [] time ∅ ∅ None None 0 0%float 0%float [].

(** The local player's object, when there is one. *)
Definition local_player (s : ClientGame) : option Player :=
  match localPlayer s with
  | Some r => heap s !! r
  | None => None
  end.

(** ** The other methods of [ClientGame] *)

(** [function getGhosts (playerId)]: [{ server, local }], each [undefined]
    for a player that has no ghost. *)
Definition getGhosts (playerId : string) : M (option Ghost * option Ghost) :=
  gets (fun s => (serverGhosts s !! playerId, localGhosts s !! playerId)).

(** [function removePlayer (playerId)].  Modelled from the spec:
    [game.removePlayer(playerId)] drops the id from the game's player
    bookkeeping; the player object itself stays where it is referenced. *)
Definition removePlayer (playerId : string) : M unit :=
  modify (set_localGhosts (fun m => delete playerId m)) ;;
  modify (set_serverGhosts (fun m => delete playerId m)) ;;
  modify (set_game_players (fun m => delete playerId m)).

(** [function clearPlayers ()].  Modelled from the spec:
    [game.clearPlayers()] empties the game's player bookkeeping. *)
Definition clearPlayers : M unit :=
  modify (set_game_players (fun _ => ∅)) ;;
  modify (set_serverGhosts (fun _ => ∅)) ;;
  modify (set_localGhosts (fun _ => ∅)).

(** [function getServerTime ()] and [function getLocalPlayer ()] *)
Definition getServerTime : M float := gets serverTime.
Definition getLocalPlayer : M (option nat) := gets localPlayer.

(** ** Drawing

    [onDraw] is the draw handler that the client installs in the game's
    loop.  The renderer and the hooks belong to the callers: the model
    records the calls made on them, in order, and takes them to return
    without calling back into the client.  [afterViewLoopHooks] is a plain
    object used as a table of functions: its own properties in creation
    order, under names that [Object.prototype] does not define. *)
Record HookArgs := mkHookArgs {
  args_time : float;
  args_clientTime : float;
  args_serverTime : float;
  args_netLatency : option float;
  args_netPing : option float
}.

Inductive Effect :=
  | Draw (interpolation : float)
  | Hook (hookName : string) (hook : nat) (args : HookArgs).

(** The closure of [ClientGame] with the renderer and the hooks. *)
Record ViewLoop := mkViewLoop {
  game_state : ClientGame;
  renderer : option nat;
  afterViewLoopHooks : list (string * nat);
  effects : list Effect
}.

Definition set_game_state (s : ClientGame) (v : ViewLoop) : ViewLoop :=
  mkViewLoop s (renderer v) (afterViewLoopHooks v) (effects v).

Definition set_afterViewLoopHooks (hooks : list (string * nat)) (v : ViewLoop)
    : ViewLoop :=
  mkViewLoop (game_state v) (renderer v) hooks (effects v).

Definition perform_effect (e : Effect) (v : ViewLoop) : ViewLoop :=
  mkViewLoop (game_state v) (renderer v) (afterViewLoopHooks v) (effects v ++ [e]).

(** [o[name]] *)
Fixpoint Object_get (o : list (string * nat)) (name : string) : option nat :=
  match o with
  | [] => None
  | (key, value) :: o' =>
      if decide (key = name) then Some value else Object_get o' name
  end.

(** [o[name] = value]: an existing property keeps its place. *)
Fixpoint Object_set (o : list (string * nat)) (name : string) (value : nat)
    : list (string * nat) :=
  match o with
  | [] => [(name, value)]
  | (key, old) :: o' =>
      if decide (key = name) then (key, value) :: o'
      else (key, old) :: Object_set o' name value
  end.


(** [function addAfterViewLoopHook (name, hook)] *)
Definition addAfterViewLoopHook (name : string) (hook : nat) (v : ViewLoop)
    : ViewLoop :=
  set_afterViewLoopHooks (Object_set (afterViewLoopHooks v) name hook) v.


(** [function setRenderer (value)] *)
Definition setRenderer (value : option nat) (v : ViewLoop) : ViewLoop :=
  mkViewLoop (game_state v) value (afterViewLoopHooks v) (effects v).

(** How a draw ends. *)
Inductive Drawn :=
  | Done (v : ViewLoop)
  | Thrown (v : ViewLoop).

Definition after_draw (d : Drawn) : ViewLoop :=
  match d with Done v | Thrown v => v end.

Section Drawing.
Variable options : Options.
(** [Object.keys]: the names of the own properties, in the order that the
    runtime lists them. *)
Variable Object_keys : list (string * nat) -> list string.
(** [network.getNetLatency()] and [network.getNetPing()], of a sender
    that has sent [sent]. *)
Variables getNetLatency getNetPing : list string -> float.

(** The object that every hook is called with. *)
Definition hook_args (s : ClientGame) : HookArgs :=
  mkHookArgs (game_time s) (clientTime s) (serverTime s)
    (getNetLatency <$> network s) (getNetPing <$> network s).

(** [for (const hookName of ...) afterViewLoopHooks[hookName]({ ... })] *)
Fixpoint call_hooks (names : list string) (v : ViewLoop) : Drawn :=
  match names with
  | [] => Done v
  | hookName :: names' =>
      match Object_get (afterViewLoopHooks v) hookName with
      | Some hook =>
          call_hooks names'
            (perform_effect (Hook hookName hook (hook_args (game_state v))) v)
      | None => Thrown v
      end
  end.

(** [function onDraw (interpolation)] *)
Definition onDraw (interpolation : float) (v : ViewLoop) : Drawn :=
  let pass :=
    if negb (naiveApproach options)
       && (0 <? length (serverUpdates (game_state v)))%nat
    then processNetworkUpdates options interpolation (game_state v)
    else Returned tt (game_state v) in
  match pass with
  | TypeError s => Thrown (set_game_state s v)
  | Returned _ s =>
      match renderer v with
      | None => Thrown (set_game_state s v)
      | Some _ =>
          call_hooks (Object_keys (afterViewLoopHooks v))
            (perform_effect (Draw interpolation) (set_game_state s v))
      end
  end.

End Drawing.

(** * Vocabulary of the statements

    Notions the theorems are stated with; none of them is part of the
    program. *)

(** The player object after a successful reconciliation at index [i]. *)
Definition reconciled (pl : Player) (i : Z) (p : Position) : Player :=
  mkPlayer (player_id pl) p (drop (Z.to_nat (Z.abs (i - -1))) (player_inputs pl))
    i (player_width pl) (player_height pl).

(** What one reconciliation against [latest] does to the local player's
    object, as a function. *)
Definition reconcile_player (latest : Snapshot) (pl : Player) : Player :=
  match own_lastInputSeq (snap_ownPlayer latest) with
  | Some seq =>
      if (negb (seq =? 0)
          && negb (scan_inputs (player_inputs pl) seq 0 =? -1))%bool
      then reconciled pl (scan_inputs (player_inputs pl) seq 0)
             (own_position (snap_ownPlayer latest))
      else pl
  | None => pl
  end.

(** [clientTime > point.serverTime && clientTime < nextPoint.serverTime] *)
Definition brackets (clientTime : float) (point nextPoint : Snapshot) : Prop :=
  (snap_serverTime point <? clientTime)%float = true /\
  (clientTime <? snap_serverTime nextPoint)%float = true.

(** The buffer in arrival order is assumed to be in server-time order. *)
Definition time_ordered (updates : list Snapshot) : Prop :=
  forall (i : nat) point nextPoint,
    updates !! i = Some point -> updates !! S i = Some nextPoint ->
    (snap_serverTime point <=? snap_serverTime nextPoint)%float = true.

(** Whether a string has a period. *)
Fixpoint has_dot (s : string) : bool :=
  match s with
  | EmptyString => false
  | String c s' => (Ascii.eqb c "."%char || has_dot s')%bool
  end.

(** The wire message for one frame:
    [i.<codes joined by '-'>.<time, '.' replaced by '-'>.<seq>]. *)
Definition wire_message (Number_toString : float -> string)
    (f : InputFrame) : string :=
  "i." +:+ Array_join "-" (frame_inputs f) +:+ "." +:+
  replace_dot (Number_toString (frame_time f)) +:+ "." +:+ pretty (frame_seq f).

(** The state after a capture. *)
Definition captured (Number_toString : float -> string) (r : nat) (pl : Player)
    (f : InputFrame) (s : ClientGame) : ClientGame :=
  let s1 := set_heap (fun h => <[r := Player_pushInput f pl]> h)
              (set_inputSeq (frame_seq f) s) in
  match network s with
  | Some sent => set_network (Some (sent ++ [wire_message Number_toString f])) s1
  | None => s1
  end.

(** [preserves proj m]: the call [m] ends, returned or thrown, in a state
    with the same [proj]. *)
Definition preserves {X A} (proj : ClientGame -> X) (m : M A) : Prop :=
  forall s, proj (final (m s)) = proj s.

(** The closure variables that only [updateInput], [onServerUpdate],
    [setLocalPlayer] and [setNetwork] assign. *)
Definition closure_vars (s : ClientGame) :=
  (inputSeq s, serverUpdates s, localPlayer s, network s,
   clientTime s, serverTime s).

(** What input capture is about: the counter, the sender, the local
    player, and every player's pending list. *)
Definition capture_view (s : ClientGame) :=
  (inputSeq s, network s, localPlayer s, player_inputs <$> heap s).

(** The numbers [seq0 + 1], ..., [seq0 + n]. *)
Fixpoint count_from (seq0 : Z) (n : nat) : list Z :=
  match n with
  | O => []
  | S n' => (seq0 + 1) :: count_from (seq0 + 1) n'
  end.

(** How many polls of a run had something to capture. *)
Definition captures (polls : list (list string)) : nat :=
  length (filter (fun input => input <> []) polls).

Inductive Call :=
  | UpdateInput (input : list string)
  | OnServerUpdate (data : Snapshot)
  | ProcessNetworkUpdates (interpolation : float).

Definition perform (options : Options) (Number_toString : float -> string)
    (game_update : float -> M unit) (c : Call) : M unit :=
  match c with
  | UpdateInput input => updateInput Number_toString input
  | OnServerUpdate data => onServerUpdate options game_update data
  | ProcessNetworkUpdates interpolation =>
      processNetworkUpdates options interpolation
  end.

(** The calls are made one after the other by the frame scheduler; one
    that throws leaves its mutations behind. *)
Fixpoint session_run (options : Options) (Number_toString : float -> string)
    (game_update : float -> M unit) (calls : list Call) (s : ClientGame)
    : ClientGame :=
  match calls with
  | [] => s
  | c :: calls' =>
      session_run options Number_toString game_update calls'
        (final (perform options Number_toString game_update c s))
  end.

(** What the input handler returned at each [updateInput] of a session. *)
Fixpoint polls_of (calls : list Call) : list (list string) :=
  match calls with
  | [] => []
  | UpdateInput input :: calls' => input :: polls_of calls'
  | _ :: calls' => polls_of calls'
  end.

(** [relates R m]: the call [m] takes a state to an [R]-related one. *)
Definition relates {A} (R : relation ClientGame) (m : M A) : Prop :=
  forall s, R s (final (m s)).

(** Between two states: counter, sender and local player are the same, and
    the local player's pending list has only lost entries at the front. *)
Definition pending_shrinks (s s' : ClientGame) : Prop :=
  inputSeq s' = inputSeq s /\ network s' = network s /\
  localPlayer s' = localPlayer s /\
  forall pl, local_player s = Some pl ->
    exists pl', local_player s' = Some pl' /\
                player_inputs pl' `suffix_of` player_inputs pl.

(** The invariant of a session whose local player is the object behind
    [r] and whose sender had sent [net] when the client was created:
    [frames] are the frames captured so far, oldest first. *)
Definition capturing (Number_toString : float -> string) (r : nat)
    (net : option (list string)) (frames : list InputFrame) (s : ClientGame)
    : Prop :=
  localPlayer s = Some r /\
  inputSeq s = Z.of_nat (length frames) /\
  frame_seq <$> frames = count_from 0 (length frames) /\
  network s = (fun sent => sent ++ (wire_message Number_toString <$> frames)) <$> net /\
  exists pl, heap s !! r = Some pl /\ player_inputs pl `suffix_of` frames.

(** [size > 60 * options.networkBufferSize] *)
Definition exceeds_capacity (options : Options) (size : nat) : bool :=
  (60 * networkBufferSize options <? Number_of_nat size)%float.

(** What replay shows: how many bullets were spawned and events replayed,
    and which players the game knows. *)
Definition replay_view (s : ClientGame) :=
  (length (game_bullets s), length (game_events s), game_players s).

(** The test under which the loop of the interpolation pass handles the
    remote player at index [i]:
    [target.players[i] && previous.players[i]], then [if (player)]. *)
Definition qualifies (s : ClientGame) (target previous : Snapshot) (i : nat)
    (playerData : PlayerData) : bool :=
  bool_decide (is_Some (snap_players target !! i))
  && bool_decide (is_Some (snap_players previous !! i))
  && bool_decide (is_Some (game_players s !! pd_id playerData)).

(** How many of [players], listed from index [i] on, pass it. *)
Fixpoint qualifying (s : ClientGame) (target previous : Snapshot) (i : nat)
    (players : list PlayerData) : nat :=
  match players with
  | [] => 0
  | playerData :: rest =>
      (if qualifies s target previous i playerData then 1 else 0)
      + qualifying s target previous (S i) rest
  end.

(** The shape of the player bookkeeping: which ids have a server ghost, which
    have a local ghost, which player object the game knows under each id,
    and which references denote an object. *)
Definition roster_view (s : ClientGame) :=
  (dom (serverGhosts s), dom (localGhosts s), game_players s, dom (heap s)).

(** The bookkeeping is consistent: the ids with ghosts are the ids the game
    knows, and every player the game knows is an object of the store. *)
Definition roster (s : ClientGame) : Prop :=
  dom (serverGhosts s) = dom (game_players s) /\
  dom (localGhosts s) = dom (game_players s) /\
  forall id r, game_players s !! id = Some r -> r ∈ dom (heap s).

(** Every bullet names a firing player the game knows. *)
Definition shooters_known (s : ClientGame) (bullets : list Bullet) : Prop :=
  Forall (fun b => is_Some (game_players s !! bullet_firedBy b)) bullets.

(** [ensures I Q m]: from a state with [I], the call [m] returns, without
    throwing, a value with [Q] and a state with [I]. *)
Definition ensures {A} (I : ClientGame -> Prop) (Q : A -> Prop) (m : M A) : Prop :=
  forall s, I s -> exists a s', m s = Returned a s' /\ I s' /\ Q a.

(** What the interpolation pass and the naive update keep fixed: the
    game's player table [gp], the id of every player object [ids], the
    local player [lp], and the ids that have ghosts. *)
Definition steady (gp : gmap string nat) (ids : gmap nat string)
    (lp : option nat) (s : ClientGame) : Prop :=
  game_players s = gp /\ player_id <$> heap s = ids /\ localPlayer s = lp /\
  dom (serverGhosts s) = dom gp /\ dom (localGhosts s) = dom gp.

(** The calls a collaborator can make on the client, and a run of them;
    a call that throws leaves its mutations behind. *)
Inductive Op :=
  | AddPlayer (player : nat)
  | RemovePlayer (playerId : string)
  | ClearPlayers
  | SetLocalPlayer (player : option nat)
  | SetNetwork (value : option (list string))
  | PollInput (input : list string)
  | Receive (data : Snapshot)
  | DrawPass (interpolation : float).

Definition call (options : Options) (Number_toString : float -> string)
    (game_update : float -> M unit) (op : Op) : M unit :=
  match op with
  | AddPlayer player => addPlayer player
  | RemovePlayer playerId => removePlayer playerId
  | ClearPlayers => clearPlayers
  | SetLocalPlayer player => setLocalPlayer player
  | SetNetwork value => setNetwork value
  | PollInput input => updateInput Number_toString input
  | Receive data => onServerUpdate options game_update data
  | DrawPass interpolation => processNetworkUpdates options interpolation
  end.

Fixpoint run_ops (options : Options) (Number_toString : float -> string)
    (game_update : float -> M unit) (ops : list Op) (s : ClientGame)
    : ClientGame :=
  match ops with
  | [] => s
  | op :: ops' =>
      run_ops options Number_toString game_update ops'
        (final (call options Number_toString game_update op s))
  end.

(** The pending frames are in capture order: sequence numbers increase
    from the oldest to the newest. *)
Definition seq_increasing (inputs : list InputFrame) : Prop :=
  forall (j k : nat) fj fk,
    (j < k)%nat -> inputs !! j = Some fj -> inputs !! k = Some fk ->
    frame_seq fj < frame_seq fk.

(** The two clocks the client keeps. *)
Definition clocks (s : ClientGame) := (serverTime s, clientTime s).

(** The snapshots received during a run, in arrival order. *)
Fixpoint arrivals (ops : list Op) : list Snapshot :=
  match ops with
  | [] => []
  | Receive data :: ops' => data :: arrivals ops'
  | _ :: ops' => arrivals ops'
  end.


(** What the buffered branch does not show a client without a local player:
    everything but the clocks and the buffer. *)
Definition off_the_wire (s : ClientGame) :=
  (heap s, game_players s, game_bullets s, game_events s, game_time s,
   serverGhosts s, localGhosts s, network s, localPlayer s, inputSeq s).


(** The sequence counter and every player's pending list. *)
Definition pending_view (s : ClientGame) := (inputSeq s, player_inputs <$> heap s).

(** Between two states: the counter is the same and every pending list has
    at most lost entries at the front. *)
Definition pending_suffix (s s' : ClientGame) : Prop :=
  inputSeq s' = inputSeq s /\
  forall r pl', heap s' !! r = Some pl' ->
    exists pl, heap s !! r = Some pl /\
               player_inputs pl' `suffix_of` player_inputs pl.

(** Every pending list is in capture order and carries sequence numbers
    that the counter has already passed. *)
Definition numbered_in_order (s : ClientGame) : Prop :=
  0 <= inputSeq s /\
  forall r pl, heap s !! r = Some pl ->
    seq_increasing (player_inputs pl) /\
    Forall (fun f => 0 < frame_seq f <= inputSeq s) (player_inputs pl).




(** The calls that one draw makes on the hooks of [v], in table order. *)
Definition hook_calls (getNetLatency getNetPing : list string -> float)
    (v : ViewLoop) : list Effect :=
  (fun entry =>
     Hook entry.1 entry.2 (hook_args getNetLatency getNetPing (game_state v)))
  <$> afterViewLoopHooks v.

(** What the last [setLocalPlayer] of a run was given, and the server time
    of the last snapshot received. *)
Fixpoint last_local_player (ops : list Op) (player : option nat) : option nat :=
  match ops with
  | [] => player
  | SetLocalPlayer player' :: ops' => last_local_player ops' player'
  | _ :: ops' => last_local_player ops' player
  end.

Fixpoint last_server_time (ops : list Op) (time : float) : float :=
  match ops with
  | [] => time
  | Receive data :: ops' => last_server_time ops' (snap_serverTime data)
  | _ :: ops' => last_server_time ops' time
  end.

(** * Example states

    Concrete clients, snapshots and options on which the theorems are
    instantiated and the code is run. *)

(** A client in the middle of a session: the local player ["me"] with four
    unacknowledged inputs, sequence numbers 3, 4, 5 and 6, and a remote
    player ["p2"]; both have been added to the game.  The newest snapshot
    puts the local player at (7, 9). *)
Definition frame_n (n : Z) : InputFrame := mkInputFrame ["up"] 1.5%float n.

Definition me : Player :=
  mkPlayer "me" (mkPosition 0 0) [frame_n 3; frame_n 4; frame_n 5; frame_n 6]
    0 16 16.

Definition p2 : Player := mkPlayer "p2" (mkPosition 0 0) [] 0 16 16.

Definition session_start : ClientGame :=
  final ((addPlayer 0 ;; addPlayer 1 ;; setLocalPlayer (Some 0%nat))
           (create (<[0%nat := me]> (<[1%nat := p2]> ∅)) 1.5%float)).

Definition ack (lastInputSeq : option Z) : Snapshot :=
  mkSnapshot 10 (mkOwnPlayer (mkPosition 7 9) lastInputSeq)
    [mkPlayerData "p2" (mkPosition 1 1)] [] [].

(** The state in which [onServerUpdate] calls [clientPrediction]: the
    snapshot has just been pushed. *)
Definition session (lastInputSeq : option Z) : ClientGame :=
  set_serverUpdates (fun l => l ++ [ack lastInputSeq]) session_start.

(** A buffer of one snapshot at time 10, looked at from render times before
    and after it. *)
Definition lone : list Snapshot := [ack None].

(** A client whose last assigned sequence number is 6, with a network
    attached; the runtime prints its clock as ["12.345"]. *)
Definition online : ClientGame :=
  set_inputSeq 6 (set_network (Some []) session_start).

Definition prints_12_345 (t : float) : string := "12.345".

(** A player joins with nothing pending, a sender is attached, and the
    scheduler runs: a capture, a snapshot acknowledging it, an idle poll, a
    render pass, another capture.  The simulation step does nothing. *)
Definition newcomer : ClientGame :=
  final ((addPlayer 1 ;; setLocalPlayer (Some 1%nat) ;; setNetwork (Some []))
           (create (<[0%nat := me]> (<[1%nat := p2]> ∅)) 1.5%float)).

Definition plain_options : Options := mkOptions 100 2 0.015625 false true false.

Definition no_simulation (delta : float) : M unit := ret tt.

Definition morning : list Call :=
  [UpdateInput ["up"]; OnServerUpdate (ack (Some 1)); UpdateInput [];
   ProcessNetworkUpdates 1; UpdateInput ["left"]].

(** Three snapshots buffered, and a capacity of 60 x 0.0625 = 3.75. *)
Definition at_time (t : float) : Snapshot :=
  mkSnapshot t (mkOwnPlayer (mkPosition 0 0) None) [] [] [].

Definition nearly_full : ClientGame :=
  set_serverUpdates (fun _ => [at_time 1; at_time 2; at_time 3]) session_start.

Definition small_buffer : Options := mkOptions 100 0.0625 0.015625 false true false.

(** Two remote players, ["p2"] and ["p3"], next to the local player.  The
    server reports ["p2"] at (0, 0) at time 10 and at (4, 8) at time 11;
    the snapshot of time 11 carries one bullet fired by ["p2"] and one
    event fired by ["p3"]. *)
Definition p3 : Player := mkPlayer "p3" (mkPosition 1 1) [] 0 16 16.

Definition arena : ClientGame :=
  final ((addPlayer 0 ;; addPlayer 1 ;; addPlayer 2 ;; setLocalPlayer (Some 0%nat))
           (create (<[0%nat := me]> (<[1%nat := p2]> (<[2%nat := p3]> ∅)))
              1.5%float)).

Definition shot : Bullet := mkBullet "p2" 0 0 "b1".
Definition hit : EventData := mkEventData "e1" "hit" "p3".

Definition at_10 : Snapshot :=
  mkSnapshot 10 (mkOwnPlayer (mkPosition 0 0) None)
    [mkPlayerData "p2" (mkPosition 0 0); mkPlayerData "p3" (mkPosition 1 1)] [] [].

Definition at_11 : Snapshot :=
  mkSnapshot 11 (mkOwnPlayer (mkPosition 0 0) None)
    [mkPlayerData "p2" (mkPosition 4 8); mkPlayerData "p3" (mkPosition 1 1)]
    [shot] [hit].

(** Predicted mode without smoothing; the render time trails the server
    time by [offset] milliseconds. *)
Definition delayed (offset : float) : Options :=
  mkOptions offset 2 0.015625 false true false.

(** Two snapshots arrive, then one frame is drawn. *)
Definition buffered (offset : float) (first second : Snapshot) (s : ClientGame)
    : ClientGame :=
  final ((onServerUpdate (delayed offset) no_simulation first ;;
          onServerUpdate (delayed offset) no_simulation second) s).

Definition drawn (offset : float) (first second : Snapshot) (s : ClientGame)
    : ClientGame :=
  final (processNetworkUpdates (delayed offset) 1 (buffered offset first second s)).

(** A client that knows no remote player: the local player alone. *)
Definition alone : ClientGame :=
  final ((addPlayer 0 ;; setLocalPlayer (Some 0%nat))
           (create (<[0%nat := me]> ∅) 1.5%float)).

Definition solo (t : float) (bullets : list Bullet) : Snapshot :=
  mkSnapshot t (mkOwnPlayer (mkPosition 0 0) None) [] bullets [].

Definition stray : Bullet := mkBullet "me" 0 0 "b2".

(** The naive mode: positions are copied straight from each snapshot. *)
Definition naive_options : Options := mkOptions 100 2 0.015625 true false false.

(** A snapshot that lists a player nobody has added. *)
Definition with_stranger : Snapshot :=
  mkSnapshot 12 (mkOwnPlayer (mkPosition 5 5) None)
    [mkPlayerData "p2" (mkPosition 4 8); mkPlayerData "p9" (mkPosition 2 2)]
    [shot] [hit].

(** A runtime that lists the names in creation order, as it does for names
    that are not array indices; a sender that reports 40 ms and 80 ms. *)
Definition creation_order (o : list (string * nat)) : list string := o.*1.
Definition latency_40 (sent : list string) : float := 40%float.
Definition ping_80 (sent : list string) : float := 80%float.

(** Two snapshots buffered, a renderer set and two hooks registered. *)
Definition on_screen : ViewLoop :=
  addAfterViewLoopHook "stats" 2
    (addAfterViewLoopHook "debug" 1
       (setRenderer (Some 0%nat)
          (mkViewLoop (buffered 750 at_10 at_11 arena) None [] []))).

(** * Properties *)

(** ** Binary64 facts *)

Lemma nan_or_infinite_spec t :
  nan_or_infinite t =
  match Prim2SF t with
  | S754_nan | S754_infinity _ => true
  | _ => false
  end.
Proof.
  unfold nan_or_infinite, is_nan.
  rewrite !FloatAxioms.eqb_spec, FloatAxioms.abs_spec. unfold SFeqb.
  change (Prim2SF infinity) with (S754_infinity false).
  destruct (Prim2SF t) as [sg|sg| |sg m e]; simpl; try reflexivity.
  - destruct sg; reflexivity.
  - rewrite Z.compare_refl, Pos.compare_cont_refl. destruct sg; reflexivity.
Qed.

(** [t - t] is [+0], or NaN when [t] is not finite. *)
Lemma SF64sub_diag x :
  SF64sub x x = S754_nan \/ SF64sub x x = S754_zero false.
Proof.
  destruct x as [sg|sg| |sg m e]; simpl.
  - right. destruct sg; reflexivity.
  - left. destruct sg; reflexivity.
  - left; reflexivity.
  - right. unfold SF64sub, SFsub. cbv zeta. rewrite Z.sub_diag. reflexivity.
Qed.

(** Dividing by a zero-width bracket never gives a finite number. *)
Lemma zero_width_quotient (t c : float) :
  nan_or_infinite ((t - c) / (t - t))%float = true.
Proof.
  rewrite nan_or_infinite_spec, FloatAxioms.div_spec, (FloatAxioms.sub_spec t t).
  destruct (SF64sub_diag (Prim2SF t)) as [-> | ->];
    destruct (Prim2SF (t - c)%float); reflexivity.
Qed.

Lemma ltb_leb (a b : float) : (a <? b)%float = true -> (a <=? b)%float = true.
Proof.
  rewrite FloatAxioms.ltb_spec, FloatAxioms.leb_spec. unfold SFltb, SFleb.
  destruct (SFcompare _ _) as [[]|]; congruence.
Qed.

(** Two numbers that [===] tells apart are different values. *)
Lemma float_neq (a b : float) :
  (a =? a)%float = true -> (a =? b)%float = false -> a <> b.
Proof. intros Ha Hab E. rewrite <- E in Hab. congruence. Qed.

(** [<=] on binary64 is transitive, and [a <= b] excludes [b < a]. *)
Ltac order_cases :=
  repeat match goal with
  | |- context [(?a ?= ?b)%Z] => destruct (Z.compare_spec a b); subst
  | H : context [(?a ?= ?b)%Z] |- _ => destruct (Z.compare_spec a b); subst
  | |- context [(?a ?= ?b)%positive] => destruct (Pos.compare_spec a b); subst
  | H : context [(?a ?= ?b)%positive] |- _ =>
      destruct (Pos.compare_spec a b); subst
  end; simpl in *; try discriminate; try reflexivity; try lia.

Lemma SFleb_trans a b c :
  SFleb a b = true -> SFleb b c = true -> SFleb a c = true.
Proof.
  unfold SFleb, SFcompare.
  destruct a as [[]|[]| |[] m1 e1], b as [[]|[]| |[] m2 e2],
           c as [[]|[]| |[] m3 e3];
    simpl; try discriminate; try reflexivity;
    change (PosDef.Pos.compare_cont Eq) with Pos.compare; intros H1 H2;
    order_cases.
Qed.

Lemma SFleb_SFltb_false a b : SFleb a b = true -> SFltb b a = true -> False.
Proof.
  unfold SFleb, SFltb, SFcompare.
  destruct a as [[]|[]| |[] m1 e1], b as [[]|[]| |[] m2 e2];
    simpl; try discriminate;
    change (PosDef.Pos.compare_cont Eq) with Pos.compare; intros H1 H2;
    order_cases.
Qed.

Lemma leb_trans (a b c : float) :
  (a <=? b)%float = true -> (b <=? c)%float = true -> (a <=? c)%float = true.
Proof. rewrite !FloatAxioms.leb_spec. apply SFleb_trans. Qed.

Lemma leb_ltb_false (a b : float) :
  (a <=? b)%float = true -> (b <? a)%float = true -> False.
Proof.
  rewrite FloatAxioms.leb_spec, FloatAxioms.ltb_spec. apply SFleb_SFltb_false.
Qed.

Lemma is_nan_spec x :
  PrimFloat.is_nan x = match Prim2SF x with S754_nan => true | _ => false end.
Proof.
  unfold PrimFloat.is_nan. rewrite FloatAxioms.eqb_spec. unfold SFeqb.
  destruct (Prim2SF x) as [[]|[]| |[] m e]; simpl; try reflexivity;
    change (PosDef.Pos.compare_cont Eq) with Pos.compare;
    rewrite Z.compare_refl, Pos.compare_refl; reflexivity.
Qed.

(** On numbers, [a < b] failing means [b <= a]. *)
Lemma not_ltb_leb (a b : float) :
  PrimFloat.is_nan a = false -> PrimFloat.is_nan b = false ->
  (a <? b)%float = false -> (b <=? a)%float = true.
Proof.
  rewrite !is_nan_spec, FloatAxioms.ltb_spec, FloatAxioms.leb_spec.
  unfold SFltb, SFleb, SFcompare.
  destruct (Prim2SF a) as [[]|[]| |[] m1 e1], (Prim2SF b) as [[]|[]| |[] m2 e2];
    simpl; try discriminate; try reflexivity;
    change (PosDef.Pos.compare_cont Eq) with Pos.compare; intros _ _ H;
    order_cases.
Qed.

(** The clamp of [interpolate] puts every number into [0, 1]. *)
Lemma clamp_within_unit_interval (x : float) :
  PrimFloat.is_nan x = false ->
  (0 <=? Math_max 0 (Math_min 1 x))%float = true /\
  (Math_max 0 (Math_min 1 x) <=? 1)%float = true.
Proof.
  intros Hx.
  assert (Hmin : PrimFloat.is_nan (Math_min 1 x) = false /\
                 (Math_min 1 x <=? 1)%float = true).
  { unfold Math_min. rewrite Hx.
    change (PrimFloat.is_nan 1) with false. simpl.
    destruct (1 <? x)%float eqn:H1; [split; reflexivity|].
    destruct (x <? 1)%float eqn:H2;
      [split; [assumption|apply ltb_leb; assumption]|].
    change (get_sign 1) with false. cbv iota. split; [assumption|].
    apply not_ltb_leb; [reflexivity|assumption|assumption]. }
  destruct Hmin as [Hn Hle]. unfold Math_max. rewrite Hn.
  change (PrimFloat.is_nan 0) with false. simpl.
  destruct (0 <? Math_min 1 x)%float eqn:H1;
    [split; [apply ltb_leb; assumption|assumption]|].
  destruct (Math_min 1 x <? 0)%float eqn:H2; [split; reflexivity|].
  change (get_sign 0) with false. cbv iota. split; reflexivity.
Qed.

(** ** The scan for the acknowledged input *)

Lemma scan_inputs_range l seq k :
  scan_inputs l seq k = -1 \/
  k <= scan_inputs l seq k < k + Z.of_nat (length l).
Proof.
  revert k. induction l as [|f l IH]; intros k; simpl; [now left|].
  destruct (frame_seq f =? seq); [right; lia|].
  destruct (IH (k + 1)) as [->|?]; [now left|right; lia].
Qed.

(** The scan returns the first index whose frame carries [seq]. *)
Lemma scan_inputs_found (l : list InputFrame) seq k (i : nat) (f : InputFrame) :
  l !! i = Some f ->
  frame_seq f = seq ->
  (forall (j : nat) (f' : InputFrame),
      (j < i)%nat -> l !! j = Some f' -> frame_seq f' <> seq) ->
  scan_inputs l seq k = k + Z.of_nat i.
Proof.
  revert k i. induction l as [|f0 l IH]; intros k i Hi Hf Hfirst; [done|].
  destruct i as [|i]; simpl in *.
  - injection Hi as ->. apply Z.eqb_eq in Hf. rewrite Hf. lia.
  - destruct (Z.eqb_spec (frame_seq f0) seq) as [E|_].
    + exfalso. apply (Hfirst 0%nat f0); [lia|done|done].
    + rewrite (IH (k + 1) i Hi Hf); [lia|].
      intros j f' Hj Hl. apply (Hfirst (S j) f'); [lia|done].
Qed.

Lemma scan_inputs_absent (l : list InputFrame) seq k :
  Forall (fun f => frame_seq f <> seq) l -> scan_inputs l seq k = -1.
Proof.
  intros H. revert k. induction H as [|f l Hf _ IH]; intros k; simpl; [done|].
  destruct (Z.eqb_spec (frame_seq f) seq); [done|apply IH].
Qed.

(** What the scan found is a frame carrying [seq]. *)
Lemma scan_inputs_hit (l : list InputFrame) seq k :
  scan_inputs l seq k <> -1 -> 0 <= k ->
  exists f, l !! Z.to_nat (scan_inputs l seq k - k) = Some f /\ frame_seq f = seq.
Proof.
  revert k. induction l as [|f0 l IH]; intros k Hne Hk; simpl in *; [done|].
  destruct (Z.eqb_spec (frame_seq f0) seq) as [E|E].
  - exists f0. rewrite Z.sub_diag. done.
  - destruct (IH (k + 1) Hne ltac:(lia)) as (f & Hl & Hf).
    exists f. split; [|done].
    destruct (scan_inputs_range l seq (k + 1)) as [?|?]; [done|].
    replace (Z.to_nat (scan_inputs l seq (k + 1) - k))
      with (S (Z.to_nat (scan_inputs l seq (k + 1) - (k + 1)))) by lia.
    done.
Qed.

(** ** Reconciliation: the three ways [clientPrediction] can go *)

Ltac js_unfold :=
  repeat progress
    (cbv beta iota zeta delta [bind gets modify ret throw update deref]; simpl).

(** No acknowledged sequence number: nothing at all is touched. *)
Lemma clientPrediction_unacknowledged s latest :
  last (serverUpdates s) = Some latest ->
  truthy (own_lastInputSeq (snap_ownPlayer latest)) = false ->
  clientPrediction s = Returned tt s.
Proof.
  intros Hlast Hfalsy. unfold clientPrediction. js_unfold. rewrite Hlast.
  destruct (own_lastInputSeq (snap_ownPlayer latest)) as [seq|]; [|done].
  now rewrite Hfalsy.
Qed.

(** The acknowledged number is in the pending list. *)
Lemma clientPrediction_matched s latest seq r pl g :
  last (serverUpdates s) = Some latest ->
  own_lastInputSeq (snap_ownPlayer latest) = Some seq ->
  seq <> 0 ->
  localPlayer s = Some r ->
  heap s !! r = Some pl ->
  serverGhosts s !! player_id pl = Some g ->
  scan_inputs (player_inputs pl) seq 0 <> -1 ->
  let p := own_position (snap_ownPlayer latest) in
  clientPrediction s =
  Returned tt
    (set_serverGhosts (fun m => <[player_id pl := Ghost_setPosition p g]> m)
       (set_heap
          (fun h => <[r := reconciled pl (scan_inputs (player_inputs pl) seq 0) p]> h)
          s)).
Proof.
  intros Hlast Hseq Hnz Hlp Hpl Hg Hscan p.
  unfold clientPrediction. js_unfold. rewrite Hlast, Hseq. simpl.
  apply Z.eqb_neq in Hnz. rewrite Hnz. simpl. rewrite Hlp, Hpl.
  apply Z.eqb_neq in Hscan. rewrite Hscan. js_unfold.
  rewrite Hpl. js_unfold. rewrite !lookup_insert_eq. js_unfold.
  rewrite !lookup_insert_eq. js_unfold. rewrite !lookup_insert_eq.
  unfold serverGhost_setPosition. simpl. rewrite Hg.
  unfold set_serverGhosts, set_heap. simpl.
  rewrite !insert_insert_eq. reflexivity.
Qed.

(** The acknowledged number is not in the pending list: only the server
    ghost moves. *)
Lemma clientPrediction_unmatched s latest seq r pl g :
  last (serverUpdates s) = Some latest ->
  own_lastInputSeq (snap_ownPlayer latest) = Some seq ->
  seq <> 0 ->
  localPlayer s = Some r ->
  heap s !! r = Some pl ->
  serverGhosts s !! player_id pl = Some g ->
  scan_inputs (player_inputs pl) seq 0 = -1 ->
  clientPrediction s =
  Returned tt
    (set_serverGhosts
       (fun m => <[player_id pl :=
                     Ghost_setPosition (own_position (snap_ownPlayer latest)) g]> m)
       s).
Proof.
  intros Hlast Hseq Hnz Hlp Hpl Hg Hscan.
  unfold clientPrediction. js_unfold. rewrite Hlast, Hseq. simpl.
  apply Z.eqb_neq in Hnz. rewrite Hnz. simpl. rewrite Hlp, Hpl, Hscan. simpl.
  rewrite Hpl. unfold serverGhost_setPosition. now rewrite Hg.
Qed.

Ltac clientPrediction_cases s :=
  unfold clientPrediction; js_unfold;
  destruct (last (serverUpdates s)) as [latest'|] eqn:Hlast'; simpl;
  [ destruct (own_lastInputSeq (snap_ownPlayer latest')) as [seq'|] eqn:Hseq';
    simpl;
    [ destruct (seq' =? 0) eqn:Hnz'; simpl;
      [ | destruct (localPlayer s) as [r'|] eqn:Hlp'; simpl;
          [ destruct (heap s !! r') as [pl'|] eqn:Hpl'; simpl;
            [ destruct (scan_inputs (player_inputs pl') seq' 0 =? -1) eqn:Hscan';
              js_unfold;
              rewrite ?Hpl'; js_unfold; rewrite ?lookup_insert_eq; js_unfold;
              rewrite ?lookup_insert_eq; js_unfold; rewrite ?lookup_insert_eq;
              unfold serverGhost_setPosition; simpl;
              destruct (serverGhosts s !! player_id pl') as [g'|] eqn:Hg'; simpl
            | ]
          | ] ]
    | ]
  | ].

(** Reconciliation leaves the closure variables alone. *)
Lemma clientPrediction_frame s :
  let s' := final (clientPrediction s) in
  serverUpdates s' = serverUpdates s /\ localPlayer s' = localPlayer s /\
  inputSeq s' = inputSeq s /\ network s' = network s.
Proof. clientPrediction_cases s; done. Qed.

Lemma clientPrediction_local_player s latest :
  last (serverUpdates s) = Some latest ->
  local_player (final (clientPrediction s))
  = reconcile_player latest <$> local_player s.
Proof.
  intros Hlast. unfold local_player, reconcile_player.
  destruct (clientPrediction_frame s) as (_ & -> & _).
  revert Hlast.
  clientPrediction_cases s; intros [= <-]; rewrite ?Hlp', ?Hpl', ?Hseq', ?Hnz';
    simpl; rewrite ?Hscan'; simpl; rewrite ?Hpl'; try done.
  all: rewrite ?insert_insert_eq, ?lookup_insert_eq; simpl; try done.
  all: by destruct (localPlayer s) as [r0|]; [destruct (heap s !! r0)|].
Qed.

(** ** Reconciliation: what it discards, stores and leaves alone *)

(** C2.  When the newest snapshot acknowledges the sequence number of the
    pending input that the oldest-first scan finds at index [i],
    reconciliation returns, removes exactly [i + 1] entries from the front
    of the pending list (the matched one included) and puts the local
    player at the snapshot's position.  Sequence numbers start at 1, so the
    acknowledged number is not 0. *)
Theorem C2_reconciliation_drops_through_match
    (s : ClientGame) (latest : Snapshot) (seq : Z) (r : nat) (pl : Player)
    (g : Ghost) (i : nat) (f : InputFrame) :
  last (serverUpdates s) = Some latest ->
  own_lastInputSeq (snap_ownPlayer latest) = Some seq ->
  seq <> 0 ->
  localPlayer s = Some r ->
  heap s !! r = Some pl ->
  serverGhosts s !! player_id pl = Some g ->
  player_inputs pl !! i = Some f ->
  frame_seq f = seq ->
  (forall (j : nat) (f' : InputFrame),
      (j < i)%nat -> player_inputs pl !! j = Some f' -> frame_seq f' <> seq) ->
  exists s' pl',
    clientPrediction s = Returned tt s' /\
    heap s' !! r = Some pl' /\
    player_inputs pl' = drop (i + 1) (player_inputs pl) /\
    (length (player_inputs pl') + (i + 1) = length (player_inputs pl))%nat /\
    player_position pl' = own_position (snap_ownPlayer latest).
Proof.
  intros Hlast Hseq Hnz Hlp Hpl Hg Hi Hf Hfirst.
  pose proof (scan_inputs_found _ _ 0 _ _ Hi Hf Hfirst) as Hscan.
  assert (Hne : scan_inputs (player_inputs pl) seq 0 <> -1) by lia.
  eexists _, _. split; [|split].
  - apply (clientPrediction_matched s latest seq r pl g); done.
  - simpl. apply lookup_insert_eq.
  - simpl. rewrite Hscan.
    replace (Z.to_nat (Z.abs (0 + Z.of_nat i - -1))) with (i + 1)%nat by lia.
    split; [done|]. split; [|done].
    rewrite length_drop. apply lookup_lt_Some in Hi. lia.
Qed.

(** The scenario of the specification: pending [3,4,5,6], acknowledged 4. *)
Lemma C2_witness :
  exists s' pl',
    clientPrediction (session (Some 4)) = Returned tt s' /\
    heap s' !! 0%nat = Some pl' /\
    player_inputs pl' = [frame_n 5; frame_n 6] /\
    (length (player_inputs pl') + 2 = 4)%nat /\
    player_position pl' = mkPosition 7 9.
Proof.
  apply (C2_reconciliation_drops_through_match (session (Some 4))
           (ack (Some 4)) 4 0%nat me (mkGhost (mkPosition 0 0) 16 16) 1%nat
           (frame_n 4)); try reflexivity.
  - lia.
  - intros [|j] f' Hj; [|lia]. intros [= <-]. simpl. lia.
Defined.

(** C9.  After a match at index [i] of the pending list, the value handed
    to [setLastInputSeq] is the index [i], so it differs from the
    acknowledged sequence number whenever the two differ. *)
Theorem C9_lastInputSeq_stores_index
    (s : ClientGame) (latest : Snapshot) (seq : Z) (r : nat) (pl : Player)
    (g : Ghost) (i : nat) (f : InputFrame) :
  last (serverUpdates s) = Some latest ->
  own_lastInputSeq (snap_ownPlayer latest) = Some seq ->
  seq <> 0 ->
  localPlayer s = Some r ->
  heap s !! r = Some pl ->
  serverGhosts s !! player_id pl = Some g ->
  player_inputs pl !! i = Some f ->
  frame_seq f = seq ->
  (forall (j : nat) (f' : InputFrame),
      (j < i)%nat -> player_inputs pl !! j = Some f' -> frame_seq f' <> seq) ->
  exists s' pl',
    clientPrediction s = Returned tt s' /\
    heap s' !! r = Some pl' /\
    player_lastInputSeq pl' = Z.of_nat i /\
    (Z.of_nat i <> frame_seq f -> player_lastInputSeq pl' <> frame_seq f).
Proof.
  intros Hlast Hseq Hnz Hlp Hpl Hg Hi Hf Hfirst.
  pose proof (scan_inputs_found _ _ 0 _ _ Hi Hf Hfirst) as Hscan.
  assert (Hne : scan_inputs (player_inputs pl) seq 0 <> -1) by lia.
  eexists _, _. split; [|split].
  - apply (clientPrediction_matched s latest seq r pl g); done.
  - simpl. apply lookup_insert_eq.
  - simpl. rewrite Hscan. split; [lia|]. intros Hd. lia.
Qed.

(** Pending [3,4,5,6], acknowledged 4: the stored value is 1, not 4. *)
Lemma C9_witness :
  exists s' pl',
    clientPrediction (session (Some 4)) = Returned tt s' /\
    heap s' !! 0%nat = Some pl' /\
    player_lastInputSeq pl' = 1 /\
    (1 <> 4 -> player_lastInputSeq pl' <> 4).
Proof.
  apply (C9_lastInputSeq_stores_index (session (Some 4))
           (ack (Some 4)) 4 0%nat me (mkGhost (mkPosition 0 0) 16 16) 1%nat
           (frame_n 4)); try reflexivity.
  - lia.
  - intros [|j] f' Hj; [|lia]. intros [= <-]. simpl. lia.
Defined.

(** C3, as amended.  When the newest snapshot carries no acknowledged
    sequence number (absent, or 0), [clientPrediction] returns and changes
    nothing: the pending-input list and the local player's position are
    unchanged, and so is the local player's server ghost, whose update sits
    inside the same [if (serverInputSeq)] block. *)
Theorem C3_unacknowledged_snapshot_changes_nothing
    (s : ClientGame) (latest : Snapshot) :
  last (serverUpdates s) = Some latest ->
  truthy (own_lastInputSeq (snap_ownPlayer latest)) = false ->
  exists s',
    clientPrediction s = Returned tt s' /\
    local_player s' = local_player s /\
    serverGhosts s' = serverGhosts s /\
    s' = s.
Proof.
  intros Hlast Hfalsy. exists s.
  by rewrite (clientPrediction_unacknowledged s latest Hlast Hfalsy).
Qed.

Lemma C3_witness :
  exists s',
    clientPrediction (session None) = Returned tt s' /\
    local_player s' = local_player (session None) /\
    serverGhosts s' = serverGhosts (session None) /\
    s' = session None.
Proof.
  apply (C3_unacknowledged_snapshot_changes_nothing (session None) (ack None));
    reflexivity.
Defined.

(** C3 as stated fails: the newest snapshot has no [lastInputSeq] and
    reports the local player at (7, 9); after [clientPrediction] the local
    player's server ghost is still at (0, 0). *)
Lemma C3_counterexample :
  let s := session None in
  let s' := final (clientPrediction s) in
  last (serverUpdates s) = Some (ack None) /\
  own_lastInputSeq (snap_ownPlayer (ack None)) = None /\
  ghost_position <$> serverGhosts s' !! "me" = Some (mkPosition 0 0) /\
  ghost_position <$> serverGhosts s' !! "me"
    <> Some (own_position (snap_ownPlayer (ack None))).
Proof.
  split; [reflexivity|]. split; [reflexivity|]. split; [reflexivity|].
  change (Some (mkPosition 0 0) <> Some (mkPosition 7 9)).
  intros E.
  apply (f_equal (fun o => match o with Some p => pos_x p | None => 0%float end)) in E.
  simpl in E. revert E. apply float_neq; reflexivity.
Qed.

(** Helpers for idempotence. *)

Lemma reconcile_player_id latest pl :
  player_id (reconcile_player latest pl) = player_id pl.
Proof.
  unfold reconcile_player. destruct (own_lastInputSeq _); [|done].
  by destruct (_ && _).
Qed.

Lemma reconcile_player_position_twice latest pl :
  player_position (reconcile_player latest (reconcile_player latest pl))
  = player_position (reconcile_player latest pl).
Proof.
  unfold reconcile_player.
  destruct (own_lastInputSeq (snap_ownPlayer latest)) as [seq|]; [|done].
  destruct (negb (seq =? 0)); simpl; [|done].
  destruct (negb (scan_inputs (player_inputs pl) seq 0 =? -1)) eqn:Hscan;
    simpl; [|by rewrite Hscan].
  by destruct (negb (scan_inputs (drop _ _) seq 0 =? -1)).
Qed.

(** With distinct sequence numbers nothing after the match carries the
    acknowledged number. *)
Lemma scan_inputs_after_match (l : list InputFrame) seq :
  NoDup (frame_seq <$> l) ->
  scan_inputs l seq 0 <> -1 ->
  scan_inputs (drop (Z.to_nat (Z.abs (scan_inputs l seq 0 - -1))) l) seq 0 = -1.
Proof.
  intros Hnd Hne.
  destruct (scan_inputs_hit l seq 0 Hne ltac:(lia)) as (f & Hf & Hseq).
  destruct (scan_inputs_range l seq 0) as [?|Hrange]; [done|].
  rewrite Z.sub_0_r in Hf.
  apply scan_inputs_absent, Forall_forall. intros f' Hin Heq.
  apply list_elem_of_lookup in Hin as [j Hj]. rewrite lookup_drop in Hj.
  assert (Z.to_nat (scan_inputs l seq 0)
          = (Z.to_nat (Z.abs (scan_inputs l seq 0 - -1)) + j)%nat); [|lia].
  apply (NoDup_lookup (frame_seq <$> l) _ _ seq Hnd).
  - by rewrite list_lookup_fmap, Hf; simpl; rewrite Hseq.
  - by rewrite list_lookup_fmap, Hj; simpl; rewrite Heq.
Qed.

Lemma clientPrediction_empty_buffer s :
  last (serverUpdates s) = None -> clientPrediction s = TypeError s.
Proof. intros H. unfold clientPrediction. js_unfold. by rewrite H. Qed.

(** When [clientPrediction] returns. *)
Lemma clientPrediction_returns s latest :
  last (serverUpdates s) = Some latest ->
  returned (clientPrediction s) = true <->
  (truthy (own_lastInputSeq (snap_ownPlayer latest)) = false \/
   exists pl g, local_player s = Some pl /\
                serverGhosts s !! player_id pl = Some g).
Proof.
  unfold local_player. clientPrediction_cases s; intros [= <-];
    rewrite ?Hseq'; simpl; rewrite ?Hnz'; simpl; split; try done; auto.
  all: try (intros _; right; by eexists _, _).
  all: intros [|(pl & g & Hpl & Hg)]; try done; congruence.
Qed.

(** A ghost that exists before reconciliation exists after it. *)
Lemma clientPrediction_ghost_stays s id :
  is_Some (serverGhosts s !! id) ->
  is_Some (serverGhosts (final (clientPrediction s)) !! id).
Proof.
  intros H. clientPrediction_cases s; try done.
  all: destruct (decide (player_id pl' = id)) as [<-|Hne];
    [by rewrite lookup_insert_eq | by rewrite lookup_insert_ne].
Qed.

(** C7.  Reconciling twice against the same newest snapshot leaves the
    local player where one reconciliation left it, whatever the state; if
    the first reconciliation returned, so does the second; and when the
    pending sequence numbers are distinct and the first reconciliation
    found its match, the second finds none. *)
Theorem C7_reconciliation_idempotent (s : ClientGame) :
  let once := final (clientPrediction s) in
  let twice := final (clientPrediction once) in
  (player_position <$> local_player twice
   = player_position <$> local_player once) /\
  (returned (clientPrediction s) = true ->
   returned (clientPrediction once) = true) /\
  (forall latest seq pl,
      last (serverUpdates s) = Some latest ->
      own_lastInputSeq (snap_ownPlayer latest) = Some seq ->
      seq <> 0 ->
      local_player s = Some pl ->
      NoDup (frame_seq <$> player_inputs pl) ->
      scan_inputs (player_inputs pl) seq 0 <> -1 ->
      exists pl1,
        local_player once = Some pl1 /\
        scan_inputs (player_inputs pl1) seq 0 = -1).
Proof.
  intros once twice.
  destruct (clientPrediction_frame s) as (Hbuf & Hlp & _). fold once in Hbuf, Hlp.
  destruct (last (serverUpdates s)) as [latest|] eqn:Hlast.
  - assert (Hlast1 : last (serverUpdates once) = Some latest) by by rewrite Hbuf.
    pose proof (clientPrediction_local_player s latest Hlast) as H1.
    pose proof (clientPrediction_local_player once latest Hlast1) as H2.
    fold once in H1. fold twice in H2.
    split; [|split].
    + rewrite H2, H1. destruct (local_player s) as [pl|]; [|done]. simpl.
      by rewrite reconcile_player_position_twice.
    + rewrite (clientPrediction_returns s latest Hlast),
        (clientPrediction_returns once latest Hlast1).
      intros [?|(pl & g & Hpl & Hg)]; [by left|right].
      destruct (clientPrediction_ghost_stays s (player_id pl)) as [g1 Hg1]; [done|].
      fold once in Hg1. exists (reconcile_player latest pl), g1.
      rewrite H1, Hpl, reconcile_player_id. done.
    + intros latest0 seq pl [= <-] Hseq Hnz Hpl Hnd Hscan.
      exists (reconcile_player latest pl). rewrite H1, Hpl. split; [done|].
      unfold reconcile_player. rewrite Hseq.
      apply Z.eqb_neq in Hnz. rewrite Hnz. simpl.
      pose proof Hscan as Hscan'. apply Z.eqb_neq in Hscan'. rewrite Hscan'. simpl.
      by apply scan_inputs_after_match.
  - unfold twice, once. rewrite !(clientPrediction_empty_buffer s Hlast). simpl.
    rewrite !(clientPrediction_empty_buffer s Hlast). simpl.
    split; [done|]. split; [done|]. intros; discriminate.
Qed.

(** ** The timeline search and the blend factor *)

(** The search returns an adjacent pair that brackets the render time. *)
Lemma timeline_search_sound clientTime (updates : list Snapshot) target previous :
  timeline_search clientTime updates = Some (target, previous) ->
  exists i : nat,
    updates !! i = Some previous /\ updates !! S i = Some target /\
    brackets clientTime previous target.
Proof.
  induction updates as [|point rest IH]; [done|]. simpl.
  destruct rest as [|nextPoint rest']; [done|].
  destruct (_ && _)%bool eqn:Hb.
  - intros [= <- <-]. exists 0%nat. apply andb_true_iff in Hb. by split; [|split].
  - intros H. destruct (IH H) as (i & ? & ? & ?). by exists (S i).
Qed.

(** It finds a pair whenever there is one. *)
Lemma timeline_search_none clientTime (updates : list Snapshot) :
  (forall (i : nat) point nextPoint,
      updates !! i = Some point -> updates !! S i = Some nextPoint ->
      ~ brackets clientTime point nextPoint) ->
  timeline_search clientTime updates = None.
Proof.
  induction updates as [|point rest IH]; [done|]. intros Hno. simpl.
  destruct rest as [|nextPoint rest']; [done|].
  destruct (_ && _)%bool eqn:Hb.
  - exfalso. apply (Hno 0%nat point nextPoint); [done|done|].
    apply andb_true_iff in Hb. exact Hb.
  - apply IH. intros i p n Hp Hn. by apply (Hno (S i)).
Qed.

Lemma timePoint_zero_width clientTime (first : Snapshot) :
  timePoint clientTime first first = 0%float.
Proof. unfold timePoint. cbv zeta. by rewrite zero_width_quotient. Qed.

(** C6.  When the buffer is not empty and no adjacent pair of snapshots
    brackets the render time, the interpolation step takes the oldest
    snapshot as both target and previous, and the blend factor is exactly
    0, hence neither NaN nor infinite, whatever the division by the
    zero-width bracket gave. *)
Theorem C6_fallback_blend_is_zero
    (renderTime : float) (updates : list Snapshot) (oldest : Snapshot)
    (rest : list Snapshot) :
  updates = oldest :: rest ->
  (forall (i : nat) point nextPoint,
      updates !! i = Some point -> updates !! S i = Some nextPoint ->
      ~ brackets renderTime point nextPoint) ->
  bracket renderTime updates = Some (oldest, oldest) /\
  timePoint renderTime oldest oldest = 0%float /\
  nan_or_infinite (timePoint renderTime oldest oldest) = false /\
  (forall options interpolation s,
      serverUpdates s = updates ->
      clientTime s = renderTime ->
      exists latest,
        last updates = Some latest /\
        processNetworkUpdates options interpolation s
        = render_pass options oldest oldest latest 0 interpolation s).
Proof.
  intros -> Hno.
  assert (Hb : bracket renderTime (oldest :: rest) = Some (oldest, oldest)).
  { unfold bracket. by rewrite (timeline_search_none _ _ Hno). }
  rewrite timePoint_zero_width. repeat split; try done.
  intros options interpolation s Hbuf Htime.
  destruct (last (oldest :: rest)) as [latest|] eqn:Hlast.
  - exists latest. split; [done|].
    unfold processNetworkUpdates. js_unfold.
    by rewrite Hbuf, Htime, Hb, Hlast, timePoint_zero_width.
  - by apply last_None in Hlast.
Qed.

(** A single snapshot at time 10, render time 9.5 (before the oldest). *)
Lemma C6_witness :
  bracket 9.5%float lone = Some (ack None, ack None) /\
  timePoint 9.5%float (ack None) (ack None) = 0%float /\
  nan_or_infinite (timePoint 9.5%float (ack None) (ack None)) = false.
Proof.
  refine (let H := C6_fallback_blend_is_zero 9.5%float lone (ack None) []
                     eq_refl _ in
          conj (proj1 H) (conj (proj1 (proj2 H)) (proj1 (proj2 (proj2 H))))).
  intros [|i] point nextPoint Hp Hn; discriminate Hn.
Defined.

(** The single-element buffer never has a bracketing pair, at any render
    time, NaN included. *)
Lemma single_snapshot_fallback clientTime (only : Snapshot) :
  bracket clientTime [only] = Some (only, only) /\
  timePoint clientTime only only = 0%float.
Proof. by rewrite timePoint_zero_width. Qed.

(** The blend factor is a finite number in every case, and the factor that
    [interpolate] applies lies in [0, 1]. *)
Lemma timePoint_finite clientTime (target previous : Snapshot) :
  nan_or_infinite (timePoint clientTime target previous) = false.
Proof.
  unfold timePoint. cbv zeta.
  by destruct (nan_or_infinite (_ / _)%float) eqn:H.
Qed.

Lemma blend_within_unit_interval clientTime (target previous : Snapshot) :
  let blend := Math_max 0 (Math_min 1 (timePoint clientTime target previous)) in
  (0 <=? blend)%float = true /\ (blend <=? 1)%float = true.
Proof.
  apply clamp_within_unit_interval.
  pose proof (timePoint_finite clientTime target previous) as H.
  unfold nan_or_infinite in H. by apply orb_false_iff in H as [H _].
Qed.

Lemma time_ordered_chain (updates : list Snapshot) (i j : nat) a b :
  time_ordered updates -> (i < j)%nat ->
  updates !! i = Some a -> updates !! j = Some b ->
  (snap_serverTime a <=? snap_serverTime b)%float = true.
Proof.
  intros Hord Hij Ha. revert b. induction j as [|j IH]; intros b Hb; [lia|].
  destruct (lookup_lt_is_Some_2 updates j) as [c Hc].
  { apply lookup_lt_Some in Hb. lia. }
  destruct (decide (i = j)) as [->|Hne].
  - rewrite Ha in Hc. injection Hc as <-. by apply (Hord j).
  - apply (leb_trans _ (snap_serverTime c)); [apply IH; [lia|done]|].
    by apply (Hord j).
Qed.

(** The situations in which no adjacent pair brackets the render time: a
    single snapshot; a render time not after the oldest snapshot; a render
    time not before the newest one. *)
Lemma single_snapshot_no_bracket renderTime (only : Snapshot) :
  forall (i : nat) point nextPoint,
    [only] !! i = Some point -> [only] !! S i = Some nextPoint ->
    ~ brackets renderTime point nextPoint.
Proof. intros i point nextPoint _ Hn. done. Qed.

Lemma before_oldest_no_bracket renderTime (oldest : Snapshot) rest :
  time_ordered (oldest :: rest) ->
  (renderTime <=? snap_serverTime oldest)%float = true ->
  forall (i : nat) point nextPoint,
    (oldest :: rest) !! i = Some point ->
    (oldest :: rest) !! S i = Some nextPoint ->
    ~ brackets renderTime point nextPoint.
Proof.
  intros Hord Hbefore i point nextPoint Hp Hn [Hlt _].
  apply (leb_ltb_false renderTime (snap_serverTime point)); [|done].
  destruct i as [|i].
  - by injection Hp as <-.
  - apply (leb_trans _ (snap_serverTime oldest)); [done|].
    apply (time_ordered_chain (oldest :: rest) 0 (S i)); try done. lia.
Qed.

Lemma after_newest_no_bracket renderTime (updates : list Snapshot) newest :
  time_ordered updates ->
  last updates = Some newest ->
  (snap_serverTime newest <=? renderTime)%float = true ->
  forall (i : nat) point nextPoint,
    updates !! i = Some point -> updates !! S i = Some nextPoint ->
    ~ brackets renderTime point nextPoint.
Proof.
  intros Hord Hlast Hafter i point nextPoint Hp Hn [_ Hlt].
  apply (leb_ltb_false (snap_serverTime nextPoint) renderTime); [|done].
  rewrite last_lookup in Hlast.
  destruct (decide (S i = pred (length updates))) as [E|Hne].
  - rewrite E, Hlast in Hn. by injection Hn as <-.
  - apply (leb_trans _ (snap_serverTime newest)); [|done].
    apply (time_ordered_chain updates (S i) (pred (length updates))); try done.
    apply lookup_lt_Some in Hn. lia.
Qed.

(** ** Input capture *)

Lemma append_assoc (a b c : string) : (a +:+ b) +:+ c = a +:+ (b +:+ c).
Proof.
  induction a as [|ch a IH]; [done|].
  change (String ch ((a +:+ b) +:+ c) = String ch (a +:+ (b +:+ c))).
  by rewrite IH.
Qed.

(** [replace('.', '-')] turns the first period into a dash and keeps the
    rest; a string without a period is unchanged. *)
Lemma replace_dot_first (a b : string) :
  has_dot a = false -> replace_dot (a +:+ "." +:+ b) = a +:+ "-" +:+ b.
Proof.
  induction a as [|ch a IH]; [done|].
  change (String ch a +:+ "." +:+ b) with (String ch (a +:+ "." +:+ b)).
  change (String ch a +:+ "-" +:+ b) with (String ch (a +:+ "-" +:+ b)).
  simpl. destruct (Ascii.eqb ch "."); simpl; [done|]. intros H. by rewrite IH.
Qed.

Lemma replace_dot_none (a : string) : has_dot a = false -> replace_dot a = a.
Proof.
  induction a as [|ch a IH]; simpl; [done|].
  destruct (Ascii.eqb ch "."); simpl; [done|]. intros H. by rewrite IH.
Qed.

Lemma updateInput_capture Number_toString input s r pl :
  input <> [] ->
  localPlayer s = Some r ->
  heap s !! r = Some pl ->
  updateInput Number_toString input s
  = Returned tt
      (captured Number_toString r pl
         (mkInputFrame input (game_time s) (inputSeq s + 1)) s).
Proof.
  intros Hin Hlp Hpl. unfold updateInput, captured. js_unfold. rewrite Hlp.
  destruct input as [|code input]; [done|]. js_unfold. rewrite Hpl. js_unfold.
  destruct (network s) as [sent|]; [|done]. simpl.
  unfold wire_message. simpl frame_inputs. simpl frame_time. simpl frame_seq.
  by rewrite !append_assoc.
Qed.

(** Nothing polled, or no local player: the call is a no-op. *)
Lemma updateInput_idle Number_toString input s :
  input = [] \/ localPlayer s = None ->
  updateInput Number_toString input s = Returned tt s.
Proof.
  intros [-> | Hlp]; unfold updateInput; js_unfold.
  - by destruct (localPlayer s).
  - rewrite Hlp. by destruct input.
Qed.

(** C8.  A capture of a non-empty code list, with a local player and a
    network, returns; the string sent is ['i.'], the codes joined by ['-'],
    ['.'], the local time as printed with its period replaced by ['-'],
    ['.'], and the sequence number just assigned; and the frame with these
    inputs, time and sequence number is appended to the local player's
    pending list. *)
Theorem C8_wire_message_and_pending_frame
    (Number_toString : float -> string) (input : list string) (s : ClientGame)
    (r : nat) (pl : Player) (sent : list string) :
  input <> [] ->
  localPlayer s = Some r ->
  heap s !! r = Some pl ->
  network s = Some sent ->
  let seq := inputSeq s + 1 in
  let frame := mkInputFrame input (game_time s) seq in
  exists s' pl',
    updateInput Number_toString input s = Returned tt s' /\
    inputSeq s' = seq /\
    network s' =
      Some (sent ++ ["i." +:+ Array_join "-" input +:+ "." +:+
                     replace_dot (Number_toString (game_time s)) +:+ "." +:+
                     pretty seq]) /\
    heap s' !! r = Some pl' /\
    player_inputs pl' = player_inputs pl ++ [frame] /\
    player_position pl' = player_position pl.
Proof.
  intros Hin Hlp Hpl Hnet seq frame.
  eexists _, _. split; [by apply updateInput_capture|].
  unfold captured. rewrite Hnet. simpl. split; [done|]. split; [done|].
  split; [apply lookup_insert_eq|]. done.
Qed.

(** The example of the specification: codes [up] and [left], time printed
    as 12.345, seventh frame. *)
Lemma C8_witness :
  exists s' pl',
    updateInput prints_12_345 ["up"; "left"] online = Returned tt s' /\
    inputSeq s' = 7 /\
    network s' = Some ["i.up-left.12-345.7"] /\
    heap s' !! 0%nat = Some pl' /\
    player_inputs pl' =
      player_inputs me ++ [mkInputFrame ["up"; "left"] 1.5%float 7] /\
    player_position pl' = player_position me.
Proof.
  apply (C8_wire_message_and_pending_frame prints_12_345 ["up"; "left"] online
           0%nat me []); done.
Defined.

(** ** Frames: what a method leaves alone *)

Section Frames.
Context {X : Type} (proj : ClientGame -> X).

Lemma preserves_ret {A} (a : A) : preserves proj (ret a).
Proof. done. Qed.

Lemma preserves_throw {A} : preserves proj (@throw A).
Proof. done. Qed.

Lemma preserves_gets {A} (f : ClientGame -> A) : preserves proj (gets f).
Proof. done. Qed.

Lemma preserves_modify (f : ClientGame -> ClientGame) :
  (forall s, proj (f s) = proj s) -> preserves proj (modify f).
Proof. intros H s. apply H. Qed.

Lemma preserves_bind {A B} (m : M A) (k : A -> M B) :
  preserves proj m -> (forall a, preserves proj (k a)) ->
  preserves proj (bind m k).
Proof.
  intros Hm Hk s. unfold bind. specialize (Hm s).
  destruct (m s) as [a s'|s']; simpl in *; [|done].
  by rewrite Hk.
Qed.

Lemma preserves_for_of {A} (l : list A) (body : A -> M unit) :
  (forall a, preserves proj (body a)) -> preserves proj (for_of l body).
Proof.
  intros Hb. induction l as [|a l IH]; simpl; [apply preserves_ret|].
  apply preserves_bind; [apply Hb|intros _; apply IH].
Qed.

Lemma preserves_deref r :
  preserves proj (deref r).
Proof. intros s. unfold deref. by destruct (heap s !! r). Qed.

End Frames.

Ltac frame_step :=
  first
    [ apply preserves_ret | apply preserves_throw | apply preserves_gets
    | apply preserves_deref
    | apply preserves_for_of; intros ?
    | apply preserves_bind; [|intros ?]
    | apply preserves_modify; intros ?; reflexivity
    | match goal with
      | |- preserves _ (match ?x with _ => _ end) => destruct x
      | |- preserves _ (if ?b then _ else _) => destruct b
      end ].

(** Moving players and ghosts, spawning bullets and replaying events: any
    view of the state that these do not show is kept by the naive update
    and by the interpolation pass. *)
Section Views.
Context {X : Type} (proj : ClientGame -> X).
Hypothesis proj_bullets : forall f s, proj (set_game_bullets f s) = proj s.
Hypothesis proj_events : forall f s, proj (set_game_events f s) = proj s.
Hypothesis proj_serverGhosts : forall f s, proj (set_serverGhosts f s) = proj s.
Hypothesis proj_localGhosts : forall f s, proj (set_localGhosts f s) = proj s.
Hypothesis proj_setPosition : forall r p pl s,
  heap s !! r = Some pl ->
  proj (set_heap (fun h => <[r := Player_setPosition p pl]> h) s) = proj s.

Lemma setPosition_view r p : preserves proj (update r (Player_setPosition p)).
Proof.
  intros s. unfold update, bind, deref.
  destruct (heap s !! r) as [pl|] eqn:Hpl; [|done]. by apply proj_setPosition.
Qed.

Lemma serverGhost_setPosition_view id p :
  preserves proj (serverGhost_setPosition id p).
Proof.
  intros s. unfold serverGhost_setPosition.
  destruct (_ !! _); [apply proj_serverGhosts|done].
Qed.

Lemma localGhost_setPosition_view id p :
  preserves proj (localGhost_setPosition id p).
Proof.
  intros s. unfold localGhost_setPosition.
  destruct (_ !! _); [apply proj_localGhosts|done].
Qed.

Lemma localGhost_getPosition_view id :
  preserves proj (localGhost_getPosition id).
Proof. intros s. unfold localGhost_getPosition. by destruct (_ !! _). Qed.

Lemma addBullet_view r b : preserves proj (addBullet r b).
Proof. intros s. apply proj_bullets. Qed.

Lemma onEvent_view id name player : preserves proj (onEvent id name player).
Proof. intros s. apply proj_events. Qed.

Ltac view_frame :=
  repeat first
    [ apply setPosition_view | apply serverGhost_setPosition_view
    | apply localGhost_setPosition_view | apply localGhost_getPosition_view
    | apply addBullet_view | apply onEvent_view | frame_step ].

Lemma replay_bullets_view bullets : preserves proj (replay_bullets bullets).
Proof. unfold replay_bullets, getPlayerById. view_frame. Qed.

Lemma replay_events_view events : preserves proj (replay_events events).
Proof. unfold replay_events, getPlayerById. view_frame. Qed.

Lemma naive_update_view data : preserves proj (naive_update data).
Proof.
  unfold naive_update, getPlayerById.
  repeat first [ apply replay_bullets_view | apply replay_events_view
               | view_frame ].
Qed.

Lemma interpolate_players_view options target previous t x i players :
  preserves proj (interpolate_players options target previous t x i players).
Proof.
  revert i. induction players as [|playerData players IH]; intros i; simpl.
  - apply preserves_ret.
  - apply preserves_bind; [|intros _; apply IH].
    unfold interpolate_player, getPlayerById.
    repeat first [ apply replay_bullets_view | apply replay_events_view
                 | view_frame ].
Qed.

Lemma processNetworkUpdates_view options interpolation :
  preserves proj (processNetworkUpdates options interpolation).
Proof.
  unfold processNetworkUpdates, render_pass, interpolate_local.
  repeat first [ apply interpolate_players_view | apply replay_bullets_view
               | apply replay_events_view | view_frame ].
Qed.

End Views.

Lemma capture_view_setPosition r p pl s :
  heap s !! r = Some pl ->
  capture_view (set_heap (fun h => <[r := Player_setPosition p pl]> h) s)
  = capture_view s.
Proof.
  intros Hpl. unfold capture_view. simpl. f_equal.
  rewrite fmap_insert. simpl. apply insert_id. by rewrite lookup_fmap, Hpl.
Qed.

(** The interpolation pass assigns no closure variable and touches no
    pending list. *)
Lemma processNetworkUpdates_closure_vars options interpolation :
  preserves closure_vars (processNetworkUpdates options interpolation).
Proof. by apply processNetworkUpdates_view. Qed.

Lemma processNetworkUpdates_capture_view options interpolation :
  preserves capture_view (processNetworkUpdates options interpolation).
Proof.
  apply processNetworkUpdates_view; try done. apply capture_view_setPosition.
Qed.

Lemma naive_update_capture_view data : preserves capture_view (naive_update data).
Proof. apply naive_update_view; try done. apply capture_view_setPosition. Qed.

Lemma update_closure_vars r method : preserves closure_vars (update r method).
Proof. unfold update. repeat frame_step. Qed.

(** Reconciliation assigns no closure variable. *)
Lemma clientPrediction_closure_vars : preserves closure_vars clientPrediction.
Proof.
  unfold clientPrediction.
  repeat first [ apply update_closure_vars
               | apply serverGhost_setPosition_view; done | frame_step ].
Qed.

(** ** Sequence numbers *)

Lemma count_from_bounds seq0 n :
  Forall (fun k => seq0 + 1 <= k <= seq0 + Z.of_nat n) (count_from seq0 n).
Proof.
  revert seq0. induction n as [|n IH]; intros seq0; simpl; [constructor|].
  constructor; [lia|]. eapply Forall_impl; [apply IH|]. simpl. intros; lia.
Qed.

(** ** A session: captures interleaved with snapshots and render passes *)

Lemma relates_bind {A B} (R : relation ClientGame) `{!PreOrder R}
    (m : M A) (k : A -> M B) :
  relates R m -> (forall a, relates R (k a)) -> relates R (bind m k).
Proof.
  intros Hm Hk s. unfold bind. specialize (Hm s).
  destruct (m s) as [a s'|s']; simpl in *; [|done].
  by etrans; [|apply Hk].
Qed.

#[local] Instance pending_shrinks_preorder : PreOrder pending_shrinks.
Proof.
  split.
  - intros s. repeat split; try done. intros pl Hpl. by exists pl.
  - intros s1 s2 s3 (Hq1 & Hn1 & Hl1 & Hp1) (Hq2 & Hn2 & Hl2 & Hp2).
    repeat split; try congruence.
    intros pl Hpl. destruct (Hp1 pl Hpl) as (pl2 & Hpl2 & Hsuf2).
    destruct (Hp2 pl2 Hpl2) as (pl3 & Hpl3 & Hsuf3).
    exists pl3. split; [done|]. by etrans.
Qed.

Lemma capture_view_shrinks s s' :
  capture_view s' = capture_view s -> pending_shrinks s s'.
Proof.
  unfold capture_view. intros [= Hq Hn Hl Hp]. repeat split; try done.
  intros pl Hpl. unfold local_player in *. rewrite Hl.
  destruct (localPlayer s) as [r|]; [|done].
  assert (Hr : (player_inputs <$> heap s') !! r = (player_inputs <$> heap s) !! r)
    by by rewrite Hp.
  rewrite !lookup_fmap, Hpl in Hr. simpl in Hr.
  destruct (heap s' !! r) as [pl'|]; [|done].
  injection Hr as Hr. exists pl'. by rewrite Hr.
Qed.

Lemma preserves_capture_view_relates {A} (m : M A) :
  preserves capture_view m -> relates pending_shrinks m.
Proof. intros H s. apply capture_view_shrinks, H. Qed.

Lemma reconcile_player_inputs latest pl :
  player_inputs (reconcile_player latest pl) `suffix_of` player_inputs pl.
Proof.
  unfold reconcile_player. destruct (own_lastInputSeq _); [|done].
  destruct (_ && _); [|done]. simpl. apply suffix_drop.
Qed.

Lemma clientPrediction_shrinks : relates pending_shrinks clientPrediction.
Proof.
  intros s. pose proof (clientPrediction_closure_vars s) as Hc.
  unfold closure_vars in Hc. injection Hc as Hq Hb Hl Hn _ _.
  repeat split; try done. intros pl Hpl.
  destruct (last (serverUpdates s)) as [latest|] eqn:Hlast.
  - exists (reconcile_player latest pl).
    rewrite (clientPrediction_local_player s latest Hlast), Hpl.
    split; [done|apply reconcile_player_inputs].
  - rewrite (clientPrediction_empty_buffer s Hlast). by exists pl.
Qed.

Lemma onServerUpdate_shrinks options game_update data :
  (forall delta, preserves capture_view (game_update delta)) ->
  relates pending_shrinks (onServerUpdate options game_update data).
Proof.
  intros Hgame. unfold onServerUpdate.
  apply relates_bind; [apply _| |intros _].
  { apply preserves_capture_view_relates. by apply preserves_modify. }
  destruct (naiveApproach options).
  { apply preserves_capture_view_relates, naive_update_capture_view. }
  apply relates_bind; [apply _| |intros _].
  { apply preserves_capture_view_relates. by apply preserves_modify. }
  apply relates_bind; [apply _| |intros updates].
  { apply preserves_capture_view_relates, preserves_gets. }
  apply relates_bind; [apply _| |intros _].
  { apply preserves_capture_view_relates.
    destruct (buffer_full _ _); [by apply preserves_modify|apply preserves_ret]. }
  apply relates_bind; [apply _| |intros updates'].
  { apply preserves_capture_view_relates, preserves_gets. }
  apply relates_bind; [apply _| |intros lp].
  { apply preserves_capture_view_relates, preserves_gets. }
  destruct updates' as [|first rest], lp as [r|];
    try (apply preserves_capture_view_relates, preserves_ret).
  apply relates_bind; [apply _|apply clientPrediction_shrinks|intros _].
  apply preserves_capture_view_relates, Hgame.
Qed.

Lemma count_from_snoc seq0 n :
  count_from seq0 (S n) = count_from seq0 n ++ [seq0 + Z.of_nat (S n)].
Proof.
  revert seq0. induction n as [|n IH]; intros seq0.
  - simpl. f_equal.
  - change (count_from seq0 (S (S n)))
      with ((seq0 + 1) :: count_from (seq0 + 1) (S n)).
    rewrite IH. simpl. do 3 f_equal. lia.
Qed.

Lemma capturing_shrinks Number_toString r net frames s s' :
  capturing Number_toString r net frames s ->
  pending_shrinks s s' ->
  capturing Number_toString r net frames s'.
Proof.
  intros (Hlp & Hq & Hseqs & Hnet & pl & Hpl & Hsuf) (Hq' & Hn' & Hl' & Hp').
  destruct (Hp' pl) as (pl' & Hpl' & Hsuf').
  { unfold local_player. by rewrite Hlp. }
  unfold local_player in Hpl'. rewrite Hl', Hlp in Hpl'.
  repeat split; try congruence. exists pl'. split; [done|]. by etrans.
Qed.

Lemma capturing_capture Number_toString r net frames s input :
  capturing Number_toString r net frames s ->
  input <> [] ->
  exists f,
    frame_inputs f = input /\
    capturing Number_toString r net (frames ++ [f])
      (final (updateInput Number_toString input s)).
Proof.
  intros (Hlp & Hq & Hseqs & Hnet & pl & Hpl & Hsuf) Hin.
  exists (mkInputFrame input (game_time s) (inputSeq s + 1)). split; [done|].
  rewrite (updateInput_capture _ _ s r pl Hin Hlp Hpl). simpl.
  unfold capturing, captured. rewrite length_app, Nat.add_1_r, fmap_app.
  rewrite count_from_snoc, <- Hseqs, fmap_app. simpl.
  destruct net as [sent0|]; simpl in Hnet; rewrite Hnet; simpl.
  - repeat split; try done; try lia.
    + do 2 f_equal. lia.
    + by rewrite app_assoc.
    + eexists. split; [apply lookup_insert_eq|]. simpl. by apply suffix_snoc.
  - repeat split; try done; try lia.
    + do 2 f_equal. lia.
    + eexists. split; [apply lookup_insert_eq|]. simpl. by apply suffix_snoc.
Qed.

Lemma session_run_capturing options Number_toString game_update r net calls :
  (forall delta, preserves capture_view (game_update delta)) ->
  forall frames s,
    capturing Number_toString r net frames s ->
    exists frames',
      capturing Number_toString r net (frames ++ frames')
        (session_run options Number_toString game_update calls s) /\
      frame_inputs <$> frames' = filter (fun input => input <> []) (polls_of calls).
Proof.
  intros Hgame. induction calls as [|c calls IH]; intros frames s Hinv.
  - exists []. by rewrite app_nil_r.
  - destruct c as [input|data|interpolation]; simpl.
    + destruct input as [|code input].
      * rewrite updateInput_idle by by left. apply IH, Hinv.
      * destruct (capturing_capture _ _ _ _ _ (code :: input) Hinv)
          as (f & Hf & Hinv'); [done|].
        destruct (IH _ _ Hinv') as (frames' & Hrun & Hpolls).
        exists (f :: frames'). rewrite <- app_assoc in Hrun. split; [done|].
        rewrite filter_cons_True by done. rewrite fmap_cons. by rewrite Hf, Hpolls.
    + apply IH. eapply capturing_shrinks; [done|].
      by apply onServerUpdate_shrinks.
    + apply IH. eapply capturing_shrinks; [done|].
      apply capture_view_shrinks, processNetworkUpdates_capture_view.
Qed.

(** C10.  The counter of a new client is 0, and [updateInput] with nothing
    polled or without a local player changes nothing.  In a session that
    starts with the counter at 0 and nothing pending, whatever snapshots
    and render passes come in between, the frames captured are those of
    the non-empty polls, in order, and they carry 1, 2, ..., k; the counter
    ends at k; the messages sent are those of these frames; what is still
    pending is a tail of them, so every pending frame has a sequence number
    of at least 1 and a scan for 0 finds nothing.  The simulation step is
    assumed not to touch the counter, the sender, the local player or the
    pending lists. *)
Theorem C10_sequence_numbers_count_from_one
    (options : Options) (Number_toString : float -> string)
    (game_update : float -> M unit) (r : nat) (pl : Player)
    (calls : list Call) (s0 : ClientGame) :
  inputSeq s0 = 0 ->
  localPlayer s0 = Some r ->
  heap s0 !! r = Some pl ->
  player_inputs pl = [] ->
  (forall delta, preserves capture_view (game_update delta)) ->
  let s := session_run options Number_toString game_update calls s0 in
  let k := captures (polls_of calls) in
  (forall store time, inputSeq (create store time) = 0) /\
  (forall input s1,
      input = [] \/ localPlayer s1 = None ->
      updateInput Number_toString input s1 = Returned tt s1) /\
  exists frames pl',
    inputSeq s = Z.of_nat k /\
    frame_inputs <$> frames = filter (fun input => input <> []) (polls_of calls) /\
    frame_seq <$> frames = count_from 0 k /\
    Forall (fun f => 1 <= frame_seq f <= Z.of_nat k) frames /\
    network s
      = (fun sent => sent ++ (wire_message Number_toString <$> frames))
          <$> network s0 /\
    heap s !! r = Some pl' /\
    player_inputs pl' `suffix_of` frames /\
    Forall (fun f => frame_seq f <> 0) (player_inputs pl') /\
    scan_inputs (player_inputs pl') 0 0 = -1.
Proof.
  intros Hq Hlp Hpl Hnone Hgame s k.
  split; [done|]. split; [intros input s1; apply updateInput_idle|].
  assert (Hinv : capturing Number_toString r (network s0) [] s0).
  { repeat split; try done.
    - destruct (network s0); simpl; [|done]. by rewrite app_nil_r.
    - exists pl. by rewrite Hnone. }
  destruct (session_run_capturing options Number_toString game_update r
              (network s0) calls Hgame [] s0 Hinv)
    as (frames & (Hlp' & Hq' & Hseqs & Hnet & pl' & Hpl' & Hsuf) & Hpolls).
  fold s in Hlp', Hq', Hnet, Hpl'. simpl in *.
  assert (Hlen : length frames = k).
  { unfold k, captures. by rewrite <- Hpolls, length_fmap. }
  rewrite Hlen in *.
  assert (Hall : Forall (fun f => 1 <= frame_seq f <= Z.of_nat k) frames).
  { apply (proj1 (Forall_fmap frame_seq (fun n => 1 <= n <= Z.of_nat k) frames)).
    rewrite Hseqs.
    eapply Forall_impl; [apply count_from_bounds|]. simpl. intros; lia. }
  assert (Hpending : Forall (fun f => frame_seq f <> 0) (player_inputs pl')).
  { destruct Hsuf as [older ->]. apply Forall_app in Hall as [_ Hall].
    eapply Forall_impl; [exact Hall|]. simpl. intros; lia. }
  exists frames, pl'. repeat split; try done.
  by apply scan_inputs_absent.
Qed.

Lemma C10_witness :
  exists frames pl',
    inputSeq (session_run plain_options prints_12_345 no_simulation morning newcomer)
      = 2 /\
    frame_inputs <$> frames = [["up"]; ["left"]] /\
    frame_seq <$> frames = [1; 2] /\
    heap (session_run plain_options prints_12_345 no_simulation morning newcomer)
      !! 1%nat = Some pl' /\
    scan_inputs (player_inputs pl') 0 0 = -1.
Proof.
  destruct (C10_sequence_numbers_count_from_one plain_options prints_12_345
              no_simulation 1%nat p2 morning newcomer eq_refl eq_refl eq_refl
              eq_refl (fun delta s => eq_refl))
    as (_ & _ & frames & pl' & Hq & Hin & Hseq & _ & _ & Hpl & _ & _ & Hscan).
  exists frames, pl'. repeat split; assumption.
Defined.

(** ** The snapshot buffer *)

Lemma not_full_not_exceeding options size :
  buffer_full options size = false -> exceeds_capacity options size = false.
Proof.
  unfold buffer_full, exceeds_capacity. intros Hfull.
  destruct (_ <? _)%float eqn:Hlt; [|done].
  apply ltb_leb in Hlt. congruence.
Qed.

Lemma clientPrediction_serverUpdates : preserves serverUpdates clientPrediction.
Proof. intros s. by destruct (clientPrediction_frame s) as (-> & _). Qed.

Lemma updateInput_serverUpdates Number_toString input :
  preserves serverUpdates (updateInput Number_toString input).
Proof. unfold updateInput, update. repeat frame_step. Qed.

Lemma processNetworkUpdates_serverUpdates options interpolation :
  preserves serverUpdates (processNetworkUpdates options interpolation).
Proof.
  intros s. pose proof (processNetworkUpdates_closure_vars options interpolation s) as H.
  unfold closure_vars in H. by injection H.
Qed.

(** The buffer after [onServerUpdate] in the buffered modes: the snapshot
    is appended, then one [splice(0, 1)] if the length reached the
    capacity. *)
Lemma onServerUpdate_buffer options game_update data s :
  naiveApproach options = false ->
  (forall delta, preserves serverUpdates (game_update delta)) ->
  serverUpdates (final (onServerUpdate options game_update data s))
  = let pushed := serverUpdates s ++ [data] in
    if buffer_full options (length pushed) then drop 1 pushed else pushed.
Proof.
  intros Hnaive Hgame. unfold onServerUpdate. rewrite Hnaive. cbv zeta.
  unfold bind at 1. simpl. unfold bind at 1. simpl. unfold bind at 1. simpl.
  assert (Hrest : forall s1,
    serverUpdates
      (final ((clientPrediction ;; game_update (simulationTimestep options)) s1))
    = serverUpdates s1).
  { apply preserves_bind; [apply clientPrediction_serverUpdates|].
    intros _. apply Hgame. }
  unfold bind at 1.
  destruct (buffer_full options (length (serverUpdates s ++ [data]))); simpl.
  - unfold bind at 1. simpl. unfold bind at 1. simpl.
    destruct (drop 1 (serverUpdates s ++ [data])) as [|first rest] eqn:Hd;
      [done|].
    destruct (localPlayer s); [|by simpl].
    rewrite Hrest. by simpl.
  - unfold bind at 1. simpl. unfold bind at 1. simpl.
    destruct (serverUpdates s ++ [data]) as [|first rest] eqn:Hd; [done|].
    destruct (localPlayer s); [|by simpl].
    rewrite Hrest. by simpl.
Qed.

(** C5.  In the buffered modes, if the buffer did not exceed
    [60 * networkBufferSize] before [onServerUpdate], it does not exceed it
    after; when the capacity test fires, the buffer loses exactly one
    element, the oldest; otherwise the snapshot is simply appended.  So a
    buffer that starts empty, under a capacity that is not negative, never
    exceeds the capacity during a session.  The simulation step is assumed
    not to touch the buffer, which is private to the closure. *)
Theorem C5_buffer_never_exceeds_capacity
    (options : Options) (game_update : float -> M unit)
    (data : Snapshot) (s : ClientGame) :
  naiveApproach options = false ->
  (forall delta, preserves serverUpdates (game_update delta)) ->
  exceeds_capacity options (length (serverUpdates s)) = false ->
  let pushed := serverUpdates s ++ [data] in
  let after := serverUpdates (final (onServerUpdate options game_update data s)) in
  exceeds_capacity options (length after) = false /\
  (buffer_full options (length pushed) = true ->
   exists oldest, head pushed = Some oldest /\ pushed = oldest :: after) /\
  (buffer_full options (length pushed) = false -> after = pushed) /\
  (forall Number_toString calls s0,
      serverUpdates s0 = [] ->
      exceeds_capacity options 0 = false ->
      exceeds_capacity options
        (length (serverUpdates
                   (session_run options Number_toString game_update calls s0)))
      = false).
Proof.
  intros Hnaive Hgame Hbefore pushed after.
  assert (Hstep : forall data' s',
    exceeds_capacity options (length (serverUpdates s')) = false ->
    exceeds_capacity options
      (length (serverUpdates (final (onServerUpdate options game_update data' s'))))
    = false).
  { intros data' s' Hb. rewrite (onServerUpdate_buffer _ _ _ _ Hnaive Hgame).
    cbv zeta. destruct (buffer_full _ _) eqn:Hfull.
    - rewrite length_drop, length_app. simpl.
      by replace (length (serverUpdates s') + 1 - 1)%nat
        with (length (serverUpdates s')) by lia.
    - by apply not_full_not_exceeding. }
  split; [by apply Hstep|].
  unfold after. rewrite (onServerUpdate_buffer _ _ _ _ Hnaive Hgame).
  fold pushed. cbv zeta. split; [|split].
  - intros ->. unfold pushed.
    destruct (serverUpdates s) as [|first rest]; simpl; eexists; by rewrite ?drop_0.
  - by intros ->.
  - intros Number_toString calls s0 Hempty H0.
    assert (Hs0 : exceeds_capacity options (length (serverUpdates s0)) = false)
      by by rewrite Hempty.
    clear Hempty. revert s0 Hs0.
    induction calls as [|c calls IH]; intros s0 Hs0; [done|].
    simpl. apply IH.
    destruct c as [input|data'|interpolation]; simpl.
    + by rewrite updateInput_serverUpdates.
    + by apply Hstep.
    + by rewrite processNetworkUpdates_serverUpdates.
Qed.

(** The fourth snapshot reaches the capacity 3.75: the one of time 1 goes. *)
Lemma C5_witness :
  let after :=
    serverUpdates (final (onServerUpdate small_buffer no_simulation (at_time 4)
                            nearly_full)) in
  exceeds_capacity small_buffer (length after) = false /\
  after = [at_time 2; at_time 3; at_time 4].
Proof.
  destruct (C5_buffer_never_exceeds_capacity small_buffer no_simulation
              (at_time 4) nearly_full eq_refl (fun delta s => eq_refl) eq_refl)
    as (Hcap & Hfull & _).
  split; [exact Hcap|].
  destruct (Hfull eq_refl) as (oldest & Hhead & Hpushed).
  simpl in Hhead, Hpushed. by injection Hpushed.
Defined.

(** ** How often one pass replays the target's bullets and events *)

Lemma bind_returned {A B} (m : M A) (k : A -> M B) s b s'' :
  bind m k s = Returned b s'' ->
  exists a s', m s = Returned a s' /\ k a s' = Returned b s''.
Proof. unfold bind. destruct (m s) as [a s'|s']; [by exists a, s'|done]. Qed.

Lemma preserves_returned {X A} (proj : ClientGame -> X) (m : M A) s a s' :
  preserves proj m -> m s = Returned a s' -> proj s' = proj s.
Proof. intros H Hm. specialize (H s). by rewrite Hm in H. Qed.

Lemma replay_bullets_count bullets s s' :
  replay_bullets bullets s = Returned tt s' ->
  replay_view s'
  = (length (game_bullets s) + length bullets, length (game_events s),
     game_players s)%nat.
Proof.
  unfold replay_view. revert s.
  induction bullets as [|bullet bullets IH]; intros s; simpl.
  - intros [= <-]. by rewrite Nat.add_0_r.
  - intros H. apply bind_returned in H as ([] & s1 & Hbody & Hrest).
    apply IH in Hrest. rewrite Hrest. clear Hrest IH.
    unfold getPlayerById in Hbody. js_unfold.
    revert Hbody. js_unfold.
    destruct (game_players s !! bullet_firedBy bullet) as [r|]; [|done].
    js_unfold. destruct (heap s !! r); [|done].
    unfold addBullet. js_unfold. intros [= <-]. simpl.
    rewrite length_app. simpl. f_equal. f_equal. lia.
Qed.

Lemma replay_events_count events s :
  exists s',
    replay_events events s = Returned tt s' /\
    replay_view s'
    = (length (game_bullets s), length (game_events s) + length events,
       game_players s)%nat.
Proof.
  unfold replay_view. revert s.
  induction events as [|eventData events IH]; intros s.
  - exists s. by rewrite Nat.add_0_r.
  - destruct (IH (set_game_events
                    (fun l => l ++ [(event_id eventData, event_name eventData,
                                     game_players s !! event_firedBy eventData)])
                    s))
      as (s' & Hrun & Hview).
    exists s'. split; [exact Hrun|]. rewrite Hview. simpl.
    rewrite length_app. simpl. f_equal. f_equal. lia.
Qed.

Lemma interpolate_player_count options target previous t x i playerData s s' :
  interpolate_player options target previous t x i playerData s = Returned tt s' ->
  replay_view s'
  = if qualifies s target previous i playerData
    then (length (game_bullets s) + length (snap_bullets target),
          length (game_events s) + length (snap_events target),
          game_players s)%nat
    else replay_view s.
Proof.
  unfold interpolate_player, qualifies.
  destruct (snap_players target !! i) as [targetPlayer|]; simpl;
    [|by intros [= <-]].
  destruct (snap_players previous !! i) as [previousPlayer|]; simpl;
    [|by intros [= <-]].
  unfold getPlayerById. unfold bind at 1, gets at 1.
  destruct (game_players s !! pd_id playerData) as [r|] eqn:Hr; simpl;
    [|by intros [= <-]].
  intros H.
  apply bind_returned in H as ([] & s1 & H1 & H).
  apply bind_returned in H as ([] & s2 & H2 & H).
  apply bind_returned in H as ([] & s3 & H3 & H).
  apply bind_returned in H as ([] & s4 & H4 & H).
  destruct (replay_events_count (snap_events target) s4) as (s5 & H5 & Hview5).
  rewrite H5 in H. injection H as <-.
  apply replay_bullets_count in H4. rewrite Hview5.
  unfold replay_view in H4. injection H4 as -> -> ->.
  assert (V1 : replay_view s1 = replay_view s).
  { eapply preserves_returned; [|exact H1].
    apply serverGhost_setPosition_view; done. }
  assert (V2 : replay_view s2 = replay_view s1).
  { eapply preserves_returned; [|exact H2].
    apply localGhost_setPosition_view; done. }
  assert (V3 : replay_view s3 = replay_view s2).
  { eapply preserves_returned; [|exact H3].
    destruct (clientSmoothing options);
      repeat first [ apply setPosition_view; done
                   | apply localGhost_getPosition_view | frame_step ]. }
  rewrite V2, V1 in V3. unfold replay_view in V3. by injection V3 as -> -> ->.
Qed.

Lemma replay_view_eq (a a' b b' : nat) (c : gmap string nat) :
  a = a' -> b = b' -> (a, b, c) = (a', b', c).
Proof. by intros -> ->. Qed.

Lemma qualifying_view s s' target previous i players :
  game_players s' = game_players s ->
  qualifying s' target previous i players = qualifying s target previous i players.
Proof.
  intros H. revert i. induction players as [|playerData rest IH]; intros i; [done|].
  simpl. unfold qualifies. by rewrite H, IH.
Qed.

Lemma interpolate_players_count options target previous t x i players s s' :
  interpolate_players options target previous t x i players s = Returned tt s' ->
  replay_view s'
  = (length (game_bullets s)
     + qualifying s target previous i players * length (snap_bullets target),
     length (game_events s)
     + qualifying s target previous i players * length (snap_events target),
     game_players s)%nat.
Proof.
  revert i s. induction players as [|playerData rest IH]; intros i s; simpl.
  - intros [= <-]. unfold replay_view. apply replay_view_eq; lia.
  - intros H. apply bind_returned in H as ([] & s1 & H1 & H).
    apply interpolate_player_count in H1. apply IH in H. rewrite H. clear H IH.
    assert (Hp : game_players s1 = game_players s).
    { destruct (qualifies s target previous i playerData);
        unfold replay_view in H1; by injection H1. }
    rewrite (qualifying_view s s1) by done.
    destruct (qualifies s target previous i playerData);
      unfold replay_view in H1; injection H1 as -> -> ->;
      apply replay_view_eq; lia.
Qed.

(** In predicted mode, a pass that returns has spawned each bullet of the
    target snapshot, and replayed each of its events, once for every
    remote player that passes the loop's test: as many times as there are
    such players, not once. *)
Lemma processNetworkUpdates_replays options interpolation s s' target previous latest :
  opt_clientPrediction options = true ->
  bracket (clientTime s) (serverUpdates s) = Some (target, previous) ->
  last (serverUpdates s) = Some latest ->
  processNetworkUpdates options interpolation s = Returned tt s' ->
  let times := qualifying s target previous 0 (snap_players latest) in
  length (game_bullets s')
  = (length (game_bullets s) + times * length (snap_bullets target))%nat /\
  length (game_events s')
  = (length (game_events s) + times * length (snap_events target))%nat.
Proof.
  intros Hpred Hb Hlast. unfold processNetworkUpdates. js_unfold.
  rewrite Hb, Hlast. unfold render_pass. rewrite Hpred. simpl.
  intros H. apply bind_returned in H as ([] & s1 & H1 & H).
  injection H as <-. apply interpolate_players_count in H1.
  unfold replay_view in H1. by injection H1 as -> -> _.
Qed.

(** ** The interpolation pass on concrete timelines *)

(** C1, where the code departs from it.  With the two snapshots buffered
    and the render time at 10.25, a quarter of the way from the previous
    snapshot to the target, the blend factor is 0.75 and ["p2"] is drawn at
    (3, 6), three quarters of the way; the lerp from the previous position
    toward the target's is at (1, 2) there.  At 10.5 the two agree on the
    midpoint (2, 4). *)
Theorem C1_blend_measures_distance_to_target :
  let s := buffered 750 at_10 at_11 arena in
  clientTime s = 10.25%float /\
  bracket (clientTime s) (serverUpdates s) = Some (at_11, at_10) /\
  timePoint 10.25 at_11 at_10 = 0.75%float /\
  returned (processNetworkUpdates (delayed 750) 1 s) = true /\
  player_position <$> heap (drawn 750 at_10 at_11 arena) !! 1%nat
    = Some (mkPosition 3 6) /\
  lerp (mkPosition 0 0) (mkPosition 4 8) 0.25 = mkPosition 1 2 /\
  clientTime (buffered 500 at_10 at_11 arena) = 10.5%float /\
  timePoint 10.5 at_11 at_10 = 0.5%float /\
  player_position <$> heap (drawn 500 at_10 at_11 arena) !! 1%nat
    = Some (mkPosition 2 4).
Proof. repeat split; vm_compute; reflexivity. Qed.

(** C4, where the code departs from it.  The replay loops sit inside the
    loop over the remote players.  With two remote players the one bullet
    and the one event of the target snapshot are each replayed twice in a
    single pass; with no remote player in the snapshots, a bullet of the
    target snapshot is not replayed at all.  Each replayed bullet is
    spawned where its firing player stands at that moment. *)
Theorem C4_replay_runs_once_per_remote_player :
  (let s := buffered 750 at_10 at_11 arena in
   bracket (clientTime s) (serverUpdates s) = Some (at_11, at_10) /\
   snap_bullets at_11 = [shot] /\ snap_events at_11 = [hit] /\
   returned (processNetworkUpdates (delayed 750) 1 s) = true /\
   game_bullets s = [] /\ game_events s = [] /\
   game_bullets (drawn 750 at_10 at_11 arena)
     = [(1%nat, mkBullet "p2" 3 6 "b1"); (1%nat, mkBullet "p2" 3 6 "b1")] /\
   game_events (drawn 750 at_10 at_11 arena)
     = [("e1", "hit", Some 2%nat); ("e1", "hit", Some 2%nat)]) /\
  (let s := buffered 750 (solo 10 []) (solo 11 [stray]) alone in
   bracket (clientTime s) (serverUpdates s) = Some (solo 11 [stray], solo 10 []) /\
   returned (processNetworkUpdates (delayed 750) 1 s) = true /\
   game_bullets (drawn 750 (solo 10 []) (solo 11 [stray]) alone) = []).
Proof. repeat split; vm_compute; reflexivity. Qed.

(** * Further properties of the code *)

(** ** [interpolate] and [lerp] *)

Lemma SFltb_SFleb_trans a b c :
  SFltb a b = true -> SFleb b c = true -> SFltb a c = true.
Proof.
  unfold SFleb, SFltb, SFcompare.
  destruct a as [[]|[]| |[] m1 e1], b as [[]|[]| |[] m2 e2],
           c as [[]|[]| |[] m3 e3];
    simpl; try discriminate; try reflexivity;
    change (PosDef.Pos.compare_cont Eq) with Pos.compare; intros H1 H2;
    order_cases.
Qed.

Lemma SFleb_SFltb_trans a b c :
  SFleb a b = true -> SFltb b c = true -> SFltb a c = true.
Proof.
  unfold SFleb, SFltb, SFcompare.
  destruct a as [[]|[]| |[] m1 e1], b as [[]|[]| |[] m2 e2],
           c as [[]|[]| |[] m3 e3];
    simpl; try discriminate; try reflexivity;
    change (PosDef.Pos.compare_cont Eq) with Pos.compare; intros H1 H2;
    order_cases.
Qed.

Lemma ltb_leb_trans (a b c : float) :
  (a <? b)%float = true -> (b <=? c)%float = true -> (a <? c)%float = true.
Proof.
  rewrite !FloatAxioms.ltb_spec, FloatAxioms.leb_spec. apply SFltb_SFleb_trans.
Qed.

Lemma leb_ltb_trans (a b c : float) :
  (a <=? b)%float = true -> (b <? c)%float = true -> (a <? c)%float = true.
Proof.
  rewrite !FloatAxioms.ltb_spec, FloatAxioms.leb_spec. apply SFleb_SFltb_trans.
Qed.

Lemma leb_not_nan (a b : float) :
  (a <=? b)%float = true ->
  PrimFloat.is_nan a = false /\ PrimFloat.is_nan b = false.
Proof.
  rewrite !is_nan_spec, FloatAxioms.leb_spec. unfold SFleb, SFcompare.
  by destruct (Prim2SF a) as [[]|[]| |[] m1 e1],
              (Prim2SF b) as [[]|[]| |[] m2 e2].
Qed.

(** The only number that is neither below nor above 1 is 1. *)
Lemma equal_to_one (x : float) :
  (1 <=? x)%float = true -> (1 <? x)%float = false -> x = 1%float.
Proof.
  rewrite FloatAxioms.leb_spec, FloatAxioms.ltb_spec. intros Hle Hlt.
  rewrite <- (SF2Prim_Prim2SF x), <- (SF2Prim_Prim2SF 1). f_equal.
  revert Hle Hlt. unfold SFleb, SFltb, SFcompare.
  change (Prim2SF 1) with (S754_finite false 4503599627370496 (-52)).
  destruct (Prim2SF x) as [[]|[]| |[] m e]; cbv beta iota; try discriminate.
  change (PosDef.Pos.compare_cont Eq) with Pos.compare.
  destruct (Z.compare_spec (-52) e); try discriminate; subst.
  destruct (Pos.compare_spec 4503599627370496 m); try discriminate; subst.
  reflexivity.
Qed.

(** X1.  [interpolate] never extrapolates: for a factor that is a number,
    the factor it applies lies between 0 and 1; a factor of 1 or more gives
    what 1 gives, and a factor of 0 or less gives what 0 gives. *)
Theorem X1_interpolate_clamps_the_factor (p n x : float) :
  PrimFloat.is_nan x = false ->
  (0 <=? Math_max 0 (Math_min 1 x))%float = true /\
  (Math_max 0 (Math_min 1 x) <=? 1)%float = true /\
  ((1 <=? x)%float = true -> interpolate p n x = interpolate p n 1) /\
  ((x <=? 0)%float = true -> interpolate p n x = interpolate p n 0).
Proof.
  intros Hx. destruct (clamp_within_unit_interval x Hx) as [H0 H1].
  split; [done|]. split; [done|]. unfold interpolate. split; intros Hle.
  - assert (Hmin : Math_min 1 x = 1%float).
    { unfold Math_min. rewrite Hx. change (PrimFloat.is_nan 1) with false. simpl.
      destruct (1 <? x)%float eqn:Hlt; [done|].
      destruct (x <? 1)%float eqn:Hgt.
      - exfalso. by apply (leb_ltb_false 1 x).
      - change (get_sign 1) with false. cbv iota. by apply equal_to_one. }
    by rewrite Hmin.
  - assert (Hlt1 : (x <? 1)%float = true).
    { by apply (leb_ltb_trans x 0 1). }
    assert (Hmin : Math_min 1 x = x).
    { unfold Math_min. rewrite Hx. change (PrimFloat.is_nan 1) with false. simpl.
      destruct (1 <? x)%float eqn:Hlt; [|by rewrite Hlt1].
      exfalso. apply (leb_ltb_false x 1); [by apply ltb_leb|done]. }
    rewrite Hmin.
    assert (Hmax : Math_max 0 x = 0%float).
    { unfold Math_max. rewrite Hx. change (PrimFloat.is_nan 0) with false. simpl.
      destruct (0 <? x)%float eqn:Hlt.
      - exfalso. by apply (leb_ltb_false x 0).
      - by destruct (x <? 0)%float. }
    by rewrite Hmax.
Qed.

Lemma X1_witness :
  (0 <=? Math_max 0 (Math_min 1 2.5))%float = true /\
  (Math_max 0 (Math_min 1 2.5) <=? 1)%float = true /\
  ((1 <=? 2.5)%float = true -> interpolate 3 7 2.5 = interpolate 3 7 1) /\
  ((2.5 <=? 0)%float = true -> interpolate 3 7 2.5 = interpolate 3 7 0).
Proof. apply (X1_interpolate_clamps_the_factor 3 7 2.5). reflexivity. Defined.

(** A number that is neither NaN nor infinite is a zero or a finite
    binary64 value. *)
Lemma within_bounds_finite (x : float) :
  (0 <=? x)%float = true -> (x <=? 1)%float = true ->
  nan_or_infinite x = false.
Proof.
  rewrite nan_or_infinite_spec, !FloatAxioms.leb_spec. unfold SFleb, SFcompare.
  change (Prim2SF 0) with (S754_zero false).
  change (Prim2SF 1) with (S754_finite false 4503599627370496 (-52)).
  by destruct (Prim2SF x) as [[]|[]| |[] m e].
Qed.

(** [p + f * (p - p)] is [p] again, up to the sign of a zero. *)
Lemma add_scaled_zero_width (p f : float) :
  nan_or_infinite p = false -> nan_or_infinite f = false ->
  (p + f * (p - p) =? p)%float = true.
Proof.
  rewrite !nan_or_infinite_spec, FloatAxioms.eqb_spec, FloatAxioms.add_spec,
    FloatAxioms.mul_spec, FloatAxioms.sub_spec.
  intros Hp Hf.
  assert (Hsub : exists sg, SF64sub (Prim2SF p) (Prim2SF p) = S754_zero sg).
  { destruct (Prim2SF p) as [[]|[]| |sg m e]; try done; try by eexists.
    exists false. unfold SF64sub, SFsub. cbv zeta. by rewrite Z.sub_diag. }
  destruct Hsub as [sg ->].
  assert (Hmul : exists sg', SF64mul (Prim2SF f) (S754_zero sg) = S754_zero sg').
  { destruct (Prim2SF f) as [[]|[]| |sf m e]; try done; by eexists. }
  destruct Hmul as [sg' ->].
  destruct (Prim2SF p) as [[]|[]| |sp m e], sg'; try done.
  all: unfold SFeqb, SF64add, SFadd, SFcompare;
    change (PosDef.Pos.compare_cont Eq) with Pos.compare;
    rewrite Z.compare_refl, Pos.compare_refl; by destruct sp.
Qed.

(** X2.  Interpolating between a position and itself gives that position,
    whatever the factor, as long as the coordinates are finite numbers and
    the factor is a number; this is what the pass computes when target and
    previous are the same snapshot. *)
Theorem X2_lerp_between_equal_positions (a : Position) (t : float) :
  nan_or_infinite (pos_x a) = false ->
  nan_or_infinite (pos_y a) = false ->
  PrimFloat.is_nan t = false ->
  (pos_x (lerp a a t) =? pos_x a)%float = true /\
  (pos_y (lerp a a t) =? pos_y a)%float = true.
Proof.
  intros Hx Hy Ht. destruct (clamp_within_unit_interval t Ht) as [H0 H1].
  pose proof (within_bounds_finite _ H0 H1) as Hf.
  unfold lerp, interpolate. simpl. split; by apply add_scaled_zero_width.
Qed.

Lemma X2_witness :
  (pos_x (lerp (mkPosition 4 8) (mkPosition 4 8) 0.75) =? 4)%float = true /\
  (pos_y (lerp (mkPosition 4 8) (mkPosition 4 8) 0.75) =? 8)%float = true.
Proof.
  apply (X2_lerp_between_equal_positions (mkPosition 4 8) 0.75); reflexivity.
Defined.

(** ** The blend factor and the timeline search *)

(** X3.  Whatever the server times and the render time are, NaN and the
    infinities included, [timePoint] is a finite number, and the factor
    that [lerp] then applies to it lies between 0 and 1. *)
Theorem X3_blend_is_finite_and_clamped
    (clientTime : float) (target previous : Snapshot) :
  nan_or_infinite (timePoint clientTime target previous) = false /\
  (0 <=? Math_max 0 (Math_min 1 (timePoint clientTime target previous)))%float
    = true /\
  (Math_max 0 (Math_min 1 (timePoint clientTime target previous)) <=? 1)%float
    = true.
Proof.
  split; [apply timePoint_finite|].
  apply (blend_within_unit_interval clientTime target previous).
Qed.

(** X4.  The timeline search returns the oldest adjacent pair of snapshots
    whose server times strictly bracket the render time, and returns
    nothing exactly when no adjacent pair does. *)
Theorem X4_timeline_search_finds_oldest_bracket
    (clientTime : float) (updates : list Snapshot) :
  (forall target previous,
      timeline_search clientTime updates = Some (target, previous) <->
      exists i : nat,
        updates !! i = Some previous /\ updates !! S i = Some target /\
        brackets clientTime previous target /\
        forall (j : nat) point nextPoint,
          (j < i)%nat -> updates !! j = Some point ->
          updates !! S j = Some nextPoint ->
          ~ brackets clientTime point nextPoint) /\
  (timeline_search clientTime updates = None <->
   forall (i : nat) point nextPoint,
     updates !! i = Some point -> updates !! S i = Some nextPoint ->
     ~ brackets clientTime point nextPoint).
Proof.
  split.
  - induction updates as [|point rest IH]; intros target previous.
    { split; [done|]. by intros (i & Hp & _). }
    simpl. destruct rest as [|nextPoint rest'].
    { split; [done|]. by intros (i & _ & Hn & _). }
    destruct (_ && _)%bool eqn:Hb.
    + apply andb_true_iff in Hb. split.
      * intros [= <- <-]. exists 0%nat.
        split; [done|]. split; [done|]. split; [exact Hb|].
        intros j ? ? Hj. lia.
      * intros ([|i] & Hp & Hn & Hbr & Hfirst).
        -- simpl in Hp, Hn. by injection Hp as <-; injection Hn as <-.
        -- exfalso. apply (Hfirst 0%nat point nextPoint); [lia|done|done|].
           exact Hb.
    + rewrite IH. split.
      * intros (i & Hp & Hn & Hbr & Hfirst). exists (S i).
        split; [done|]. split; [done|]. split; [done|].
        intros [|j] p n Hj Hpj Hnj.
        -- simpl in Hpj, Hnj. injection Hpj as <-. injection Hnj as <-.
           intros [H1 H2]. unfold brackets in *. by rewrite H1, H2 in Hb.
        -- apply (Hfirst j); [lia|done|done].
      * intros ([|i] & Hp & Hn & Hbr & Hfirst).
        -- simpl in Hp, Hn. injection Hp as <-. injection Hn as <-.
           destruct Hbr as [H1 H2]. by rewrite H1, H2 in Hb.
        -- exists i. split; [done|]. split; [done|]. split; [done|].
           intros j p n Hj Hpj Hnj.
           apply (Hfirst (S j)); [lia|done|done].
  - split; [|apply timeline_search_none].
    intros Hnone i point nextPoint Hp Hn Hbr.
    induction updates as [|point0 rest IH] in i, Hp, Hn, Hnone |- *; [done|].
    simpl in Hnone. destruct rest as [|nextPoint0 rest']; [by destruct i|].
    destruct (_ && _)%bool eqn:Hb; [done|].
    destruct i as [|i].
    + simpl in Hp, Hn. injection Hp as <-. injection Hn as <-.
      destruct Hbr as [H1 H2]. by rewrite H1, H2 in Hb.
    + by apply (IH Hnone i).
Qed.

(** ** The player bookkeeping *)

(** Setting a position keeps the shape of the bookkeeping. *)
Lemma update_roster_view r method : preserves roster_view (update r method).
Proof.
  intros s. unfold update, bind, deref.
  destruct (heap s !! r) as [pl|] eqn:Hpl; [|done]. simpl.
  unfold roster_view. simpl. f_equal. apply set_eq. intros r'.
  rewrite dom_insert, elem_of_union, elem_of_singleton.
  split; [intros [->|?]; [by apply elem_of_dom|done]|by right].
Qed.

Lemma serverGhost_setPosition_roster_view id p :
  preserves roster_view (serverGhost_setPosition id p).
Proof.
  intros s. unfold serverGhost_setPosition.
  destruct (serverGhosts s !! id) as [g|] eqn:Hg; [|done]. simpl.
  unfold roster_view. simpl. do 3 f_equal. apply set_eq. intros id'.
  rewrite dom_insert, elem_of_union, elem_of_singleton.
  split; [intros [->|?]; [by apply elem_of_dom|done]|by right].
Qed.

Lemma localGhost_setPosition_roster_view id p :
  preserves roster_view (localGhost_setPosition id p).
Proof.
  intros s. unfold localGhost_setPosition.
  destruct (localGhosts s !! id) as [g|] eqn:Hg; [|done]. simpl.
  unfold roster_view. simpl. do 2 f_equal. f_equal. apply set_eq. intros id'.
  rewrite dom_insert, elem_of_union, elem_of_singleton.
  split; [intros [->|?]; [by apply elem_of_dom|done]|by right].
Qed.

Ltac roster_frame :=
  repeat first
    [ apply update_roster_view | apply serverGhost_setPosition_roster_view
    | apply localGhost_setPosition_roster_view
    | apply localGhost_getPosition_view | frame_step ].

Lemma replay_bullets_roster_view bullets :
  preserves roster_view (replay_bullets bullets).
Proof. unfold replay_bullets, getPlayerById, addBullet. roster_frame. Qed.

Lemma replay_events_roster_view events :
  preserves roster_view (replay_events events).
Proof. unfold replay_events, getPlayerById, onEvent. roster_frame. Qed.

Lemma clientPrediction_roster_view : preserves roster_view clientPrediction.
Proof. unfold clientPrediction. roster_frame. Qed.

Lemma naive_update_roster_view data : preserves roster_view (naive_update data).
Proof.
  unfold naive_update, getPlayerById.
  repeat first [ apply replay_bullets_roster_view
               | apply replay_events_roster_view | roster_frame ].
Qed.

Lemma updateInput_roster_view Number_toString input :
  preserves roster_view (updateInput Number_toString input).
Proof. unfold updateInput. roster_frame. Qed.

Lemma interpolate_players_roster_view options target previous t x i players :
  preserves roster_view
    (interpolate_players options target previous t x i players).
Proof.
  revert i. induction players as [|playerData players IH]; intros i; simpl.
  - apply preserves_ret.
  - apply preserves_bind; [|intros _; apply IH].
    unfold interpolate_player, getPlayerById.
    repeat first [ apply replay_bullets_roster_view
                 | apply replay_events_roster_view | roster_frame ].
Qed.

Lemma processNetworkUpdates_roster_view options interpolation :
  preserves roster_view (processNetworkUpdates options interpolation).
Proof.
  unfold processNetworkUpdates, render_pass, interpolate_local.
  repeat first [ apply interpolate_players_roster_view
               | apply replay_bullets_roster_view
               | apply replay_events_roster_view | roster_frame ].
Qed.

Lemma onServerUpdate_roster_view options game_update data :
  (forall delta, preserves roster_view (game_update delta)) ->
  preserves roster_view (onServerUpdate options game_update data).
Proof.
  intros Hgame. unfold onServerUpdate.
  apply preserves_bind; [by apply preserves_modify|intros _].
  destruct (naiveApproach options); [apply naive_update_roster_view|].
  apply preserves_bind; [by apply preserves_modify|intros _].
  apply preserves_bind; [apply preserves_gets|intros updates].
  apply preserves_bind; [|intros _].
  { destruct (buffer_full _ _); [by apply preserves_modify|apply preserves_ret]. }
  apply preserves_bind; [apply preserves_gets|intros updates'].
  apply preserves_bind; [apply preserves_gets|intros lp].
  destruct updates' as [|first rest], lp as [r|]; try apply preserves_ret.
  apply preserves_bind; [apply clientPrediction_roster_view|intros _].
  apply Hgame.
Qed.

Lemma roster_of_view s s' :
  roster_view s' = roster_view s -> roster s -> roster s'.
Proof.
  unfold roster_view, roster. intros [= Hs Hl Hg Hh] (H1 & H2 & H3).
  rewrite Hs, Hl, Hg, Hh. done.
Qed.

Lemma addPlayer_allocated s r pl :
  heap s !! r = Some pl ->
  let g := mkGhost (player_position pl) (player_width pl) (player_height pl) in
  addPlayer r s
  = Returned tt
      (set_localGhosts (fun m => <[player_id pl := g]> m)
         (set_serverGhosts (fun m => <[player_id pl := g]> m)
            (set_game_players (fun m => <[player_id pl := r]> m) s))).
Proof. intros Hpl. unfold addPlayer. js_unfold. by rewrite Hpl. Qed.

(** X5.  [addPlayer] registers the player with the game under its id and
    gives it a server ghost and a local ghost, both at the player's
    position and of its size, as [getGhosts] then shows; the ghosts and
    registrations of other ids, the player objects and the closure
    variables are untouched, and consistent bookkeeping stays consistent. *)
Theorem X5_addPlayer_registers_player_and_ghosts
    (s : ClientGame) (r : nat) (pl : Player) :
  heap s !! r = Some pl ->
  let g := mkGhost (player_position pl) (player_width pl) (player_height pl) in
  exists s',
    addPlayer r s = Returned tt s' /\
    getGhosts (player_id pl) s' = Returned (Some g, Some g) s' /\
    getPlayerById (player_id pl) s' = Returned (Some r) s' /\
    (forall id, id <> player_id pl ->
       getGhosts id s' = Returned (serverGhosts s !! id, localGhosts s !! id) s' /\
       getPlayerById id s' = Returned (game_players s !! id) s') /\
    heap s' = heap s /\ closure_vars s' = closure_vars s /\
    (roster s -> roster s').
Proof.
  intros Hpl g. eexists. split; [by apply addPlayer_allocated|].
  unfold getGhosts, getPlayerById, gets. simpl.
  rewrite !lookup_insert_eq. split; [done|]. split; [done|]. split.
  { intros id Hid. by rewrite !lookup_insert_ne. }
  split; [done|]. split; [done|].
  intros (H1 & H2 & H3). unfold roster. simpl.
  rewrite !dom_insert_L, H1, H2. split; [done|]. split; [done|].
  intros id r' Hl. destruct (decide (id = player_id pl)) as [->|Hne].
  - rewrite lookup_insert_eq in Hl. injection Hl as <-. by apply elem_of_dom.
  - rewrite lookup_insert_ne in Hl by done. by apply (H3 id).
Qed.

Lemma X5_witness :
  exists s',
    addPlayer 1 (create (<[0%nat := me]> (<[1%nat := p2]> ∅)) 1.5%float)
      = Returned tt s' /\
    getGhosts "p2" s'
      = Returned (Some (mkGhost (mkPosition 0 0) 16 16),
                  Some (mkGhost (mkPosition 0 0) 16 16)) s' /\
    getPlayerById "p2" s' = Returned (Some 1%nat) s' /\
    getGhosts "me" s' = Returned (None, None) s'.
Proof.
  assert (Hpl : heap (create (<[0%nat := me]> (<[1%nat := p2]> ∅)) 1.5%float)
                  !! 1%nat = Some p2) by reflexivity.
  destruct (X5_addPlayer_registers_player_and_ghosts _ 1%nat p2 Hpl)
    as (s' & Hadd & Hg & Hp & Hother & _).
  exists s'. split; [exact Hadd|]. split; [exact Hg|]. split; [exact Hp|].
  destruct (Hother "me") as [Hme _]; [done|]. exact Hme.
Defined.

(** X6.  [removePlayer] forgets one id: afterwards [getGhosts] gives
    [undefined] twice for it and the game does not know it, while every
    other id keeps its ghosts and registration; the player objects and the
    closure variables, [localPlayer] included, are untouched, even when
    the player removed is the local one.  Consistent bookkeeping stays
    consistent, and removing a player that was just added under a fresh id
    gives back the state before the addition. *)
Theorem X6_removePlayer_forgets_one_id (s : ClientGame) (playerId : string) :
  exists s',
    removePlayer playerId s = Returned tt s' /\
    getGhosts playerId s' = Returned (None, None) s' /\
    getPlayerById playerId s' = Returned None s' /\
    (forall id, id <> playerId ->
       getGhosts id s' = Returned (serverGhosts s !! id, localGhosts s !! id) s' /\
       getPlayerById id s' = Returned (game_players s !! id) s') /\
    heap s' = heap s /\ closure_vars s' = closure_vars s /\
    (roster s -> roster s') /\
    (forall s0 r pl,
        heap s0 !! r = Some pl -> player_id pl = playerId ->
        serverGhosts s0 !! playerId = None ->
        localGhosts s0 !! playerId = None ->
        game_players s0 !! playerId = None ->
        s = final (addPlayer r s0) -> s' = s0).
Proof.
  eexists. split; [reflexivity|].
  unfold getGhosts, getPlayerById, gets. simpl.
  rewrite !lookup_delete_eq. split; [done|]. split; [done|]. split.
  { intros id Hid. by rewrite !lookup_delete_ne. }
  split; [done|]. split; [done|]. split.
  - intros (H1 & H2 & H3). unfold roster. simpl.
    rewrite !dom_delete_L, H1, H2. split; [done|]. split; [done|].
    intros id r Hl. apply lookup_delete_Some in Hl as [_ Hl]. by apply (H3 id).
  - intros s0 r pl Hpl <- Hsg Hlg Hgp ->.
    rewrite (addPlayer_allocated s0 r pl Hpl). simpl.
    unfold set_localGhosts, set_serverGhosts, set_game_players. simpl.
    rewrite !delete_insert_id by done. by destruct s0.
Qed.

(** X7.  [clearPlayers] empties the game's player table and both ghost
    tables, so that every later [getGhosts] gives [undefined] twice; it
    leaves the player objects and the closure variables alone, so a local
    player stays set although the game no longer knows it. *)
Theorem X7_clearPlayers_forgets_everyone (s : ClientGame) :
  exists s',
    clearPlayers s = Returned tt s' /\
    (forall id,
       getGhosts id s' = Returned (None, None) s' /\
       getPlayerById id s' = Returned None s') /\
    heap s' = heap s /\ closure_vars s' = closure_vars s /\
    local_player s' = local_player s /\
    roster s'.
Proof.
  eexists. split; [reflexivity|]. unfold getGhosts, getPlayerById, gets. simpl.
  split; [by intros id; rewrite !lookup_empty|].
  repeat split; try done.
Qed.

(** ** When the interpolation pass cannot throw *)

Lemma ensures_ret {A} (I : ClientGame -> Prop) (Q : A -> Prop) (a : A) :
  Q a -> ensures I Q (ret a).
Proof. intros Ha s Hs. by exists a, s. Qed.

Lemma ensures_bind {A B} (I : ClientGame -> Prop) (Q : A -> Prop)
    (R : B -> Prop) (m : M A) (k : A -> M B) :
  ensures I Q m -> (forall a, Q a -> ensures I R (k a)) ->
  ensures I R (bind m k).
Proof.
  intros Hm Hk s Hs. destruct (Hm s Hs) as (a & s1 & Hrun & Hs1 & Ha).
  destruct (Hk a Ha s1 Hs1) as (b & s2 & Hrun2 & Hs2 & Hb).
  exists b, s2. unfold bind. by rewrite Hrun.
Qed.

Lemma ensures_for_of {A} (I : ClientGame -> Prop) (l : list A)
    (body : A -> M unit) :
  Forall (fun a => ensures I (fun _ => True) (body a)) l ->
  ensures I (fun _ => True) (for_of l body).
Proof.
  induction 1 as [|a l Ha _ IH]; simpl; [by apply ensures_ret|].
  eapply ensures_bind; [exact Ha|]. intros _ _. exact IH.
Qed.

Section Steady.
Context (gp : gmap string nat) (ids : gmap nat string) (lp : option nat).
Hypothesis gp_allocated : forall id r, gp !! id = Some r -> is_Some (ids !! r).

Let I := steady gp ids lp.

Lemma ensures_getPlayerById id :
  ensures I (fun a => a = gp !! id) (getPlayerById id).
Proof.
  intros s Hs. exists (game_players s !! id), s.
  split; [done|]. split; [done|]. by destruct Hs as (-> & _).
Qed.

Lemma ensures_localPlayer : ensures I (fun a => a = lp) (gets localPlayer).
Proof.
  intros s Hs. exists (localPlayer s), s.
  split; [done|]. split; [done|]. by destruct Hs as (_ & _ & -> & _).
Qed.

Lemma ensures_deref r :
  is_Some (ids !! r) ->
  ensures I (fun pl => ids !! r = Some (player_id pl)) (deref r).
Proof.
  intros [id Hid] s Hs. pose proof Hs as (_ & Hids & _).
  rewrite <- Hids, lookup_fmap in Hid. unfold deref.
  destruct (heap s !! r) as [pl|] eqn:Hpl; [|done].
  exists pl, s. split; [done|]. split; [done|].
  by rewrite <- Hids, lookup_fmap, Hpl.
Qed.

Lemma ensures_setPosition r p :
  is_Some (ids !! r) ->
  ensures I (fun _ => True) (update r (Player_setPosition p)).
Proof.
  intros [id Hid] s Hs. pose proof Hs as (Hgp & Hids & Hlp & Hsg & Hlg).
  rewrite <- Hids, lookup_fmap in Hid. unfold update, bind, deref.
  destruct (heap s !! r) as [pl|] eqn:Hpl; [|done]. simpl.
  eexists tt, _. split; [done|]. split; [|done].
  unfold I, steady. simpl. repeat split; try done.
  rewrite fmap_insert. simpl. rewrite <- Hids. apply insert_id.
  by rewrite lookup_fmap, Hpl.
Qed.

Lemma ensures_serverGhost_setPosition id p :
  is_Some (gp !! id) ->
  ensures I (fun _ => True) (serverGhost_setPosition id p).
Proof.
  intros Hid s Hs. pose proof Hs as (Hgp & Hids & Hlp & Hsg & Hlg).
  apply elem_of_dom in Hid. rewrite <- Hsg in Hid.
  apply elem_of_dom in Hid as [g Hg]. unfold serverGhost_setPosition.
  rewrite Hg. eexists tt, _. split; [done|]. split; [|done].
  unfold I, steady. simpl. repeat split; try done.
  rewrite dom_insert_L, Hsg. apply elem_of_dom_2 in Hg. rewrite Hsg in Hg.
  apply subseteq_union_1_L, singleton_subseteq_l, Hg.
Qed.

Lemma ensures_localGhost_setPosition id p :
  is_Some (gp !! id) ->
  ensures I (fun _ => True) (localGhost_setPosition id p).
Proof.
  intros Hid s Hs. pose proof Hs as (Hgp & Hids & Hlp & Hsg & Hlg).
  apply elem_of_dom in Hid. rewrite <- Hlg in Hid.
  apply elem_of_dom in Hid as [g Hg]. unfold localGhost_setPosition.
  rewrite Hg. eexists tt, _. split; [done|]. split; [|done].
  unfold I, steady. simpl. repeat split; try done.
  rewrite dom_insert_L, Hlg. apply elem_of_dom_2 in Hg. rewrite Hlg in Hg.
  apply subseteq_union_1_L, singleton_subseteq_l, Hg.
Qed.

Lemma ensures_localGhost_getPosition id :
  is_Some (gp !! id) ->
  ensures I (fun _ => True) (localGhost_getPosition id).
Proof.
  intros Hid s Hs. pose proof Hs as (Hgp & Hids & Hlp & Hsg & Hlg).
  apply elem_of_dom in Hid. rewrite <- Hlg in Hid.
  apply elem_of_dom in Hid as [g Hg]. unfold localGhost_getPosition.
  rewrite Hg. by eexists _, _.
Qed.

Lemma ensures_replay_bullets bullets :
  Forall (fun b => is_Some (gp !! bullet_firedBy b)) bullets ->
  ensures I (fun _ => True) (replay_bullets bullets).
Proof.
  intros Hknown. apply ensures_for_of.
  eapply Forall_impl; [exact Hknown|]. intros bullet [r Hr]. simpl.
  eapply ensures_bind; [apply ensures_getPlayerById|]. intros a ->.
  rewrite Hr.
  eapply ensures_bind; [apply ensures_deref, (gp_allocated _ _ Hr)|].
  intros pl _ s Hs. by eexists tt, _.
Qed.

Lemma ensures_replay_events events :
  ensures I (fun _ => True) (replay_events events).
Proof.
  apply ensures_for_of, Forall_forall. intros eventData _.
  eapply ensures_bind; [apply ensures_getPlayerById|].
  intros a _ s Hs. by eexists tt, _.
Qed.

Lemma ensures_interpolate_players options target previous t x i players :
  Forall (fun b => is_Some (gp !! bullet_firedBy b)) (snap_bullets target) ->
  ensures I (fun _ => True)
    (interpolate_players options target previous t x i players).
Proof.
  intros Hknown. revert i.
  induction players as [|playerData players IH]; intros i; simpl.
  { by apply ensures_ret. }
  apply (ensures_bind I (fun _ => True)); [|intros _ _; apply IH].
  unfold interpolate_player.
  destruct (snap_players target !! i); simpl; [|by apply ensures_ret].
  destruct (snap_players previous !! i); simpl; [|by apply ensures_ret].
  eapply ensures_bind; [apply ensures_getPlayerById|]. intros a ->.
  destruct (gp !! pd_id playerData) as [r|] eqn:Hr; simpl;
    [|by apply ensures_ret].
  assert (Hid : is_Some (gp !! pd_id playerData)) by by rewrite Hr.
  assert (Hal : is_Some (ids !! r)) by apply (gp_allocated _ _ Hr).
  eapply ensures_bind; [by apply ensures_serverGhost_setPosition|intros _ _].
  eapply ensures_bind; [by apply ensures_localGhost_setPosition|intros _ _].
  apply (ensures_bind I (fun _ => True)); [|intros _ _].
  { destruct (clientSmoothing options).
    - eapply ensures_bind; [by apply ensures_deref|intros pl _].
      eapply ensures_bind; [by apply ensures_localGhost_getPosition|intros g _].
      by apply ensures_setPosition.
    - eapply ensures_bind; [by apply ensures_localGhost_getPosition|intros g _].
      by apply ensures_setPosition. }
  eapply ensures_bind; [by apply ensures_replay_bullets|intros _ _].
  apply ensures_replay_events.
Qed.

Lemma ensures_interpolate_local options target previous latest t x r id :
  lp = Some r -> ids !! r = Some id -> is_Some (gp !! id) ->
  Forall (fun b => is_Some (gp !! bullet_firedBy b)) (snap_bullets latest) ->
  ensures I (fun _ => True)
    (interpolate_local options target previous latest t x).
Proof.
  intros Hlp Hr Hid Hknown. unfold interpolate_local.
  assert (Hal : is_Some (ids !! r)) by by rewrite Hr.
  eapply ensures_bind; [apply ensures_localPlayer|]. intros a ->. rewrite Hlp.
  eapply ensures_bind; [by apply ensures_deref|]. intros pl Hpl.
  rewrite Hr in Hpl. injection Hpl as ->.
  eapply ensures_bind; [by apply ensures_serverGhost_setPosition|intros _ _].
  apply (ensures_bind I (fun _ => True)); [|intros _ _].
  { destruct (clientSmoothing options).
    - eapply ensures_bind; [by apply ensures_deref|intros pl' _].
      by apply ensures_setPosition.
    - by apply ensures_setPosition. }
  eapply ensures_bind; [by apply ensures_replay_bullets|intros _ _].
  apply ensures_replay_events.
Qed.

End Steady.

Lemma roster_steady s :
  roster s ->
  steady (game_players s) (player_id <$> heap s) (localPlayer s) s /\
  forall id r, game_players s !! id = Some r ->
               is_Some ((player_id <$> heap s) !! r).
Proof.
  intros (H1 & H2 & H3). split; [done|]. intros id r Hr.
  apply H3 in Hr. apply elem_of_dom in Hr as [pl Hpl].
  by rewrite lookup_fmap, Hpl.
Qed.

Lemma bracket_members clientTime (updates : list Snapshot) target previous :
  bracket clientTime updates = Some (target, previous) ->
  target ∈ updates /\ previous ∈ updates.
Proof.
  unfold bracket. destruct (timeline_search clientTime updates) as [[t p]|] eqn:Hs.
  - intros [= <- <-]. apply timeline_search_sound in Hs as (i & Hp & Hn & _).
    split; by eapply list_elem_of_lookup_2.
  - destruct updates as [|first rest]; [done|]. intros [= <- <-].
    split; apply list_elem_of_here.
Qed.

(** A check of [roster] that computes. *)
Lemma roster_check s :
  bool_decide (dom (serverGhosts s) = dom (game_players s))
  && bool_decide (dom (localGhosts s) = dom (game_players s))
  && bool_decide (map_Forall (fun _ r => r ∈ dom (heap s)) (game_players s))
  = true ->
  roster s.
Proof.
  intros H. apply andb_true_iff in H as [H H3]. apply andb_true_iff in H as [H1 H2].
  apply bool_decide_eq_true in H1, H2, H3. by split; [|split].
Qed.

Lemma processNetworkUpdates_returns
    (options : Options) (interpolation : float) (s : ClientGame) :
  roster s ->
  (forall snapshot, snapshot ∈ serverUpdates s ->
     shooters_known s (snap_bullets snapshot)) ->
  (opt_clientPrediction options = true \/ naiveApproach options = true \/
   exists pl, local_player s = Some pl /\
              is_Some (game_players s !! player_id pl)) ->
  exists s', processNetworkUpdates options interpolation s = Returned tt s'.
Proof.
  intros Hroster Hknown Hlocal.
  destruct (roster_steady s Hroster) as [Hsteady Halloc].
  unfold processNetworkUpdates. js_unfold.
  destruct (bracket (clientTime s) (serverUpdates s)) as [[target previous]|]
    eqn:Hb; [|by eexists].
  destruct (last (serverUpdates s)) as [latest|] eqn:Hlast; [|by eexists].
  apply bracket_members in Hb as [Ht _].
  apply last_Some_elem_of in Hlast.
  assert (Hpass : ensures
            (steady (game_players s) (player_id <$> heap s) (localPlayer s))
            (fun _ => True)
            (render_pass options target previous latest
               (timePoint (clientTime s) target previous) interpolation)).
  { unfold render_pass.
    eapply ensures_bind;
      [apply ensures_interpolate_players; [exact Halloc|by apply Hknown]|].
    intros _ _.
    destruct (opt_clientPrediction options) eqn:Hpred; simpl;
      [by apply ensures_ret|].
    destruct (naiveApproach options) eqn:Hnaive; simpl;
      [by apply ensures_ret|].
    destruct Hlocal as [?|[?|(pl & Hpl & Hid)]]; [done|done|].
    unfold local_player in Hpl.
    destruct (localPlayer s) as [r|] eqn:Hlp; [|done].
    eapply (ensures_interpolate_local _ _ _ Halloc _ _ _ _ _ _ r (player_id pl));
      [done| |done|by apply Hknown].
    by rewrite lookup_fmap, Hpl. }
  destruct (Hpass s Hsteady) as ([] & s' & Hrun & _). by exists s'.
Qed.

(** X8.  With consistent bookkeeping (every player the game knows has both
    ghosts and is a live object) and buffered snapshots whose bullets were
    all fired by players the game knows, the interpolation pass returns: no
    access in it can hit [undefined].  When neither prediction nor the
    naive approach is on, the local player must also be set and known to
    the game.  The pass leaves the bookkeeping consistent and the closure
    variables as they were. *)
Theorem X8_pass_returns_on_consistent_bookkeeping
    (options : Options) (interpolation : float) (s : ClientGame) :
  roster s ->
  (forall snapshot, snapshot ∈ serverUpdates s ->
     shooters_known s (snap_bullets snapshot)) ->
  (opt_clientPrediction options = true \/ naiveApproach options = true \/
   exists pl, local_player s = Some pl /\
              is_Some (game_players s !! player_id pl)) ->
  exists s',
    processNetworkUpdates options interpolation s = Returned tt s' /\
    roster s' /\ closure_vars s' = closure_vars s.
Proof.
  intros Hroster Hknown Hlocal.
  destruct (processNetworkUpdates_returns options interpolation s
            Hroster Hknown Hlocal) as [s' Hrun].
  exists s'. split; [done|]. split.
  - apply (roster_of_view s); [|done].
    pose proof (processNetworkUpdates_roster_view options interpolation s) as H.
    by rewrite Hrun in H.
  - pose proof (processNetworkUpdates_closure_vars options interpolation s) as H.
    by rewrite Hrun in H.
Qed.

Lemma X8_witness :
  exists s',
    processNetworkUpdates (delayed 750) 1 (buffered 750 at_10 at_11 arena)
      = Returned tt s' /\
    roster s' /\
    closure_vars s' = closure_vars (buffered 750 at_10 at_11 arena).
Proof.
  apply (X8_pass_returns_on_consistent_bookkeeping (delayed 750) 1
           (buffered 750 at_10 at_11 arena)).
  - apply roster_check. vm_compute. reflexivity.
  - intros snapshot Hin. unfold shooters_known.
    change (serverUpdates (buffered 750 at_10 at_11 arena)) with [at_10; at_11] in Hin.
    apply elem_of_cons in Hin as [->|Hin]; [constructor|].
    apply elem_of_cons in Hin as [->|Hin]; [|by apply elem_of_nil in Hin].
    constructor; [|constructor]. by eexists.
  - by left.
Defined.

Lemma addPlayer_roster r s : roster s -> roster (final (addPlayer r s)).
Proof.
  intros (H1 & H2 & H3). destruct (heap s !! r) as [pl|] eqn:Hpl.
  - rewrite (addPlayer_allocated s r pl Hpl). unfold roster. simpl.
    rewrite !dom_insert_L, H1, H2. split; [done|]. split; [done|].
    intros id r' Hl. destruct (decide (id = player_id pl)) as [->|Hne].
    + rewrite lookup_insert_eq in Hl. injection Hl as <-. by apply elem_of_dom.
    + rewrite lookup_insert_ne in Hl by done. by apply (H3 id).
  - unfold addPlayer, bind, deref. by rewrite Hpl.
Qed.

Lemma removePlayer_roster id s : roster s -> roster (final (removePlayer id s)).
Proof.
  intros (H1 & H2 & H3). unfold roster. simpl.
  rewrite !dom_delete_L, H1, H2. split; [done|]. split; [done|].
  intros id' r Hl. apply lookup_delete_Some in Hl as [_ Hl]. by apply (H3 id').
Qed.

(** X9.  The bookkeeping is consistent in every state the client can
    reach: from a new client, whatever players are added, removed or
    cleared, whatever snapshots arrive, inputs are polled and frames are
    drawn, and whichever of these calls throw, the ids with a server ghost,
    the ids with a local ghost and the ids the game knows are the same, and
    every player the game knows is a live object.  The simulation step is
    assumed to keep the shape of the bookkeeping. *)
Theorem X9_bookkeeping_stays_consistent
    (options : Options) (Number_toString : float -> string)
    (game_update : float -> M unit) (store : gmap nat Player) (time : float)
    (ops : list Op) :
  (forall delta, preserves roster_view (game_update delta)) ->
  roster (run_ops options Number_toString game_update ops (create store time)).
Proof.
  intros Hgame.
  assert (Hstart : roster (create store time)).
  { unfold roster. simpl. by rewrite !dom_empty_L. }
  revert Hstart. generalize (create store time).
  induction ops as [|op ops IH]; intros s Hs; [done|].
  simpl. apply IH. destruct op; simpl.
  - by apply addPlayer_roster.
  - by apply removePlayer_roster.
  - unfold roster. simpl. by rewrite !dom_empty_L.
  - done.
  - done.
  - eapply roster_of_view; [apply updateInput_roster_view|done].
  - eapply roster_of_view; [by apply onServerUpdate_roster_view|done].
  - eapply roster_of_view; [apply processNetworkUpdates_roster_view|done].
Qed.

Lemma X9_witness :
  roster (run_ops plain_options prints_12_345 no_simulation
            [AddPlayer 0; AddPlayer 1; SetLocalPlayer (Some 0%nat);
             Receive (ack (Some 4)); RemovePlayer "p2"; DrawPass 1;
             AddPlayer 7; ClearPlayers; Receive (ack None)]
            (create (<[0%nat := me]> (<[1%nat := p2]> ∅)) 1.5%float)).
Proof.
  apply (X9_bookkeeping_stays_consistent plain_options prints_12_345 no_simulation).
  intros delta s. reflexivity.
Defined.

(** ** More on reconciliation *)

Lemma scan_inputs_miss (l : list InputFrame) seq k :
  scan_inputs l seq k = -1 -> 0 <= k -> Forall (fun f => frame_seq f <> seq) l.
Proof.
  revert k. induction l as [|f l IH]; intros k Hscan Hk; [constructor|].
  simpl in Hscan. destruct (Z.eqb_spec (frame_seq f) seq) as [_|Hne]; [lia|].
  constructor; [done|]. apply (IH (k + 1)); [done|lia].
Qed.

(** X10.  When the acknowledged sequence number is not among the pending
    inputs, nothing is discarded and the local player is not moved: the
    only effect of [clientPrediction] is to put the local player's server
    ghost at the position the snapshot reports. *)
Theorem X10_unmatched_ack_moves_only_the_ghost
    (s : ClientGame) (latest : Snapshot) (seq : Z) (r : nat) (pl : Player)
    (g : Ghost) :
  last (serverUpdates s) = Some latest ->
  own_lastInputSeq (snap_ownPlayer latest) = Some seq ->
  seq <> 0 ->
  localPlayer s = Some r ->
  heap s !! r = Some pl ->
  serverGhosts s !! player_id pl = Some g ->
  Forall (fun f => frame_seq f <> seq) (player_inputs pl) ->
  exists s',
    clientPrediction s = Returned tt s' /\
    heap s' = heap s /\
    serverGhosts s'
      = <[player_id pl := Ghost_setPosition (own_position (snap_ownPlayer latest)) g]>
          (serverGhosts s) /\
    localGhosts s' = localGhosts s /\
    closure_vars s' = closure_vars s /\
    replay_view s' = replay_view s.
Proof.
  intros Hlast Hseq Hnz Hlp Hpl Hg Habsent.
  eexists. split.
  - apply (clientPrediction_unmatched s latest seq r pl g); try done.
    by apply scan_inputs_absent.
  - done.
Qed.

Lemma X10_witness :
  exists s',
    clientPrediction (session (Some 9)) = Returned tt s' /\
    heap s' = heap (session (Some 9)) /\
    serverGhosts s'
      = <["me" := mkGhost (mkPosition 7 9) 16 16]> (serverGhosts (session (Some 9))) /\
    localGhosts s' = localGhosts (session (Some 9)) /\
    closure_vars s' = closure_vars (session (Some 9)) /\
    replay_view s' = replay_view (session (Some 9)).
Proof.
  apply (X10_unmatched_ack_moves_only_the_ghost (session (Some 9)) (ack (Some 9))
           9 0%nat me (mkGhost (mkPosition 0 0) 16 16)); try reflexivity.
  - lia.
  - unfold me. simpl. repeat constructor; simpl; lia.
Defined.

(** X11.  When the pending inputs are in capture order and the
    acknowledged sequence number is among them, reconciliation splits the
    list in two: what it discards are exactly the frames up to the
    acknowledged one, and every frame it keeps is newer. *)
Theorem X11_reconciliation_keeps_exactly_the_newer_inputs
    (s : ClientGame) (latest : Snapshot) (seq : Z) (r : nat) (pl : Player)
    (g : Ghost) :
  last (serverUpdates s) = Some latest ->
  own_lastInputSeq (snap_ownPlayer latest) = Some seq ->
  seq <> 0 ->
  localPlayer s = Some r ->
  heap s !! r = Some pl ->
  serverGhosts s !! player_id pl = Some g ->
  seq_increasing (player_inputs pl) ->
  seq ∈ (frame_seq <$> player_inputs pl) ->
  exists s' pl' acknowledged,
    clientPrediction s = Returned tt s' /\
    heap s' !! r = Some pl' /\
    player_inputs pl = acknowledged ++ player_inputs pl' /\
    Forall (fun f => frame_seq f <= seq) acknowledged /\
    Forall (fun f => seq < frame_seq f) (player_inputs pl').
Proof.
  intros Hlast Hseq Hnz Hlp Hpl Hg Hsorted Hin.
  assert (Hscan : scan_inputs (player_inputs pl) seq 0 <> -1).
  { intros Hmiss. apply scan_inputs_miss in Hmiss; [|lia].
    apply list_elem_of_fmap in Hin as (f & -> & Hf).
    by apply (proj1 (Forall_forall _ _) Hmiss f). }
  destruct (scan_inputs_hit _ _ 0 Hscan ltac:(lia)) as (f & Hf & Hfseq).
  destruct (scan_inputs_range (player_inputs pl) seq 0) as [?|Hrange]; [done|].
  rewrite Z.sub_0_r in Hf.
  set (i := Z.to_nat (scan_inputs (player_inputs pl) seq 0)) in *.
  eexists _, _, (take (i + 1) (player_inputs pl)). split; [|split; [|split; [|split]]].
  - apply (clientPrediction_matched s latest seq r pl g); done.
  - simpl. apply lookup_insert_eq.
  - simpl.
    replace (Z.to_nat (Z.abs (scan_inputs (player_inputs pl) seq 0 - -1)))
      with (i + 1)%nat by lia.
    by rewrite take_drop.
  - apply Forall_lookup. intros j fj Hj.
    apply lookup_take_Some in Hj as [Hj Hlt].
    destruct (decide (j = i)) as [->|Hne].
    + rewrite Hf in Hj. injection Hj as <-. lia.
    + pose proof (Hsorted j i fj f ltac:(lia) Hj Hf). lia.
  - simpl.
    replace (Z.to_nat (Z.abs (scan_inputs (player_inputs pl) seq 0 - -1)))
      with (i + 1)%nat by lia.
    apply Forall_lookup. intros j fj Hj. rewrite lookup_drop in Hj.
    pose proof (Hsorted i (i + 1 + j)%nat f fj ltac:(lia) Hf Hj). lia.
Qed.

Lemma X11_witness :
  exists s' pl' acknowledged,
    clientPrediction (session (Some 4)) = Returned tt s' /\
    heap s' !! 0%nat = Some pl' /\
    player_inputs me = acknowledged ++ player_inputs pl' /\
    Forall (fun f => frame_seq f <= 4) acknowledged /\
    Forall (fun f => 4 < frame_seq f) (player_inputs pl').
Proof.
  apply (X11_reconciliation_keeps_exactly_the_newer_inputs (session (Some 4))
           (ack (Some 4)) 4 0%nat me (mkGhost (mkPosition 0 0) 16 16));
    try reflexivity.
  - lia.
  - intros j k fj fk Hjk Hj Hk. unfold me in Hj, Hk. simpl in Hj, Hk.
    destruct j as [|[|[|[|j]]]], k as [|[|[|[|k]]]];
      simpl in Hj, Hk; try lia; try discriminate;
      injection Hj as <-; injection Hk as <-; simpl; lia.
  - unfold me. simpl. set_solver.
Defined.

(** X12.  Whether it returns or throws, [clientPrediction] touches nothing
    but the local player's object and one server ghost: the buffer and the
    other closure variables, the game's player table, the bullets and
    events, the local ghosts, every other player object and every server
    ghost but the local player's are as before; the local player keeps its
    id and its size, which server ghosts exist does not change, and the
    pending list only loses entries at the front. *)
Theorem X12_reconciliation_touches_only_the_local_player (s : ClientGame) :
  let s' := final (clientPrediction s) in
  closure_vars s' = closure_vars s /\
  game_players s' = game_players s /\
  game_bullets s' = game_bullets s /\
  game_events s' = game_events s /\
  localGhosts s' = localGhosts s /\
  dom (serverGhosts s') = dom (serverGhosts s) /\
  (forall r, localPlayer s <> Some r -> heap s' !! r = heap s !! r) /\
  (forall pl,
     local_player s = Some pl ->
     (forall id, id <> player_id pl ->
        serverGhosts s' !! id = serverGhosts s !! id) /\
     exists pl',
       local_player s' = Some pl' /\
       player_id pl' = player_id pl /\
       player_width pl' = player_width pl /\
       player_height pl' = player_height pl /\
       player_inputs pl' `suffix_of` player_inputs pl).
Proof.
  intros s'.
  split; [apply clientPrediction_closure_vars|].
  assert (Hview : roster_view s' = roster_view s)
    by apply clientPrediction_roster_view.
  unfold roster_view in Hview. injection Hview as Hsg _ Hgp _.
  split; [done|].
  assert (Hrest : game_bullets s' = game_bullets s /\
                  game_events s' = game_events s /\
                  localGhosts s' = localGhosts s /\
                  (forall r, localPlayer s <> Some r ->
                     heap s' !! r = heap s !! r) /\
                  (forall pl, local_player s = Some pl ->
                     forall id, id <> player_id pl ->
                       serverGhosts s' !! id = serverGhosts s !! id)).
  { unfold s', local_player. clientPrediction_cases s; repeat split; try done.
    all: try (intros r0 Hr0; rewrite !lookup_insert_ne by congruence; done).
    all: intros pl0 Hpl0 id Hid; cbn in Hpl0; rewrite ?Hpl' in Hpl0;
      injection Hpl0 as <-; by rewrite lookup_insert_ne. }
  destruct Hrest as (Hb & He & Hlg & Hheap & Hghost).
  repeat (split; [done|]). intros pl Hpl. split; [by apply Hghost|].
  destruct (last (serverUpdates s)) as [latest|] eqn:Hlast.
  - exists (reconcile_player latest pl). unfold s'.
    rewrite (clientPrediction_local_player s latest Hlast), Hpl.
    split; [done|]. split; [apply reconcile_player_id|].
    unfold reconcile_player. destruct (own_lastInputSeq _); [|done].
    destruct (_ && _); simpl; [|done]. repeat split; try done. apply suffix_drop.
  - exists pl. unfold s'. by rewrite (clientPrediction_empty_buffer s Hlast).
Qed.

(** X13.  A local player without a server ghost (never added, removed or
    cleared) makes [clientPrediction] throw once the server acknowledges
    an input: the lookup of the ghost gives [undefined].  The exception
    comes after the reconciliation, whose effect on the local player
    stays. *)
Theorem X13_missing_ghost_throws_after_reconciling
    (s : ClientGame) (latest : Snapshot) (seq : Z) (r : nat) (pl : Player) :
  last (serverUpdates s) = Some latest ->
  own_lastInputSeq (snap_ownPlayer latest) = Some seq ->
  seq <> 0 ->
  localPlayer s = Some r ->
  heap s !! r = Some pl ->
  serverGhosts s !! player_id pl = None ->
  exists s',
    clientPrediction s = TypeError s' /\
    local_player s' = Some (reconcile_player latest pl) /\
    serverGhosts s' = serverGhosts s.
Proof.
  intros Hlast Hseq Hnz Hlp Hpl Hg.
  pose proof (clientPrediction_local_player s latest Hlast) as Hlocal.
  unfold local_player in Hlocal at 2. rewrite Hlp, Hpl in Hlocal. simpl in Hlocal.
  apply Z.eqb_neq in Hnz. revert Hlocal.
  unfold clientPrediction. js_unfold. rewrite Hlast, Hseq. simpl.
  rewrite Hnz. simpl. rewrite Hlp, Hpl.
  destruct (scan_inputs (player_inputs pl) seq 0 =? -1) eqn:Hscan; js_unfold.
  - rewrite Hpl. unfold serverGhost_setPosition. rewrite Hg. simpl.
    intros Hlocal. by eexists.
  - rewrite Hpl. js_unfold. rewrite !lookup_insert_eq. js_unfold.
    rewrite !lookup_insert_eq. js_unfold. rewrite !lookup_insert_eq.
    unfold serverGhost_setPosition. simpl. rewrite Hg. simpl.
    intros Hlocal. by eexists.
Qed.

Lemma X13_witness :
  exists s',
    clientPrediction (final (clearPlayers (session (Some 4)))) = TypeError s' /\
    local_player s' = Some (reconcile_player (ack (Some 4)) me) /\
    serverGhosts s' = serverGhosts (final (clearPlayers (session (Some 4)))).
Proof.
  apply (X13_missing_ghost_throws_after_reconciling
           (final (clearPlayers (session (Some 4)))) (ack (Some 4)) 4 0%nat me);
    try reflexivity.
  lia.
Defined.

(** ** More on [onServerUpdate] *)

Lemma clientPrediction_clocks : preserves clocks clientPrediction.
Proof.
  intros s. pose proof (clientPrediction_closure_vars s) as H.
  unfold closure_vars in H. unfold clocks. by injection H as _ _ _ _ -> ->.
Qed.

Lemma onServerUpdate_clocks
    (options : Options) (game_update : float -> M unit)
    (data : Snapshot) (s : ClientGame) :
  (forall delta, preserves clocks (game_update delta)) ->
  let s' := final (onServerUpdate options game_update data s) in
  serverTime s' = snap_serverTime data /\
  clientTime s' = (snap_serverTime data - networkOffset options / 1000)%float.
Proof.
  intros Hgame s'.
  assert (Hrest : forall rest : M unit,
    preserves clocks rest ->
    clocks (final ((modify (set_times (snap_serverTime data)
                      (snap_serverTime data - networkOffset options / 1000)%float)
                    ;; rest) s))
    = (snap_serverTime data,
       (snap_serverTime data - networkOffset options / 1000)%float)).
  { intros rest Hp. unfold bind at 1. simpl. by rewrite Hp. }
  assert (Hclocks : clocks s'
    = (snap_serverTime data,
       (snap_serverTime data - networkOffset options / 1000)%float)).
  { apply Hrest. destruct (naiveApproach options).
    - by apply naive_update_view.
    - apply preserves_bind; [by apply preserves_modify|intros _].
      apply preserves_bind; [apply preserves_gets|intros updates].
      apply preserves_bind; [|intros _].
      { destruct (buffer_full _ _);
          [by apply preserves_modify|apply preserves_ret]. }
      apply preserves_bind; [apply preserves_gets|intros updates'].
      apply preserves_bind; [apply preserves_gets|intros lp].
      destruct updates' as [|first rest'], lp as [r|]; try apply preserves_ret.
      apply preserves_bind; [apply clientPrediction_clocks|intros _].
      apply Hgame. }
  unfold clocks in Hclocks. by injection Hclocks.
Qed.

(** X14.  Every snapshot sets the clocks, in all modes and even when the
    update throws further on: the server time becomes the snapshot's, and
    the render time the snapshot's time minus [networkOffset]
    milliseconds.  The simulation step is assumed to leave the two clocks
    alone. *)
Theorem X14_every_snapshot_sets_the_clocks
    (options : Options) (game_update : float -> M unit)
    (data : Snapshot) (s : ClientGame) :
  (forall delta, preserves clocks (game_update delta)) ->
  let s' := final (onServerUpdate options game_update data s) in
  serverTime s' = snap_serverTime data /\
  clientTime s' = (snap_serverTime data - networkOffset options / 1000)%float.
Proof. apply onServerUpdate_clocks. Qed.

Lemma X14_witness :
  serverTime (final (onServerUpdate (delayed 750) no_simulation at_11 arena))
    = 11%float /\
  clientTime (final (onServerUpdate (delayed 750) no_simulation at_11 arena))
    = 10.25%float.
Proof.
  apply (X14_every_snapshot_sets_the_clocks (delayed 750) no_simulation at_11 arena).
  intros delta s. reflexivity.
Defined.

Lemma naive_onServerUpdate_buffer options game_update data s :
  naiveApproach options = true ->
  serverUpdates (final (onServerUpdate options game_update data s))
  = serverUpdates s.
Proof.
  intros Hnaive. unfold onServerUpdate. rewrite Hnaive.
  apply preserves_bind; [by apply preserves_modify|intros _].
  by apply naive_update_view.
Qed.

Lemma call_buffer options Number_toString game_update op s :
  (forall delta, preserves serverUpdates (game_update delta)) ->
  let after :=
    serverUpdates (final (call options Number_toString game_update op s)) in
  match op with
  | Receive data =>
      if naiveApproach options then after = serverUpdates s
      else after `suffix_of` serverUpdates s ++ [data]
  | _ => after = serverUpdates s
  end.
Proof.
  intros Hgame. destruct op; simpl.
  - unfold addPlayer. repeat frame_step.
  - done.
  - done.
  - done.
  - done.
  - apply updateInput_serverUpdates.
  - destruct (naiveApproach options) eqn:Hnaive.
    + by rewrite naive_onServerUpdate_buffer.
    + rewrite onServerUpdate_buffer by done. cbv zeta.
      destruct (buffer_full _ _); [apply suffix_drop|done].
  - apply processNetworkUpdates_serverUpdates.
Qed.

(** X15.  The buffer holds snapshots in arrival order and only ever loses
    the oldest: in every state reachable from a new client it is a tail of
    the list of snapshots received so far; in naive mode it stays empty.
    The simulation step is assumed not to touch the buffer. *)
Theorem X15_buffer_is_a_tail_of_the_arrivals
    (options : Options) (Number_toString : float -> string)
    (game_update : float -> M unit) (store : gmap nat Player) (time : float)
    (ops : list Op) :
  (forall delta, preserves serverUpdates (game_update delta)) ->
  let s := run_ops options Number_toString game_update ops (create store time) in
  serverUpdates s `suffix_of` arrivals ops /\
  (naiveApproach options = true -> serverUpdates s = []).
Proof.
  intros Hgame s.
  assert (Hgen : forall ops s0,
    let s1 := run_ops options Number_toString game_update ops s0 in
    if naiveApproach options then serverUpdates s1 = serverUpdates s0
    else serverUpdates s1 `suffix_of` serverUpdates s0 ++ arrivals ops).
  { clear s ops. induction ops as [|op ops IH]; intros s0; simpl.
    { destruct (naiveApproach options); [done|by rewrite app_nil_r]. }
    specialize (IH (final (call options Number_toString game_update op s0))).
    pose proof (call_buffer options Number_toString game_update op s0 Hgame) as Hop.
    cbv zeta in IH, Hop.
    destruct op; try (rewrite Hop in IH; exact IH).
    destruct (naiveApproach options); [by rewrite <- Hop|].
    etrans; [exact IH|].
    rewrite cons_middle, app_assoc. by apply suffix_app. }
  specialize (Hgen ops (create store time)). cbv zeta in Hgen. subst s.
  destruct (naiveApproach options); [|done].
  rewrite Hgen. split; [apply suffix_nil|done].
Qed.

Lemma X15_witness :
  let s := run_ops small_buffer prints_12_345 no_simulation
             [Receive (at_time 1); AddPlayer 0; Receive (at_time 2);
              Receive (at_time 3); DrawPass 1; Receive (at_time 4);
              Receive (at_time 5)]
             (create (<[0%nat := me]> ∅) 1.5%float) in
  serverUpdates s `suffix_of`
    [at_time 1; at_time 2; at_time 3; at_time 4; at_time 5] /\
  (naiveApproach small_buffer = true -> serverUpdates s = []).
Proof.
  apply (X15_buffer_is_a_tail_of_the_arrivals small_buffer prints_12_345
           no_simulation).
  intros delta s. reflexivity.
Defined.

(** X16.  In buffered mode a snapshot is reconciled as it arrives, against
    itself: when a local player is set and the buffer is not empty after
    the arrival, the local player's pending inputs after [onServerUpdate]
    are those that reconciling against the arriving snapshot leaves.  The
    simulation step is assumed to leave the pending lists alone. *)
Theorem X16_arriving_snapshot_is_reconciled_at_once
    (options : Options) (game_update : float -> M unit)
    (data : Snapshot) (s : ClientGame) (r : nat) (pl : Player) :
  naiveApproach options = false ->
  (forall delta, preserves capture_view (game_update delta)) ->
  localPlayer s = Some r ->
  heap s !! r = Some pl ->
  serverUpdates s <> []
    \/ buffer_full options (length (serverUpdates s ++ [data])) = false ->
  player_inputs <$> local_player (final (onServerUpdate options game_update data s))
  = Some (player_inputs (reconcile_player data pl)).
Proof.
  intros Hnaive Hgame Hlp Hpl Hkept. unfold onServerUpdate. rewrite Hnaive.
  unfold bind at 1. simpl. unfold bind at 1. simpl. unfold bind at 1. simpl.
  set (s1 := set_serverUpdates _ _).
  assert (Hs1 : serverUpdates s1 = serverUpdates s ++ [data]) by done.
  assert (Hlocal1 : local_player s1 = Some pl).
  { unfold local_player. simpl. by rewrite Hlp. }
  set (trim := if buffer_full options _ then _ else _).
  assert (Htrim : exists s2,
    trim s1 = Returned tt s2 /\ local_player s2 = Some pl /\
    localPlayer s2 = Some r /\
    exists first rest, serverUpdates s2 = first :: rest /\
                       last (serverUpdates s2) = Some data).
  { subst trim.
    destruct (buffer_full _ _) eqn:Hfull.
    - destruct Hkept as [Hne|Hne]; [|congruence].
      eexists. split; [done|]. split; [done|]. split; [done|]. simpl.
      rewrite ?Hs1. destruct (serverUpdates s) as [|a [|b l]] eqn:Hb; [done| |].
      + by exists data, [].
      + exists b, (l ++ [data]). split; [done|].
        change (last ((b :: l) ++ [data]) = Some data). apply last_snoc.
    - exists s1. split; [done|]. split; [done|]. split; [done|]. rewrite ?Hs1.
      destruct (serverUpdates s) as [|a l].
      + by exists data, [].
      + exists a, (l ++ [data]). split; [done|].
        change (last ((a :: l) ++ [data]) = Some data). apply last_snoc. }
  destruct Htrim as (s2 & Htrim & Hlocal2 & Hlp2 & first & rest & Hb2 & Hlast).
  unfold bind at 1. rewrite Htrim.
  simpl. unfold bind at 1. simpl. unfold bind at 1. simpl.
  rewrite Hb2, Hlp2.
  pose proof (clientPrediction_local_player s2 data Hlast) as Hcp.
  rewrite Hlocal2 in Hcp. simpl in Hcp.
  pose proof (clientPrediction_frame s2) as (_ & Hlp3 & _).
  unfold bind. destruct (clientPrediction s2) as [[] s3|s3]; simpl in *.
  - pose proof (Hgame (simulationTimestep options) s3) as Hview.
    unfold capture_view in Hview. injection Hview as _ _ Hlp4 Hin.
    unfold local_player in *. rewrite Hlp4, Hlp3, Hlp2 in *.
    rewrite <- lookup_fmap, Hin, lookup_fmap. by rewrite Hcp.
  - by rewrite Hcp.
Qed.

Lemma X16_witness :
  player_inputs <$>
    local_player (final (onServerUpdate plain_options no_simulation
                           (ack (Some 4)) session_start))
  = Some (player_inputs (reconcile_player (ack (Some 4)) me)).
Proof.
  assert (Hpl : heap session_start !! 0%nat = Some me) by reflexivity.
  apply (X16_arriving_snapshot_is_reconciled_at_once plain_options
           no_simulation (ack (Some 4)) session_start 0%nat me);
    [reflexivity| |reflexivity|exact Hpl|right; reflexivity].
  intros delta s. reflexivity.
Defined.

(** X17.  A client with no local player, or whose buffer is empty after the
    arrival, only files the snapshot: [onServerUpdate] returns, the
    simulation is not stepped whatever it is, and nothing but the clocks
    and the buffer changes. *)
Theorem X17_snapshot_is_only_buffered
    (options : Options) (game_update : float -> M unit)
    (data : Snapshot) (s : ClientGame) :
  naiveApproach options = false ->
  localPlayer s = None
    \/ (serverUpdates s = []
        /\ buffer_full options (length (serverUpdates s ++ [data])) = true) ->
  exists s',
    onServerUpdate options game_update data s = Returned tt s' /\
    off_the_wire s' = off_the_wire s /\
    serverUpdates s'
    = (if buffer_full options (length (serverUpdates s ++ [data]))
       then drop 1 (serverUpdates s ++ [data])
       else serverUpdates s ++ [data]).
Proof.
  intros Hnaive Hcase. unfold onServerUpdate. rewrite Hnaive.
  unfold bind at 1. simpl. unfold bind at 1. simpl. unfold bind at 1. simpl.
  assert (Hskip : forall (updates : list Snapshot) (s0 : ClientGame),
    match updates with
    | [] => fun s1 => Returned tt s1
    | _ :: _ => fun s1 => Returned tt s1
    end s0 = Returned tt s0) by by intros [].
  destruct (buffer_full _ _) eqn:Hfull; js_unfold.
  - destruct Hcase as [Hlp|[Hb _]].
    + rewrite Hlp, Hskip. eexists. split; [reflexivity|]. split; reflexivity.
    + rewrite Hb. simpl. eexists. split; [reflexivity|].
      split; [reflexivity|]. simpl. by rewrite Hb.
  - destruct Hcase as [Hlp|[_ ?]]; [|done].
    rewrite Hlp, Hskip. eexists. split; [reflexivity|]. split; reflexivity.
Qed.

Lemma X17_witness :
  exists s',
    onServerUpdate plain_options no_simulation at_11
      (create (<[0%nat := me]> ∅) 1.5%float) = Returned tt s' /\
    off_the_wire s' = off_the_wire (create (<[0%nat := me]> ∅) 1.5%float) /\
    serverUpdates s'
    = (if buffer_full plain_options
            (length (serverUpdates (create (<[0%nat := me]> ∅) 1.5%float)
                     ++ [at_11]))
       then drop 1 (serverUpdates (create (<[0%nat := me]> ∅) 1.5%float)
                    ++ [at_11])
       else serverUpdates (create (<[0%nat := me]> ∅) 1.5%float) ++ [at_11]).
Proof.
  apply (X17_snapshot_is_only_buffered plain_options no_simulation at_11
           (create (<[0%nat := me]> ∅) 1.5%float)); [reflexivity|].
  left. reflexivity.
Defined.

(** ** The naive mode of [onServerUpdate] *)




Lemma naive_loop_unknown (players : list PlayerData) (playerData : PlayerData)
    (s : ClientGame) :
  playerData ∈ players ->
  game_players s !! pd_id playerData = None ->
  returned (for_of players (fun playerData =>
    player <- getPlayerById (pd_id playerData) ;;
    match player with
    | None => throw
    | Some p => update p (Player_setPosition (pd_position playerData))
    end) s) = false.
Proof.
  revert s. induction players as [|pd players IH]; intros s Hin Hunknown.
  { by apply elem_of_nil in Hin. }
  simpl. unfold bind at 1.
  destruct ((player <- getPlayerById (pd_id pd) ;;
             match player with
             | None => throw
             | Some p => update p (Player_setPosition (pd_position pd))
             end) s) as [[] s1|s1] eqn:Hbody; [|done].
  assert (Hgp : game_players s1 = game_players s).
  { eapply (preserves_returned game_players); [|exact Hbody].
    unfold getPlayerById.
    apply preserves_bind; [apply preserves_gets|intros [p|]];
      [by apply setPosition_view|apply preserves_throw]. }
  apply elem_of_cons in Hin as [->|Hin].
  - revert Hbody. unfold getPlayerById. js_unfold. by rewrite Hunknown.
  - apply IH; [done|]. by rewrite Hgp.
Qed.

(** X19.  The naive update has no guard: without a local player, or with a
    listed player the game does not know, [onServerUpdate] throws, and it
    does so before any bullet is spawned or any event replayed. *)
Theorem X19_naive_mode_throws_on_unknown_players
    (options : Options) (game_update : float -> M unit)
    (data : Snapshot) (s : ClientGame) :
  naiveApproach options = true ->
  localPlayer s = None
    \/ (exists playerData, playerData ∈ snap_players data /\
                           game_players s !! pd_id playerData = None) ->
  exists s',
    onServerUpdate options game_update data s = TypeError s' /\
    game_bullets s' = game_bullets s /\
    game_events s' = game_events s /\
    serverTime s' = snap_serverTime data.
Proof.
  intros Hnaive Hcase. unfold onServerUpdate. rewrite Hnaive.
  unfold bind at 1. simpl. unfold naive_update. unfold bind at 1. simpl.
  destruct (localPlayer s) as [r|] eqn:Hlp; [|by eexists].
  destruct Hcase as [|(playerData & Hin & Hunknown)]; [done|].
  set (s1 := set_times _ _ s).
  assert (Hframe : preserves
    (fun s => (game_players s, game_bullets s, game_events s, serverTime s))
    (update r (Player_setPosition (own_position (snap_ownPlayer data))))).
  { by apply setPosition_view. }
  unfold bind at 1. specialize (Hframe s1).
  destruct (update r _ s1) as [[] s2|s2]; simpl in Hframe;
    injection Hframe as Hgp Hb He Ht; [|by exists s2].
  assert (Hloop : preserves
    (fun s => (game_bullets s, game_events s, serverTime s))
    (for_of (snap_players data) (fun playerData =>
       player <- getPlayerById (pd_id playerData) ;;
       match player with
       | None => throw
       | Some p => update p (Player_setPosition (pd_position playerData))
       end))).
  { apply preserves_for_of. intros pd. unfold getPlayerById.
    apply preserves_bind; [apply preserves_gets|intros [p|]];
      [by apply setPosition_view|apply preserves_throw]. }
  pose proof (naive_loop_unknown (snap_players data) playerData s2 Hin) as Hthrows.
  rewrite Hgp in Hthrows. specialize (Hthrows Hunknown).
  unfold bind at 1. specialize (Hloop s2).
  destruct (for_of (snap_players data) _ s2) as [[] s3|s3]; [done|].
  simpl in Hloop. injection Hloop as Hb3 He3 Ht3.
  exists s3. split; [done|]. by rewrite Hb3, He3, Ht3, Hb, He, Ht.
Qed.

Lemma X19_witness :
  exists s',
    onServerUpdate naive_options no_simulation with_stranger arena = TypeError s' /\
    game_bullets s' = game_bullets arena /\
    game_events s' = game_events arena /\
    serverTime s' = snap_serverTime with_stranger.
Proof.
  apply (X19_naive_mode_throws_on_unknown_players naive_options no_simulation
           with_stranger arena); [reflexivity|].
  right. exists (mkPlayerData "p9" (mkPosition 2 2)).
  split; [|reflexivity]. apply elem_of_cons. right. apply elem_of_cons. by left.
Defined.

(** ** The pending inputs over a whole run *)

Lemma clientPrediction_other_players s r :
  localPlayer s <> Some r ->
  heap (final (clientPrediction s)) !! r = heap s !! r.
Proof.
  clientPrediction_cases s; try done.
  all: intros Hr; rewrite !lookup_insert_ne by congruence; done.
Qed.

#[local] Instance pending_suffix_preorder : PreOrder pending_suffix.
Proof.
  split.
  - intros s. split; [done|]. intros r pl Hpl. by exists pl.
  - intros s1 s2 s3 [Hq1 Hp1] [Hq2 Hp2]. split; [congruence|].
    intros r pl3 Hpl3. destruct (Hp2 r pl3 Hpl3) as (pl2 & Hpl2 & Hs2).
    destruct (Hp1 r pl2 Hpl2) as (pl1 & Hpl1 & Hs1).
    exists pl1. split; [done|]. by etrans.
Qed.

Lemma pending_view_suffix {A} (m : M A) :
  preserves pending_view m -> relates pending_suffix m.
Proof.
  intros Hm s. specialize (Hm s). unfold pending_view in Hm.
  injection Hm as Hq Hp. split; [done|]. intros r pl' Hpl'.
  assert (Hr : (player_inputs <$> heap (final (m s))) !! r
               = (player_inputs <$> heap s) !! r) by by rewrite Hp.
  rewrite !lookup_fmap, Hpl' in Hr. simpl in Hr.
  destruct (heap s !! r) as [pl|]; [|done].
  injection Hr as Hr. exists pl. by rewrite Hr.
Qed.

Lemma pending_view_of_capture_view {A} (m : M A) :
  preserves capture_view m -> preserves pending_view m.
Proof.
  intros Hm s. specialize (Hm s). unfold capture_view in Hm.
  unfold pending_view. by injection Hm as -> _ _ ->.
Qed.

Lemma clientPrediction_pending_suffix : relates pending_suffix clientPrediction.
Proof.
  intros s. pose proof (clientPrediction_frame s) as (_ & Hlp & Hq & _).
  split; [done|]. intros r pl' Hpl'.
  destruct (decide (localPlayer s = Some r)) as [Hr|Hr].
  - assert (Hlocal' : local_player (final (clientPrediction s)) = Some pl').
    { unfold local_player. by rewrite Hlp, Hr. }
    destruct (last (serverUpdates s)) as [latest|] eqn:Hlast.
    + rewrite (clientPrediction_local_player s latest Hlast) in Hlocal'.
      unfold local_player in Hlocal'. rewrite Hr in Hlocal'.
      destruct (heap s !! r) as [pl|]; [|done]. injection Hlocal' as <-.
      exists pl. split; [done|apply reconcile_player_inputs].
    + rewrite (clientPrediction_empty_buffer s Hlast) in Hpl'. by exists pl'.
  - rewrite clientPrediction_other_players in Hpl' by done. by exists pl'.
Qed.

Lemma seq_increasing_suffix (inputs inputs' : list InputFrame) :
  inputs' `suffix_of` inputs -> seq_increasing inputs -> seq_increasing inputs'.
Proof.
  intros [front ->] Hinc j k fj fk Hjk Hj Hk.
  apply (Hinc (length front + j)%nat (length front + k)%nat); [lia| |].
  - by rewrite lookup_app_r, Nat.add_comm, Nat.add_sub by lia.
  - by rewrite lookup_app_r, Nat.add_comm, Nat.add_sub by lia.
Qed.

Lemma numbered_in_order_suffix s s' :
  pending_suffix s s' -> numbered_in_order s -> numbered_in_order s'.
Proof.
  intros [Hq Hp] [Hpos Hall]. split; [by rewrite Hq|].
  intros r pl' Hpl'. destruct (Hp r pl' Hpl') as (pl & Hpl & Hsuffix).
  destruct (Hall r pl Hpl) as [Hinc Hbound]. rewrite Hq. split.
  - by eapply seq_increasing_suffix.
  - destruct Hsuffix as [front Hfront]. rewrite Hfront in Hbound.
    by apply Forall_app in Hbound as [_ ?].
Qed.

Lemma updateInput_numbered_in_order Number_toString input s :
  numbered_in_order s ->
  numbered_in_order (final (updateInput Number_toString input s)).
Proof.
  intros [Hpos Hall].
  destruct (decide (input = [])) as [->|Hinput].
  { by rewrite updateInput_idle by by left. }
  destruct (localPlayer s) as [r|] eqn:Hlp;
    [|by rewrite updateInput_idle by by right].
  destruct (heap s !! r) as [pl|] eqn:Hpl.
  - rewrite (updateInput_capture Number_toString input s r pl) by done.
    assert (Hstate : forall s1,
      inputSeq s1 = inputSeq s + 1 ->
      heap s1 = <[r := Player_pushInput
                         (mkInputFrame input (game_time s) (inputSeq s + 1)) pl]>
                  (heap s) ->
      numbered_in_order s1).
    { intros s1 Hq Hheap. split; [lia|]. intros r0 pl0. rewrite Hheap, Hq.
      destruct (decide (r0 = r)) as [->|Hne].
      - rewrite lookup_insert_eq. intros [= <-]. simpl.
        destruct (Hall r pl Hpl) as [Hinc Hbound]. split.
        + intros j k fj fk Hjk Hj Hk.
          assert (Hjlen : (j < length (player_inputs pl))%nat).
          { apply lookup_lt_Some in Hk. rewrite length_app in Hk. simpl in Hk.
            lia. }
          rewrite lookup_app_l in Hj by done.
          destruct (decide (k < length (player_inputs pl))%nat) as [Hklen|Hklen].
          * rewrite lookup_app_l in Hk by done. exact (Hinc j k fj fk Hjk Hj Hk).
          * rewrite lookup_app_r in Hk by lia.
            destruct (k - length (player_inputs pl))%nat; [|done].
            injection Hk as <-. simpl.
            rewrite Forall_forall in Hbound.
            apply list_elem_of_lookup_2, Hbound in Hj. lia.
        + apply Forall_app. split.
          * eapply Forall_impl; [exact Hbound|]. simpl. intros f Hf. lia.
          * constructor; [simpl; lia|constructor].
      - rewrite lookup_insert_ne by done. intros Hpl0.
        destruct (Hall r0 pl0 Hpl0) as [Hinc Hbound]. split; [done|].
        eapply Forall_impl; [exact Hbound|]. simpl. intros f Hf. lia. }
    unfold captured. simpl. destruct (network s); by apply Hstate.
  - destruct input as [|key input]; [done|].
    unfold updateInput. js_unfold. rewrite Hlp. js_unfold. rewrite Hpl. simpl.
    split; [simpl; lia|]. simpl. intros r0 pl0 Hpl0.
    destruct (Hall r0 pl0 Hpl0) as [Hinc Hbound]. split; [done|].
    eapply Forall_impl; [exact Hbound|]. simpl. intros f Hf. lia.
Qed.

Lemma call_pending_suffix options Number_toString game_update op :
  (forall delta, preserves capture_view (game_update delta)) ->
  (forall input, op <> PollInput input) ->
  relates pending_suffix (call options Number_toString game_update op).
Proof.
  intros Hgame Hop. destruct op; simpl.
  - apply pending_view_suffix. unfold addPlayer. repeat frame_step.
  - by apply pending_view_suffix, preserves_modify.
  - by apply pending_view_suffix, preserves_modify.
  - by apply pending_view_suffix, preserves_modify.
  - by apply pending_view_suffix, preserves_modify.
  - by destruct (Hop input).
  - unfold onServerUpdate.
    apply relates_bind; [apply _| |intros _].
    { by apply pending_view_suffix, preserves_modify. }
    destruct (naiveApproach options).
    { apply pending_view_suffix, pending_view_of_capture_view,
        naive_update_capture_view. }
    apply relates_bind; [apply _| |intros _].
    { by apply pending_view_suffix, preserves_modify. }
    apply relates_bind; [apply _| |intros updates].
    { apply pending_view_suffix, preserves_gets. }
    apply relates_bind; [apply _| |intros _].
    { apply pending_view_suffix.
      destruct (buffer_full _ _); [by apply preserves_modify|apply preserves_ret]. }
    apply relates_bind; [apply _| |intros updates'].
    { apply pending_view_suffix, preserves_gets. }
    apply relates_bind; [apply _| |intros lp].
    { apply pending_view_suffix, preserves_gets. }
    destruct updates' as [|first rest], lp as [r|];
      try apply pending_view_suffix, preserves_ret.
    apply relates_bind; [apply _|apply clientPrediction_pending_suffix|intros _].
    apply pending_view_suffix, pending_view_of_capture_view, Hgame.
  - apply pending_view_suffix, pending_view_of_capture_view,
      processNetworkUpdates_capture_view.
Qed.

(** X20.  Pending inputs are always in capture order.  From a new client
    whose players have nothing pending, whatever calls are made and
    whichever of them throw, and even when the local player is switched,
    every player's pending list carries strictly increasing sequence
    numbers, all of them positive and none beyond the counter; so an
    acknowledgement can match at most one pending frame.  The simulation
    step is assumed to leave the counter and the pending lists alone. *)
Theorem X20_pending_inputs_stay_in_capture_order
    (options : Options) (Number_toString : float -> string)
    (game_update : float -> M unit) (store : gmap nat Player) (time : float)
    (ops : list Op) :
  (forall delta, preserves capture_view (game_update delta)) ->
  map_Forall (fun _ pl => player_inputs pl = []) store ->
  let s := run_ops options Number_toString game_update ops (create store time) in
  forall r pl,
    heap s !! r = Some pl ->
    seq_increasing (player_inputs pl) /\
    Forall (fun f => 0 < frame_seq f <= inputSeq s) (player_inputs pl) /\
    NoDup (frame_seq <$> player_inputs pl).
Proof.
  intros Hgame Hempty s.
  assert (Hrun : forall ops s0,
    numbered_in_order s0 ->
    numbered_in_order (run_ops options Number_toString game_update ops s0)).
  { clear s ops. induction ops as [|op ops IH]; intros s0 Hs0; [done|].
    simpl. apply IH. destruct op;
      try (eapply numbered_in_order_suffix; [|exact Hs0];
           by apply call_pending_suffix).
    by apply updateInput_numbered_in_order. }
  assert (Hstart : numbered_in_order (create store time)).
  { split; [done|]. intros r pl Hpl. simpl in Hpl.
    rewrite (Hempty r pl Hpl). split; [|constructor].
    intros j k fj fk _ Hj. by rewrite lookup_nil in Hj. }
  destruct (Hrun ops _ Hstart) as [_ Hall]. intros r pl Hpl.
  destruct (Hall r pl Hpl) as [Hinc Hbound]. split; [done|]. split; [done|].
  apply NoDup_alt. intros j k seq Hj Hk.
  rewrite list_lookup_fmap in Hj, Hk.
  destruct (player_inputs pl !! j) as [fj|] eqn:Hfj; [|done].
  destruct (player_inputs pl !! k) as [fk|] eqn:Hfk; [|done].
  simpl in Hj, Hk. injection Hj as <-. injection Hk as Hk.
  destruct (Nat.lt_trichotomy j k) as [Hlt|[->|Hlt]]; [|done|].
  - pose proof (Hinc j k fj fk Hlt Hfj Hfk). lia.
  - pose proof (Hinc k j fk fj Hlt Hfk Hfj). lia.
Qed.

Lemma X20_witness :
  let s := run_ops plain_options prints_12_345 no_simulation
             [AddPlayer 0; SetLocalPlayer (Some 0%nat); PollInput ["up"];
              PollInput ["left"]; Receive (ack (Some 1)); PollInput ["up"];
              DrawPass 1]
             (create (<[0%nat := p2]> ∅) 1.5%float) in
  let pl := mkPlayer "p2" (mkPosition 1 1)
              [mkInputFrame ["left"] 1.5%float 2; mkInputFrame ["up"] 1.5%float 3]
              0 16 16 in
  heap s !! 0%nat = Some pl /\
  seq_increasing (player_inputs pl) /\
  Forall (fun f => 0 < frame_seq f <= inputSeq s) (player_inputs pl) /\
  NoDup (frame_seq <$> player_inputs pl).
Proof.
  intros s pl.
  assert (Hpl : heap s !! 0%nat = Some pl) by (vm_compute; reflexivity).
  split; [exact Hpl|].
  apply (X20_pending_inputs_stay_in_capture_order plain_options prints_12_345
           no_simulation (<[0%nat := p2]> ∅) 1.5%float
           [AddPlayer 0; SetLocalPlayer (Some 0%nat); PollInput ["up"];
            PollInput ["left"]; Receive (ack (Some 1)); PollInput ["up"];
            DrawPass 1]
           (fun delta s => eq_refl)
           (map_Forall_insert_2 _ _ _ _ eq_refl (map_Forall_empty _))
           0%nat pl Hpl).
Defined.

(** ** Drawing and the hooks *)



Lemma Object_get_None o name : Object_get o name = None <-> name ∉ o.*1.
Proof.
  induction o as [|[key value] o IH]; simpl.
  - split; [intros _; apply not_elem_of_nil|done].
  - destruct (decide (key = name)) as [->|Hne].
    + split; [done|]. intros Hin. destruct Hin. by left.
    + rewrite IH, not_elem_of_cons.
      split; [intros H; split; [congruence|done]|by intros [_ H]].
Qed.



Lemma Object_get_entry o key value :
  NoDup o.*1 -> (key, value) ∈ o -> Object_get o key = Some value.
Proof.
  induction o as [|[k v] o IH]; simpl; intros Hnodup Hin.
  - by apply elem_of_nil in Hin.
  - apply NoDup_cons in Hnodup as [Hfresh Hnodup].
    apply elem_of_cons in Hin as [[= -> ->]|Hin].
    + by rewrite decide_True.
    + destruct (decide (k = key)) as [->|Hne]; [|by apply IH].
      destruct Hfresh. apply list_elem_of_fmap. by exists (key, value).
Qed.


Lemma call_hooks_returns getNetLatency getNetPing (names : list string)
    (v : ViewLoop) :
  Forall (fun name => is_Some (Object_get (afterViewLoopHooks v) name)) names ->
  call_hooks getNetLatency getNetPing names v
  = Done (mkViewLoop (game_state v) (renderer v) (afterViewLoopHooks v)
            (effects v ++
             ((fun name =>
                 Hook name (default 0%nat (Object_get (afterViewLoopHooks v) name))
                   (hook_args getNetLatency getNetPing (game_state v)))
              <$> names))).
Proof.
  revert v. induction names as [|name names IH]; intros v Hnames; simpl.
  - rewrite app_nil_r. by destruct v.
  - apply Forall_cons in Hnames as [[hook Hhook] Hnames]. rewrite Hhook.
    rewrite IH by done. simpl. by rewrite <- app_assoc.
Qed.

Lemma processNetworkUpdates_hook_args getNetLatency getNetPing options
    interpolation s :
  hook_args getNetLatency getNetPing
    (final (processNetworkUpdates options interpolation s))
  = hook_args getNetLatency getNetPing s.
Proof.
  pose proof (processNetworkUpdates_closure_vars options interpolation s) as Hc.
  unfold closure_vars in Hc. injection Hc as _ _ _ Hn Hct Hst.
  assert (Ht : game_time (final (processNetworkUpdates options interpolation s))
               = game_time s) by by apply processNetworkUpdates_view.
  unfold hook_args. by rewrite Hn, Hct, Hst, Ht.
Qed.

(** X22.  One draw, one frame.  With a renderer set, consistent
    bookkeeping and known shooters, [onDraw] returns; it calls
    [renderer.draw] once with the interpolation it was given, and then
    every registered hook exactly once, each with the game time, the two
    clocks and the sender's latency and ping ([null] without a sender).
    It assigns no closure variable, and in naive mode or with an empty
    buffer it leaves the whole state of the client alone.  [Object.keys]
    is taken to list each name of the table once. *)
Theorem X22_draw_calls_renderer_then_each_hook_once
    (options : Options) (Object_keys : list (string * nat) -> list string)
    (getNetLatency getNetPing : list string -> float)
    (interpolation : float) (v : ViewLoop) (canvas : nat) :
  Object_keys (afterViewLoopHooks v) ≡ₚ (afterViewLoopHooks v).*1 ->
  NoDup (afterViewLoopHooks v).*1 ->
  renderer v = Some canvas ->
  roster (game_state v) ->
  (forall snapshot, snapshot ∈ serverUpdates (game_state v) ->
     shooters_known (game_state v) (snap_bullets snapshot)) ->
  (opt_clientPrediction options = true \/ naiveApproach options = true \/
   exists pl, local_player (game_state v) = Some pl /\
              is_Some (game_players (game_state v) !! player_id pl)) ->
  exists v' called,
    onDraw options Object_keys getNetLatency getNetPing interpolation v = Done v' /\
    effects v' = effects v ++ Draw interpolation :: called /\
    called ≡ₚ hook_calls getNetLatency getNetPing v /\
    afterViewLoopHooks v' = afterViewLoopHooks v /\
    closure_vars (game_state v') = closure_vars (game_state v) /\
    (naiveApproach options = true \/ serverUpdates (game_state v) = [] ->
     game_state v' = game_state v).
Proof.
  intros Hkeys Hnodup Hrenderer Hroster Hknown Hlocal.
  destruct (processNetworkUpdates_returns options interpolation (game_state v)
              Hroster Hknown Hlocal) as [s1 Hpass].
  set (guard := negb (naiveApproach options)
                && (0 <? length (serverUpdates (game_state v)))%nat).
  set (s' := if guard then s1 else game_state v).
  assert (Hrun : (if guard
                  then processNetworkUpdates options interpolation (game_state v)
                  else Returned tt (game_state v)) = Returned tt s').
  { subst s'. by destruct guard. }
  assert (Hargs : hook_args getNetLatency getNetPing s'
                  = hook_args getNetLatency getNetPing (game_state v)).
  { subst s'. destruct guard; [|done].
    pose proof (processNetworkUpdates_hook_args getNetLatency getNetPing options
                  interpolation (game_state v)) as H.
    by rewrite Hpass in H. }
  assert (Hvars : closure_vars s' = closure_vars (game_state v)).
  { subst s'. destruct guard; [|done].
    pose proof (processNetworkUpdates_closure_vars options interpolation
                  (game_state v)) as H.
    by rewrite Hpass in H. }
  assert (Hregistered :
    Forall (fun name => is_Some (Object_get (afterViewLoopHooks v) name))
      (Object_keys (afterViewLoopHooks v))).
  { apply Forall_forall. intros name Hin. rewrite Hkeys in Hin.
    destruct (Object_get (afterViewLoopHooks v) name) eqn:Hget; [done|].
    by apply Object_get_None in Hget. }
  eexists _, _. split.
  { unfold onDraw. fold guard. cbv zeta. rewrite Hrun, Hrenderer.
    by apply call_hooks_returns. }
  simpl. split; [by rewrite <- app_assoc|]. rewrite Hargs.
  split; [|split; [done|split; [done|]]].
  - rewrite Hkeys. unfold hook_calls. rewrite <- list_fmap_compose.
    assert (Hsame :
      (fun name =>
         Hook name (default 0%nat (Object_get (afterViewLoopHooks v) name))
           (hook_args getNetLatency getNetPing (game_state v))) ∘ fst
      <$> afterViewLoopHooks v
      = (fun entry =>
           Hook entry.1 entry.2
             (hook_args getNetLatency getNetPing (game_state v)))
        <$> afterViewLoopHooks v); [|by rewrite Hsame].
    apply Forall_fmap_ext_1, Forall_forall. intros [key value] Hentry. simpl.
    by rewrite (Object_get_entry _ key value Hnodup Hentry).
  - intros Hidle. subst s'.
    assert (Hguard : guard = false); [|by rewrite Hguard].
    subst guard. destruct Hidle as [Hidle|Hidle]; rewrite Hidle; [done|].
    apply andb_false_r.
Qed.

Lemma X22_witness :
  exists v' called,
    onDraw (delayed 750) creation_order latency_40 ping_80 1 on_screen = Done v' /\
    effects v' = effects on_screen ++ Draw 1 :: called /\
    called ≡ₚ hook_calls latency_40 ping_80 on_screen /\
    afterViewLoopHooks v' = afterViewLoopHooks on_screen /\
    closure_vars (game_state v') = closure_vars (game_state on_screen) /\
    (naiveApproach (delayed 750) = true
     \/ serverUpdates (game_state on_screen) = [] ->
     game_state v' = game_state on_screen).
Proof.
  apply (X22_draw_calls_renderer_then_each_hook_once (delayed 750)
           creation_order latency_40 ping_80 1 on_screen 0%nat).
  - reflexivity.
  - apply (bool_decide_unpack _). reflexivity.
  - reflexivity.
  - apply roster_check. vm_compute. reflexivity.
  - intros snapshot Hin. unfold shooters_known.
    change (serverUpdates (game_state on_screen)) with [at_10; at_11] in Hin.
    apply elem_of_cons in Hin as [->|Hin]; [constructor|].
    apply elem_of_cons in Hin as [->|Hin]; [|by apply elem_of_nil in Hin].
    constructor; [|constructor]. by eexists.
  - by left.
Defined.

(** X23.  Without a renderer [onDraw] throws, in every state and mode:
    nothing is drawn and no hook is called.  The exception comes after the
    interpolation pass, so in buffered mode the players have already been
    moved; the closure variables and the hooks are as before. *)
Theorem X23_draw_without_renderer_throws
    (options : Options) (Object_keys : list (string * nat) -> list string)
    (getNetLatency getNetPing : list string -> float)
    (interpolation : float) (v : ViewLoop) :
  renderer v = None ->
  exists v',
    onDraw options Object_keys getNetLatency getNetPing interpolation v
      = Thrown v' /\
    effects v' = effects v /\
    afterViewLoopHooks v' = afterViewLoopHooks v /\
    closure_vars (game_state v') = closure_vars (game_state v) /\
    (naiveApproach options = false -> serverUpdates (game_state v) <> [] ->
     game_state v'
     = final (processNetworkUpdates options interpolation (game_state v))).
Proof.
  intros Hrenderer. unfold onDraw.
  pose proof (processNetworkUpdates_closure_vars options interpolation
                (game_state v)) as Hvars.
  destruct (naiveApproach options); simpl.
  { rewrite Hrenderer. by eexists. }
  destruct (serverUpdates (game_state v)) as [|first rest] eqn:Hbuffer; simpl.
  { rewrite Hrenderer. by eexists. }
  destruct (processNetworkUpdates options interpolation (game_state v))
    as [[] s'|s']; simpl in *; rewrite ?Hrenderer; by eexists.
Qed.

Lemma X23_witness :
  exists v',
    onDraw (delayed 750) creation_order latency_40 ping_80 1
      (setRenderer None on_screen) = Thrown v' /\
    effects v' = effects (setRenderer None on_screen) /\
    afterViewLoopHooks v' = afterViewLoopHooks (setRenderer None on_screen) /\
    closure_vars (game_state v')
      = closure_vars (game_state (setRenderer None on_screen)) /\
    (naiveApproach (delayed 750) = false ->
     serverUpdates (game_state (setRenderer None on_screen)) <> [] ->
     game_state v'
     = final (processNetworkUpdates (delayed 750) 1
                (game_state (setRenderer None on_screen)))).
Proof.
  apply (X23_draw_without_renderer_throws (delayed 750) creation_order
           latency_40 ping_80 1 (setRenderer None on_screen)).
  reflexivity.
Defined.

(** ** The getters over a whole run *)

Lemma clocks_of_closure_vars {A} (m : M A) :
  preserves closure_vars m -> preserves clocks m.
Proof.
  intros Hm s. specialize (Hm s). unfold closure_vars in Hm. unfold clocks.
  by injection Hm as _ _ _ _ -> ->.
Qed.

Lemma onServerUpdate_localPlayer options game_update data :
  (forall delta, preserves closure_vars (game_update delta)) ->
  preserves localPlayer (onServerUpdate options game_update data).
Proof.
  intros Hgame. unfold onServerUpdate.
  apply preserves_bind; [by apply preserves_modify|intros _].
  destruct (naiveApproach options); [by apply naive_update_view|].
  apply preserves_bind; [by apply preserves_modify|intros _].
  apply preserves_bind; [apply preserves_gets|intros updates].
  apply preserves_bind; [|intros _].
  { destruct (buffer_full _ _); [by apply preserves_modify|apply preserves_ret]. }
  apply preserves_bind; [apply preserves_gets|intros updates'].
  apply preserves_bind; [apply preserves_gets|intros lp].
  destruct updates' as [|first rest], lp as [r|]; try apply preserves_ret.
  apply preserves_bind; [|intros _].
  - intros s. by destruct (clientPrediction_frame s) as (_ & ? & _).
  - intros s. pose proof (Hgame (simulationTimestep options) s) as H.
    unfold closure_vars in H. by injection H.
Qed.

(** X24.  The getters over a run.  In every state reachable from a new
    client, [getLocalPlayer] returns what the last [setLocalPlayer] was
    given ([null] before the first), also after that player was removed or
    all players were cleared; [getServerTime] returns the server time of
    the last snapshot received (0 before the first), whether or not that
    update threw.  The simulation step is assumed to assign no closure
    variable. *)
Theorem X24_getters_report_the_last_assignment
    (options : Options) (Number_toString : float -> string)
    (game_update : float -> M unit) (store : gmap nat Player) (time : float)
    (ops : list Op) :
  (forall delta, preserves closure_vars (game_update delta)) ->
  let s := run_ops options Number_toString game_update ops (create store time) in
  getLocalPlayer s = Returned (last_local_player ops None) s /\
  getServerTime s = Returned (last_server_time ops 0) s.
Proof.
  intros Hgame s. unfold getLocalPlayer, getServerTime, gets.
  assert (Hgen : forall ops s0,
    let s1 := run_ops options Number_toString game_update ops s0 in
    localPlayer s1 = last_local_player ops (localPlayer s0) /\
    serverTime s1 = last_server_time ops (serverTime s0)).
  { clear s ops. induction ops as [|op ops IH]; intros s0; [done|].
    simpl. destruct (IH (final (call options Number_toString game_update op s0)))
      as [Hlp Ht].
    rewrite Hlp, Ht. clear IH Hlp Ht.
    assert (Hkeep : forall m : M unit,
      preserves (fun s => (localPlayer s, serverTime s)) m ->
      localPlayer (final (m s0)) = localPlayer s0 /\
      serverTime (final (m s0)) = serverTime s0).
    { intros m Hm. specialize (Hm s0). by injection Hm. }
    destruct op; simpl.
    - destruct (Hkeep (addPlayer player)) as [-> ->]; [|done].
      unfold addPlayer. repeat frame_step.
    - done.
    - done.
    - done.
    - done.
    - destruct (Hkeep (updateInput Number_toString input)) as [-> ->]; [|done].
      unfold updateInput, update. repeat frame_step.
    - rewrite onServerUpdate_localPlayer by done.
      destruct (onServerUpdate_clocks options game_update data s0) as [-> _];
        [|done].
      intros delta. apply clocks_of_closure_vars, Hgame.
    - destruct (Hkeep (processNetworkUpdates options interpolation))
        as [-> ->]; [|done].
      intros s. pose proof (processNetworkUpdates_closure_vars options
                              interpolation s) as H.
      unfold closure_vars in H. by injection H as _ _ -> _ _ ->. }
  destruct (Hgen ops (create store time)) as [Hlp Ht]. simpl in Hlp, Ht.
  subst s. by rewrite Hlp, Ht.
Qed.

Lemma X24_witness :
  let s := run_ops plain_options prints_12_345 no_simulation
             [AddPlayer 0; SetLocalPlayer (Some 0%nat); Receive at_10;
              ClearPlayers; Receive at_11; DrawPass 1]
             (create (<[0%nat := me]> ∅) 1.5%float) in
  getLocalPlayer s
    = Returned
        (last_local_player
           [AddPlayer 0; SetLocalPlayer (Some 0%nat); Receive at_10;
            ClearPlayers; Receive at_11; DrawPass 1] None) s /\
  getServerTime s
    = Returned
        (last_server_time
           [AddPlayer 0; SetLocalPlayer (Some 0%nat); Receive at_10;
            ClearPlayers; Receive at_11; DrawPass 1] 0) s.
Proof.
  apply (X24_getters_report_the_last_assignment plain_options prints_12_345
           no_simulation).
  intros delta s. reflexivity.
Defined.
